(** * OpenCode Qwen proxy: credential reconciliation, token resolution,
      request pacing and device-flow polling

    A shallow embedding of [src/index.ts] (the plugin entry: token cache,
    [mergeCredentialSources], [getValidAccessToken], the [fetch] wrapper and
    the device-flow polling callback) and of [src/plugin/auth.ts] (the
    credential store), followed by the properties proved about them.

    JavaScript values are modelled as the code uses them:
    - [string | undefined] and [string | null] are [option string];
      a value is truthy when it is a non-empty string;
    - [number | undefined] holding epoch milliseconds is [option Z];
      a value is truthy when it is present and not [0];
    - the process-wide [let] variables, the credential file, the clock and
      the log of calls that leave the process form one explicit state. *)

From Stdlib Require Import ZArith Ascii String List Lia Bool Sorted.
From stdpp Require Import base option list strings gmap.

Local Open Scope string_scope.
Local Open Scope list_scope.
Local Open Scope Z_scope.

(** ** JavaScript truthiness and the [||] operator *)

Module Js.

(** [Boolean(s)] for [s : string | undefined | null]. *)
Definition truthy_str (o : option string) : bool :=
  match o with
  | Some s => negb (String.eqb s "")
  | None => false
  end.

(** [Boolean(n)] for [n : number | undefined] (integers only). *)
Definition truthy_num (o : option Z) : bool :=
  match o with
  | Some n => negb (n =? 0)
  | None => false
  end.

(** [a || b] on optional strings. *)
Definition or_str (a b : option string) : option string :=
  if truthy_str a then a else b.

(** [a || d] where [d] is a string literal: the result is a string. *)
Definition str_or (a : option string) (d : string) : string :=
  match a with
  | Some s => if String.eqb s "" then d else s
  | None => d
  end.

(** [a || b] on optional numbers. *)
Definition or_num (a b : option Z) : option Z :=
  if truthy_num a then a else b.

(** [a || d] where [d] is a number: the result is a number. *)
Definition num_or (a : option Z) (d : Z) : Z :=
  match a with
  | Some n => if n =? 0 then d else n
  | None => d
  end.

(** [arr.indexOf(x)]: the first index holding [x], [-1] when there is none. *)
Fixpoint indexOf {A} `{EqDecision A} (arr : list A) (x : A) : Z :=
  match arr with
  | [] => -1
  | y :: rest =>
      if decide (y = x) then 0
      else let i := indexOf rest x in if i <? 0 then -1 else i + 1
  end.

(** [arr.filter((item, index) => p(item, index))], started at [index]. *)
Fixpoint filter_from {A} (p : A -> Z -> bool) (index : Z) (arr : list A) : list A :=
  match arr with
  | [] => []
  | x :: rest =>
      if p x index then x :: filter_from p (index + 1) rest
      else filter_from p (index + 1) rest
  end.

Definition filter_indexed {A} (p : A -> Z -> bool) (arr : list A) : list A :=
  filter_from p 0 arr.

(** [arr.sort(cmp)] as the stable sort the language requires: an element
    moves in front of an earlier one only when [cmp] says it is smaller. *)
Fixpoint sort_insert {A} (cmp : A -> A -> Z) (x : A) (sorted : list A) : list A :=
  match sorted with
  | [] => [x]
  | y :: rest =>
      if cmp x y <=? 0 then x :: y :: rest else y :: sort_insert cmp x rest
  end.

Fixpoint sort {A} (cmp : A -> A -> Z) (arr : list A) : list A :=
  match arr with
  | [] => []
  | x :: rest => sort_insert cmp x (sort cmp rest)
  end.

End Js.

(** ** Data model (src/types.ts as used by the code) *)

Record QwenCredentials := mkCredentials {
  accessToken : string;
  tokenType : option string;
  refreshToken : option string;
  resourceUrl : option string;
  expiryDate : option Z;
  scope : option string
}.

Record RuntimeAuthState := mkRuntimeAuth {
  auth_type : string;
  access : option string;
  refresh : option string;
  expires : option Z
}.

Record MergedCredentials := mkMerged {
  merged_accessToken : option string;
  merged_expiryDate : option Z;
  refreshCandidates : list string
}.

(** ** Credential reconciler (src/index.ts) *)

Definition runtimeAuthToCredentials (auth : option RuntimeAuthState)
  : option QwenCredentials :=
  match auth with
  | None => None
  | Some a =>
      if negb (String.eqb (auth_type a) "oauth") then None
      else if negb (Js.truthy_str (access a)) && negb (Js.truthy_str (refresh a)) then None
      else Some {| accessToken := Js.str_or (access a) "";
                   refreshToken := refresh a;
                   expiryDate := expires a;
                   tokenType := Some "Bearer";
                   resourceUrl := None;
                   scope := None |}
  end.

Definition getExpiryScore (credentials : option QwenCredentials) : Z :=
  default 0 (credentials ≫= expiryDate).

(** The local [credentialsByFreshness]. *)
Definition credentialsByFreshness
  (runtimeCredentials fileCredentials : option QwenCredentials) : list QwenCredentials :=
  Js.sort (fun a b => getExpiryScore (Some b) - getExpiryScore (Some a))
          (omap id [runtimeCredentials; fileCredentials]).

(** The local [freshest], [credentialsByFreshness[0]]. *)
Definition freshest (runtimeCredentials fileCredentials : option QwenCredentials)
  : option QwenCredentials :=
  head (credentialsByFreshness runtimeCredentials fileCredentials).

Definition mergeCredentialSources
  (runtimeCredentials fileCredentials : option QwenCredentials) : MergedCredentials :=
  let freshest := freshest runtimeCredentials fileCredentials in
  let accessToken :=
    Js.or_str (Js.or_str (Js.or_str (accessToken <$> freshest)
                                    (accessToken <$> runtimeCredentials))
                         (accessToken <$> fileCredentials))
              None in
  let expiryDate :=
    Js.or_num (Js.or_num (freshest ≫= expiryDate)
                         (runtimeCredentials ≫= expiryDate))
              (fileCredentials ≫= expiryDate) in
  let arr := [freshest ≫= refreshToken;
              fileCredentials ≫= refreshToken;
              runtimeCredentials ≫= refreshToken] in
  let refreshCandidates :=
    omap id (Js.filter_indexed
               (fun token index => Js.truthy_str token && (Js.indexOf arr token =? index))
               arr) in
  {| merged_accessToken := accessToken;
     merged_expiryDate := expiryDate;
     refreshCandidates := refreshCandidates |}.

(** ** The world outside the process

    Every call that leaves the process is logged with the time it was made.
    What the outside answers is given by an environment: each answer may
    depend on the whole log so far, so the same call may be answered
    differently at different moments.  Calls over the network also take time
    (a duration in milliseconds). *)

(** The persisted record, [interface StoredCredentialsFile] of
    src/plugin/auth.ts; an absent key is [None]. *)
Record StoredCredentialsFile := mkStored {
  access_token : option string;
  token_type : option string;
  refresh_token : option string;
  resource_url : option string;
  expiry_date : option Z;
  stored_scope : option string
}.

(** What is found at [~/.qwen/oauth_creds.json]. [JSON.stringify] followed by
    [JSON.parse] is taken as the identity on objects whose fields are strings
    and integers, a key with value [undefined] being left out. *)
Inductive FileContent :=
| FileMissing                              (* existsSync(credPath) is false *)
| FileUnreadable                           (* readFileSync or JSON.parse throws *)
| FileJson (parsed : StoredCredentialsFile).

(** An outbound request: [fetch(input, { ...init, headers })].  Header names
    are kept in lower case, as a [Headers] object normalises them. *)
Record Request := mkRequest {
  req_input : string;
  req_init : string;
  req_headers : gmap string string
}.

(** The part of a [Response] the wrapper looks at, and its payload. *)
Record Response := mkResponse {
  status : Z;
  retry_after : option string;             (* response.headers.get('Retry-After') *)
  body : string
}.

(** What [pollDeviceToken] followed by [tokenResponseToCredentials] (both in
    src/qwen/oauth.ts) can produce, as the polling loop tells the cases apart. *)
Inductive PollOutcome :=
| PollToken (credentials : QwenCredentials) (* a token response *)
| PollNothing                              (* a falsy result: not yet *)
| PollSlowDown                             (* throws SlowDownError *)
| PollPending                              (* throws, message has authorization_pending *)
| PollError.                               (* throws anything else *)

Inductive Event :=
| GetAuth
| ExistsSync
| ReadFileSync
| WriteFileSync (data : StoredCredentialsFile)
| WriteFailed
| RefreshCall (refreshToken : string)
| FetchCall (request : Request)
| Sleep (ms : option Z)                    (* setTimeout(resolve, ms); None is NaN *)
| PollCall.

Definition History := list (Z * Event).

Record Env := mkEnv {
  host_getAuth : History -> option RuntimeAuthState;
  net_refreshAccessToken : History -> string -> N * option QwenCredentials;
  fs_write_ok : History -> bool;
  net_fetch : History -> Request -> N * option Response;
  net_pollDeviceToken : History -> N * PollOutcome;
  math_random : History -> Z;              (* Math.random() * 2^53 *)
  process_platform : string;
  process_arch : string
}.

(** ** Process state: the module-level variables of src/index.ts, the
    request queue's field, the credential file, the clock and the log. *)

Record State := mkState {
  cachedToken : option string;
  cachedTokenExpiry : Z;
  lastRefreshTime : Z;
  lastRequestTime : Z;
  disk : FileContent;
  clock : Z;
  trace : History
}.

Definition log (e : Event) (st : State) : State :=
  {| cachedToken := cachedToken st; cachedTokenExpiry := cachedTokenExpiry st;
     lastRefreshTime := lastRefreshTime st; lastRequestTime := lastRequestTime st;
     disk := disk st; clock := clock st;
     trace := trace st ++ [(clock st, e)] |}.

Definition tick (ms : Z) (st : State) : State :=
  {| cachedToken := cachedToken st; cachedTokenExpiry := cachedTokenExpiry st;
     lastRefreshTime := lastRefreshTime st; lastRequestTime := lastRequestTime st;
     disk := disk st; clock := clock st + ms;
     trace := trace st |}.

Definition set_disk (d : FileContent) (st : State) : State :=
  {| cachedToken := cachedToken st; cachedTokenExpiry := cachedTokenExpiry st;
     lastRefreshTime := lastRefreshTime st; lastRequestTime := lastRequestTime st;
     disk := d; clock := clock st;
     trace := trace st |}.

Definition set_cache (token : option string) (expiry lastRefresh : Z) (st : State) : State :=
  {| cachedToken := token; cachedTokenExpiry := expiry;
     lastRefreshTime := lastRefresh; lastRequestTime := lastRequestTime st;
     disk := disk st; clock := clock st;
     trace := trace st |}.

Definition set_lastRequestTime (t : Z) (st : State) : State :=
  {| cachedToken := cachedToken st; cachedTokenExpiry := cachedTokenExpiry st;
     lastRefreshTime := lastRefreshTime st; lastRequestTime := t;
     disk := disk st; clock := clock st;
     trace := trace st |}.

(** [setTimeout] as Node runs it: a delay that is [NaN], below 1 or above
    2^31 - 1 is replaced by 1. *)
Definition setTimeout_delay (ms : option Z) : Z :=
  match ms with
  | Some d => if (1 <=? d) && (d <=? 2147483647) then d else 1
  | None => 1
  end.

(** [await new Promise(resolve => setTimeout(resolve, ms))]. *)
Definition sleep (ms : option Z) (st : State) : State :=
  tick (setTimeout_delay ms) (log (Sleep ms) st).

(** ** Credential store (src/plugin/auth.ts) *)

(** The object [data] that [saveCredentials] serialises. *)
Definition stored_of (credentials : QwenCredentials) : StoredCredentialsFile :=
  {| access_token := Some (accessToken credentials);
     token_type := Some (Js.str_or (tokenType credentials) "Bearer");
     refresh_token := refreshToken credentials;
     resource_url := resourceUrl credentials;
     expiry_date := expiryDate credentials;
     stored_scope := scope credentials |}.

(** [saveCredentials]: creating the directory and writing the file either
    both succeed or throw; the result says whether the call returned. *)
Definition saveCredentials (env : Env) (credentials : QwenCredentials) (st : State)
  : bool * State :=
  let data := stored_of credentials in
  if fs_write_ok env (trace st)
  then (true, set_disk (FileJson data) (log (WriteFileSync data) st))
  else (false, log WriteFailed st).

(** The record [loadCredentials] builds from the parsed file. *)
Definition credentials_of (parsed : StoredCredentialsFile) : option QwenCredentials :=
  if negb (Js.truthy_str (access_token parsed)) && negb (Js.truthy_str (refresh_token parsed))
  then None
  else Some {| accessToken := Js.str_or (access_token parsed) "";
               tokenType := Some (Js.str_or (token_type parsed) "Bearer");
               refreshToken := refresh_token parsed;
               resourceUrl := resource_url parsed;
               expiryDate := expiry_date parsed;
               scope := stored_scope parsed |}.

Definition loadCredentials (st : State) : option QwenCredentials * State :=
  let st1 := log ExistsSync st in
  match disk st with
  | FileMissing => (None, st1)
  | FileUnreadable => (None, log ReadFileSync st1)
  | FileJson parsed => (credentials_of parsed, log ReadFileSync st1)
  end.

(** ** Token cache and resolution (src/index.ts) *)

Definition TOKEN_CACHE_DURATION : Z := 5 * 60 * 1000.
Definition REFRESH_BEFORE_EXPIRY_MS : Z := 5 * 60 * 1000.

Definition resetTokenCache (st : State) : State := set_cache None 0 0 st.

(** [await getAuth()]: a call into the host. *)
Definition getAuth (env : Env) (st : State) : option RuntimeAuthState * State :=
  (host_getAuth env (trace st), log GetAuth st).

(** [await refreshAccessToken(refreshToken)] (src/qwen/oauth.ts, a call to the
    token endpoint): [None] when it throws. *)
Definition refreshAccessToken (env : Env) (refreshToken : string) (st : State)
  : option QwenCredentials * State :=
  let '(duration, outcome) := net_refreshAccessToken env (trace st) refreshToken in
  (outcome, tick (Z.of_N duration) (log (RefreshCall refreshToken) st)).

(** The cache test at the head of [getValidAccessToken]. *)
Definition cacheIsFresh (now : Z) (st : State) : bool :=
  Js.truthy_str (cachedToken st)
  && (now <? cachedTokenExpiry st)
  && (now - lastRefreshTime st <? TOKEN_CACHE_DURATION).

(** The local [shouldRefresh]. *)
Definition shouldRefresh (now : Z) (merged : MergedCredentials) : bool :=
  (0 <? Z.of_nat (length (refreshCandidates merged)))
  && (negb (Js.truthy_str (merged_accessToken merged))
      || negb (Js.truthy_num (merged_expiryDate merged))
      || match merged_expiryDate merged with
         | Some tokenExpiry => tokenExpiry - REFRESH_BEFORE_EXPIRY_MS <? now
         | None => false
         end).

(** How the [for ... of merged.refreshCandidates] loop is left: by its
    [return accessToken], or by running out of candidates with the locals
    [accessToken] and [tokenExpiry] as they then are. *)
Inductive LoopExit :=
| Returned (token : string)
| Exhausted (token : option string) (tokenExpiry : option Z).

Fixpoint refreshLoop (env : Env) (candidates : list string)
    (token : option string) (tokenExpiry : option Z) (st : State)
  : LoopExit * State :=
  match candidates with
  | [] => (Exhausted token tokenExpiry, st)
  | refreshToken :: rest =>
      match refreshAccessToken env refreshToken st with
      | (None, st1) =>                      (* catch (e): log and go on *)
          refreshLoop env rest token tokenExpiry st1
      | (Some refreshed, st1) =>
          let token' := accessToken refreshed in
          let tokenExpiry' := Js.num_or (expiryDate refreshed) (clock st1 + 3600000) in
          match saveCredentials env refreshed st1 with
          | (false, st2) =>                 (* saveCredentials threw: same catch *)
              refreshLoop env rest (Some token') (Some tokenExpiry') st2
          | (true, st2) =>
              (Returned token', set_cache (Some token') tokenExpiry' (clock st2) st2)
          end
      end
  end.

(** The tail of [getValidAccessToken], after the refresh attempts. *)
Definition settleToken (now : Z) (token : option string) (tokenExpiry : option Z)
    (st : State) : option string * State :=
  if Js.truthy_str token && Js.truthy_num tokenExpiry
     && match tokenExpiry with Some e => e <? now | None => false end
  then (None, resetTokenCache st)
  else if Js.truthy_str token
  then (token, set_cache token (Js.num_or tokenExpiry (clock st + 3600000)) now st)
  else (token, st).

Definition getValidAccessToken (env : Env) (st : State) : option string * State :=
  let '(auth, st1) := getAuth env st in
  let runtimeCredentials := runtimeAuthToCredentials auth in
  let '(fileCredentials, st2) := loadCredentials st1 in
  let merged := mergeCredentialSources runtimeCredentials fileCredentials in
  let now := clock st2 in
  if cacheIsFresh now st2 then (cachedToken st2, st2)
  else if shouldRefresh now merged
  then match refreshLoop env (refreshCandidates merged)
               (merged_accessToken merged) (merged_expiryDate merged) st2 with
       | (Returned token, st3) => (Some token, st3)
       | (Exhausted token tokenExpiry, st3) => settleToken now token tokenExpiry st3
       end
  else settleToken now (merged_accessToken merged) (merged_expiryDate merged) st2.

(** ** Request queue ([class RequestQueue])

    The README holds the class: its field [lastRequestTime], the constant
    [MIN_INTERVAL] and [enqueue]; and, in a second excerpt, the constants
    [JITTER_MIN] and [JITTER_MAX] and the method [getJitter], which the
    [enqueue] of the first excerpt does not call. *)

Definition MIN_INTERVAL : Z := 1000.
Definition JITTER_MIN : Z := 500.
Definition JITTER_MAX : Z := 1500.

(** [Math.random() * (JITTER_MAX - JITTER_MIN) + JITTER_MIN], in whole
    milliseconds; [math_random] is the sample scaled by 2^53. *)
Definition getJitter (env : Env) (st : State) : Z :=
  math_random env (trace st) * (JITTER_MAX - JITTER_MIN) / 2 ^ 53 + JITTER_MIN.

(** [enqueue] as the README quotes it, up to the call of the task, with
    [jitter] more milliseconds to wait:
    [waitTime = Math.max(0, MIN_INTERVAL - elapsed)], a timer if
    [waitTime > 0], then [lastRequestTime = Date.now()]. *)
Definition await_turn_with (jitter : Z) (st : State) : State :=
  let elapsed := clock st - lastRequestTime st in
  let waitTime := Z.max 0 (MIN_INTERVAL - elapsed) + jitter in
  let st1 := if 0 <? waitTime then sleep (Some waitTime) st else st in
  set_lastRequestTime (clock st1) st1.

(** [enqueue] exactly as the README quotes it: no jitter. *)
Definition enqueue_quoted {A} (fn : State -> A * State) (st : State) : A * State :=
  fn (await_turn_with 0 st).

(** ** The [fetch] wrapper returned by [loader] (src/index.ts) *)

Definition QWEN_CODE_VERSION : string := "0.10.3".

Definition char_code (c : ascii) : Z := Z.of_N (N_of_ascii c).

(** Tab, line feed, vertical tab, form feed, carriage return, space. *)
Definition is_white_space (c : ascii) : bool :=
  ((9 <=? char_code c) && (char_code c <=? 13)) || (char_code c =? 32).

(** The value of a decimal digit: the characters from code 48 to code 57. *)
Definition digit_of (c : ascii) : option Z :=
  if (48 <=? char_code c) && (char_code c <=? 57)
  then Some (char_code c - 48)
  else None.

Fixpoint skip_white_space (s : string) : string :=
  match s with
  | String c rest => if is_white_space c then skip_white_space rest else s
  | EmptyString => s
  end.

Fixpoint digits_value (s : string) (acc : option Z) : option Z :=
  match s with
  | String c rest =>
      match digit_of c with
      | Some d => digits_value rest (Some (10 * default 0 acc + d))
      | None => acc
      end
  | EmptyString => acc
  end.

(** [Number.parseInt(s, 10)]: leading white space, an optional sign, then the
    longest run of decimal digits; [None] is [NaN]. *)
Definition parseInt (s : string) : option Z :=
  match skip_white_space s with
  | String "-"%char rest => Z.opp <$> digits_value rest None
  | String "+"%char rest => digits_value rest None
  | rest => digits_value rest None
  end.

(** What the wrapper hands back: a response, or an exception. *)
Inductive FetchResult :=
| Responded (response : Response)
| Thrown (message : string).

(** [await fetch(input, { ...init, headers })]: [None] from the network is a
    rejected promise, which the wrapper does not catch. *)
Definition http_fetch (env : Env) (request : Request) (st : State) : FetchResult * State :=
  let '(duration, outcome) := net_fetch env (trace st) request in
  (match outcome with
   | Some response => Responded response
   | None => Thrown "fetch failed"
   end,
   tick (Z.of_N duration) (log (FetchCall request) st)).

Definition userAgent (env : Env) : string :=
  "QwenCode/" +:+ QWEN_CODE_VERSION +:+ " (" +:+ process_platform env +:+ "; "
  +:+ process_arch env +:+ ")".

(** The [headers] object after the five [headers.set] calls. *)
Definition buildHeaders (env : Env) (init_headers : gmap string string) (token : string)
  : gmap string string :=
  <["x-dashscope-authtype" := "qwen-oauth"]>
    (<["x-dashscope-useragent" := userAgent env]>
       (<["x-dashscope-cachecontrol" := "enable"]>
          (<["user-agent" := userAgent env]>
             (<["authorization" := "Bearer " +:+ token]> init_headers)))).

(** The request [fetch(input, { ...init, headers })] sends. *)
Definition request_of (input init : string) (headers : gmap string string) : Request :=
  {| req_input := input; req_init := init; req_headers := headers |}.

(** The task given to [requestQueue.enqueue]: one call, and the handling of
    401/403 and 429. *)
Definition dispatch (env : Env) (input init : string) (headers : gmap string string)
    (token : string) (st : State) : FetchResult * State :=
  let request := request_of input init headers in
  match http_fetch env request st with
  | (Thrown message, st1) => (Thrown message, st1)
  | (Responded response, st1) =>
      let '(retry, st2) :=
        if (status response =? 401) || (status response =? 403)
        then let '(retriedToken, st') := getValidAccessToken env (resetTokenCache st1) in
             if Js.truthy_str retriedToken && negb (bool_decide (retriedToken = Some token))
             then (retriedToken, st')
             else (None, st')
        else (None, st1) in
      match retry with
      | Some retriedToken =>
          http_fetch env
            (request_of input init (<["authorization" := "Bearer " +:+ retriedToken]> headers))
            st2
      | None =>
          if status response =? 429
          then let retryAfter := Js.str_or (retry_after response) "60" in
               let st3 := sleep ((fun seconds => seconds * 1000) <$> parseInt retryAfter) st2 in
               http_fetch env request st3
          else (Responded response, st2)
      end
  end.

(** The double quote character (code 34), for the message below. *)
Definition double_quote : string := String (ascii_of_N 34) EmptyString.

(** [fetch(input, init)] of the object [loader] returns. *)
Definition qwen_fetch (env : Env) (input init : string) (init_headers : gmap string string)
    (st : State) : FetchResult * State :=
  let '(accessToken, st1) := getValidAccessToken env st in
  if negb (Js.truthy_str accessToken)
  then (Thrown ("[Qwen] No valid access token. Please run " +:+ double_quote
                +:+ "opencode auth login" +:+ double_quote +:+ "."), st1)
  else
    let token := default "" accessToken in
    enqueue_quoted (dispatch env input init (buildHeaders env init_headers token) token) st1.

(** ** Device-flow polling (the [callback] of [authorize], src/index.ts) *)

Definition POLLING_MARGIN_MS : Z := 3000.

Inductive AuthResult :=
| AuthSuccess (access refresh : string) (expires : Z)
| AuthFailed.

(** [await pollDeviceToken(deviceAuth.device_code, verifier)]. *)
Definition pollDeviceToken (env : Env) (st : State) : PollOutcome * State :=
  let '(duration, outcome) := net_pollDeviceToken env (trace st) in
  (outcome, tick (Z.of_N duration) (log PollCall st)).

(** The [while (Date.now() - startTime < timeoutMs)] loop.  [fuel] bounds the
    number of iterations; [None] means the bound was reached. *)
Fixpoint pollingLoop (fuel : nat) (env : Env) (startTime timeoutMs interval : Z)
    (st : State) : option AuthResult * State :=
  match fuel with
  | O => (None, st)
  | S fuel' =>
      if clock st - startTime <? timeoutMs
      then
        let st1 := sleep (Some (interval + POLLING_MARGIN_MS)) st in
        match pollDeviceToken env st1 with
        | (PollToken credentials, st2) =>
            match saveCredentials env credentials st2 with
            | (true, st3) =>
                (Some (AuthSuccess (accessToken credentials)
                                   (default "" (refreshToken credentials))
                                   (Js.num_or (expiryDate credentials) (clock st3 + 3600000))),
                 st3)
            | (false, st3) => (Some AuthFailed, st3)
            end
        | (PollNothing, st2) | (PollPending, st2) =>
            pollingLoop fuel' env startTime timeoutMs interval st2
        | (PollSlowDown, st2) =>
            pollingLoop fuel' env startTime timeoutMs (Z.min (interval + 5000) 15000) st2
        | (PollError, st2) => (Some AuthFailed, st2)
        end
      else (Some AuthFailed, st)
  end.

(** Every iteration suspends for at least 8 seconds, so the loop body runs
    at most [timeoutMs / 8000 + 1] times. *)
Definition pollingFuel (timeoutMs : Z) : nat := S (Z.to_nat (timeoutMs / 8000 + 1)).

Definition callback (env : Env) (expires_in : Z) (st : State) : option AuthResult * State :=
  let startTime := clock st in
  let timeoutMs := expires_in * 1000 in
  pollingLoop (pollingFuel timeoutMs) env startTime timeoutMs 5000 st.

(** ** The [loader] of the plugin (src/index.ts) *)

(** [QWEN_API_CONFIG.baseUrl] of src/constants.ts. *)
Definition QWEN_API_CONFIG_baseUrl : string := "https://portal.qwen.ai/v1".

(** A value of [provider.models]: [{ cost?: { input: number; output: number } }]. *)
Record ProviderModel := mkProviderModel {
  cost : option (Z * Z)
}.

(** The [provider] argument of [loader]: [models] may be absent, and a model
    may be null. *)
Record Provider := mkProvider {
  models : option (gmap string (option ProviderModel))
}.

(** What [loader] returns beside the [fetch] function, which is
    [qwen_fetch]. *)
Record LoaderResult := mkLoaderResult {
  apiKey : string;
  baseURL : string
}.

(** [if (model) model.cost = { input: 0, output: 0 }]. *)
Definition zeroCost (model : option ProviderModel) : option ProviderModel :=
  match model with
  | Some _ => Some {| cost := Some (0, 0) |}
  | None => None
  end.

(** The loop over [Object.values(provider.models)], which assigns in place:
    the provider as it is afterwards. *)
Definition zeroCosts (provider : option Provider) : option Provider :=
  match provider with
  | Some p =>
      Some {| models := match models p with
                        | Some ms => Some (zeroCost <$> ms)
                        | None => None
                        end |}
  | None => None
  end.

(** [loader]: the result, the provider as the loop left it, and the state. *)
Definition loader (env : Env) (provider : option Provider) (st : State)
  : option LoaderResult * option Provider * State :=
  let provider' := zeroCosts provider in
  let '(accessToken, st1) := getValidAccessToken env st in
  if negb (Js.truthy_str accessToken) then (None, provider', st1)
  else (Some {| apiKey := ""; baseURL := QWEN_API_CONFIG_baseUrl |}, provider', st1).

(** ** The earlier [getValidAccessToken] (the first src/index.ts listing)

    It knows the host's session only: the credential file is never read, and
    a refresh is tried with the session's refresh token when less than a
    minute is left. *)

Module Legacy.

Definition REFRESH_MARGIN : Z := 60000.

Definition getValidAccessToken (env : Env) (st : State) : option string * State :=
  let '(auth, st1) := getAuth env st in
  match auth with
  | None => (None, st1)
  | Some a =>
      if negb (String.eqb (auth_type a) "oauth") then (None, st1)
      else
        let now := clock st1 in
        if cacheIsFresh now st1 then (cachedToken st1, st1)
        else
          let '(accessToken, st2) :=
            if Js.truthy_str (access a) && Js.truthy_num (expires a)
               && match expires a with
                  | Some e => e - REFRESH_MARGIN <? clock st1
                  | None => false
                  end
               && Js.truthy_str (refresh a)
            then
              match refreshAccessToken env (default "" (refresh a)) st1 with
              | (Some refreshed, st') =>
                  match saveCredentials env refreshed st' with
                  | (true, st'') =>
                      (Some (accessToken refreshed),
                       set_cache (cachedToken st'')
                                 (Js.num_or (expiryDate refreshed) (clock st'' + 3600000))
                                 (clock st'') st'')
                  | (false, st'') => (None, st'')      (* catch: accessToken = undefined *)
                  end
              | (None, st') => (None, st')             (* catch: accessToken = undefined *)
              end
            else (access a, st1) in
          if Js.truthy_str accessToken
          then (accessToken,
                set_cache accessToken (Js.num_or (expires a) (clock st2 + 3600000)) now st2)
          else (accessToken, st2)
  end.

End Legacy.

(** * Vocabulary of the properties *)

(** ** The reconciler as the design words it (section 4.2) *)

(** Filtered for presence: the tokens that are there and not empty. *)
Definition present_tokens (tokens : list (option string)) : list string :=
  omap (fun token => if Js.truthy_str token then token else None) tokens.

(** De-duplicated, first occurrence wins, order preserved. *)
Fixpoint dedup_first (tokens : list string) : list string :=
  match tokens with
  | [] => []
  | token :: rest => token :: filter (fun other => other <> token) (dedup_first rest)
  end.

(** [expiry_later a b]: [a] is a strictly later expiry than [b]; an absent
    expiry ranks below every present one. *)
Definition expiry_later (a b : option Z) : bool :=
  match a, b with
  | Some x, Some y => y <? x
  | Some _, None => true
  | None, _ => false
  end.

(** The source with the larger expiry; ties and absent expiries resolve to
    runtime, then file. *)
Definition freshest_source (runtime file : option QwenCredentials) : option QwenCredentials :=
  match runtime, file with
  | Some r, Some f => if expiry_later (expiryDate f) (expiryDate r) then Some f else Some r
  | Some r, None => Some r
  | None, file => file
  end.

(** The source with the larger expiry score, the score of a credential being
    its expiry date, or 0 when it has none; ties resolve to runtime, then
    file. *)
Definition freshest_scored (runtime file : option QwenCredentials) : option QwenCredentials :=
  match runtime, file with
  | Some r, Some f =>
      if default 0 (expiryDate r) <? default 0 (expiryDate f) then Some f else Some r
  | Some r, None => Some r
  | None, file => file
  end.

(** Expiry dates are epoch milliseconds of a moment after the epoch. *)
Definition expiry_is_timestamp (credentials : option QwenCredentials) : Prop :=
  forall c e, credentials = Some c -> expiryDate c = Some e -> 0 < e.

(** The filter callback of [refreshCandidates], on the array [arr]. *)
Definition first_truthy_occurrence (arr : list (option string))
    (token : option string) (index : Z) : bool :=
  Js.truthy_str token && (Js.indexOf arr token =? index).

(** ** Reading the log *)

(** What was logged between two states of one run. *)
Definition events_since (before after : State) : History :=
  drop (length (trace before)) (trace after).

Definition refresh_call (e : Event) : option string :=
  match e with RefreshCall token => Some token | _ => None end.

Definition fetch_call (e : Event) : option Request :=
  match e with FetchCall request => Some request | _ => None end.

Definition poll_time (entry : Z * Event) : option Z :=
  match snd entry with PollCall => Some (fst entry) | _ => None end.

(** The refresh tokens sent to the token endpoint, in the order sent. *)
Definition refresh_calls (h : History) : list string := omap refresh_call (snd <$> h).

(** The requests sent to the API, in the order sent. *)
Definition fetch_calls (h : History) : list Request := omap fetch_call (snd <$> h).

(** The times at which the token endpoint was polled. *)
Definition poll_times (h : History) : list Z := omap poll_time h.

(** How many polls [h] holds beyond [h0]. *)
Definition polls_since (h0 h : History) : nat :=
  length (poll_times (drop (length h0) h)).

(** The log entries token resolution can make: the host call, the credential
    file, the token endpoint. *)
Definition resolution_event (e : Event) : bool :=
  match e with
  | GetAuth | ExistsSync | ReadFileSync | WriteFileSync _ | WriteFailed | RefreshCall _ => true
  | FetchCall _ | Sleep _ | PollCall => false
  end.

(** ** Token resolution as the design words it (section 4.3) *)

(** The reconciled view [merged] and the state in which the cache is tested:
    the first four statements of [getValidAccessToken]. *)
Definition reconcile (env : Env) (st : State) : MergedCredentials * State :=
  let '(auth, st1) := getAuth env st in
  let '(fileCredentials, st2) := loadCredentials st1 in
  (mergeCredentialSources (runtimeAuthToCredentials auth) fileCredentials, st2).

(** Step 3: there is a refresh candidate, and no access token is known, or no
    expiry is known, or fewer than five minutes remain. *)
Definition refresh_due (now : Z) (merged : MergedCredentials) : Prop :=
  refreshCandidates merged <> []
  /\ (merged_accessToken merged = None
      \/ merged_expiryDate merged = None
      \/ exists expiry, merged_expiryDate merged = Some expiry
                        /\ now > expiry - 5 * 60 * 1000).

(** Two states with the same token cache. *)
Definition same_cache (a b : State) : Prop :=
  cachedToken a = cachedToken b
  /\ cachedTokenExpiry a = cachedTokenExpiry b
  /\ lastRefreshTime a = lastRefreshTime b.

(** From the log [h0] on, [refreshAccessToken] throws for [token]. *)
Definition refresh_fails (env : Env) (h0 : History) (token : string) : Prop :=
  forall h, h0 `prefix_of` h -> snd (net_refreshAccessToken env h token) = None.

(** From the log [h0] on, [refreshAccessToken] returns [refreshed] for [token]. *)
Definition refresh_succeeds (env : Env) (h0 : History) (token : string)
    (refreshed : QwenCredentials) : Prop :=
  forall h, h0 `prefix_of` h -> snd (net_refreshAccessToken env h token) = Some refreshed.

(** From the log [h0] on, writing the credential file does not throw. *)
Definition disk_writable (env : Env) (h0 : History) : Prop :=
  forall h, h0 `prefix_of` h -> fs_write_ok env h = true.

(** From the log [h0] on, writing the credential file throws. *)
Definition disk_unwritable (env : Env) (h0 : History) : Prop :=
  forall h, h0 `prefix_of` h -> fs_write_ok env h = false.

(** ** The wrapper, the queue and the polling loop *)

(** [answered env st request]: what the network answers to [request] sent
    in state [st]. *)
Definition answered (env : Env) (st : State) (request : Request) : FetchResult :=
  fst (http_fetch env request st).

(** [Math.random()] is in [0, 1). *)
Definition valid_random (env : Env) : Prop :=
  forall h, 0 <= math_random env h < 2 ^ 53.

(** A task that takes time and leaves the queue's field alone. *)
Definition well_behaved {A} (fn : State -> A * State) : Prop :=
  forall st, clock st <= clock (snd (fn st))
             /\ lastRequestTime (snd (fn st)) = lastRequestTime st.


(** The state after one more round of the polling loop: the wait, then the
    poll. *)
Definition after_poll (env : Env) (interval : Z) (st : State) : State :=
  snd (pollDeviceToken env (sleep (Some (interval + POLLING_MARGIN_MS)) st)).

(** ** More vocabulary *)

(** The later of two expiry dates, an absent one counting for nothing. *)
Definition latest_expiry (a b : option Z) : option Z :=
  match a, b with
  | Some x, Some y => Some (Z.max x y)
  | Some x, None => Some x
  | None, b => b
  end.

(** A request as the wrapper sends it for the call [fetch(input, init)]: the
    caller's input and options, and the caller's headers with the five
    headers of the wrapper set for some non-empty token. *)
Definition authorized_request (env : Env) (input init : string)
    (init_headers : gmap string string) (request : Request) : Prop :=
  req_input request = input
  /\ req_init request = init
  /\ exists token, token <> "" /\ req_headers request = buildHeaders env init_headers token.

(** The header names the wrapper sets. *)
Definition wrapper_headers : list string :=
  ["authorization"; "user-agent"; "x-dashscope-cachecontrol"; "x-dashscope-useragent";
   "x-dashscope-authtype"].

(** A timer was set. *)
Definition is_sleep (e : Event) : bool :=
  match e with Sleep _ => true | _ => false end.

(** How long each timer in the log ran. *)
Definition wait_time (entry : Z * Event) : option Z :=
  match snd entry with Sleep ms => Some (setTimeout_delay ms) | _ => None end.

Definition wait_times (h : History) : list Z := omap wait_time h.

(** From the log [h0] on, the user has not approved the login: every poll
    is answered with "not yet" or "slow down". *)
Definition never_approved (env : Env) (h0 : History) : Prop :=
  forall h, h0 `prefix_of` h ->
    snd (net_pollDeviceToken env h) = PollPending
    \/ snd (net_pollDeviceToken env h) = PollNothing
    \/ snd (net_pollDeviceToken env h) = PollSlowDown.

(** The times at which requests were sent to the API. *)
Definition fetch_time (entry : Z * Event) : option Z :=
  match snd entry with FetchCall _ => Some (fst entry) | _ => None end.

Definition fetch_times (h : History) : list Z := omap fetch_time h.

(** * Scenarios: credentials, worlds and states used as examples *)

(** ** Credentials *)

(** Two sources with the same refresh token, the file's expiry being later. *)
Definition runtime_5 : QwenCredentials :=
  {| accessToken := "runtime-token"; tokenType := Some "Bearer";
     refreshToken := Some "A"; resourceUrl := None;
     expiryDate := Some 1700000005000; scope := None |}.

Definition file_7 : QwenCredentials :=
  {| accessToken := "file-token"; tokenType := Some "Bearer";
     refreshToken := Some "A"; resourceUrl := None;
     expiryDate := Some 1700000007000; scope := None |}.

(** A runtime credential that has no expiry, and file credentials whose
    expiry is 0 and -5. *)
Definition runtime_no_expiry : QwenCredentials :=
  {| accessToken := "RT"; tokenType := Some "Bearer";
     refreshToken := Some "RR"; resourceUrl := None;
     expiryDate := None; scope := None |}.

Definition file_expiry_zero : QwenCredentials :=
  {| accessToken := "FT"; tokenType := Some "Bearer";
     refreshToken := Some "FF"; resourceUrl := None;
     expiryDate := Some 0; scope := None |}.

Definition file_expiry_negative : QwenCredentials :=
  {| accessToken := "FT"; tokenType := Some "Bearer";
     refreshToken := Some "FF"; resourceUrl := None;
     expiryDate := Some (-5); scope := None |}.

(** A credential as the device flow hands it over, without token type. *)
Definition sample_credentials : QwenCredentials :=
  {| accessToken := "at-1"; tokenType := None; refreshToken := Some "rt-1";
     resourceUrl := Some "portal.qwen.ai"; expiryDate := Some 1700003600000;
     scope := Some "openid" |}.

(** What the token endpoint returns for the refresh token "good". *)
Definition renewed_credentials : QwenCredentials :=
  {| accessToken := "new-token"; tokenType := Some "Bearer";
     refreshToken := Some "good-2"; resourceUrl := None;
     expiryDate := Some 1700003600000; scope := None |}.

(** A credential file written by a tool that kept the refresh token only. *)
Definition refresh_only_file : StoredCredentialsFile :=
  {| access_token := None; token_type := Some "Bearer";
     refresh_token := Some "R"; resource_url := None;
     expiry_date := None; stored_scope := None |}.

(** A host session that holds a refresh token only. *)
Definition refresh_only_auth : RuntimeAuthState :=
  {| auth_type := "oauth"; access := None; refresh := Some "R"; expires := None |}.

(** A host session whose access token expired a thousand seconds before
    1700000000000 and whose refresh token the endpoint no longer takes. *)
Definition expired_auth : RuntimeAuthState :=
  {| auth_type := "oauth"; access := Some "old-token"; refresh := Some "stale";
     expires := Some 1699999000000 |}.

(** A credential file with the same expired access token and a refresh token
    that works. *)
Definition good_on_disk : StoredCredentialsFile :=
  {| access_token := Some "old-token"; token_type := Some "Bearer";
     refresh_token := Some "good"; resource_url := None;
     expiry_date := Some 1699999000000; stored_scope := None |}.

(** A credential file with an expired access token and no refresh token. *)
Definition expired_on_disk : StoredCredentialsFile :=
  {| access_token := Some "old-token"; token_type := Some "Bearer";
     refresh_token := None; resource_url := None;
     expiry_date := Some 1699999000000; stored_scope := None |}.

(** ** Responses *)

Definition unauthorized : Response := {| status := 401; retry_after := None; body := "" |}.

Definition completed : Response := {| status := 200; retry_after := None; body := "ok" |}.

Definition throttled (retryAfter : option string) : Response :=
  {| status := 429; retry_after := retryAfter; body := "" |}.

(** A Retry-After header given as a date. *)
Definition http_date : string := "Wed, 21 Oct 2015 07:28:00 GMT".

(** ** Worlds *)

(** A world that answers nothing: no host session, every network call
    fails at once, the disk accepts writes. *)
Definition silent_env : Env :=
  {| host_getAuth := fun _ => None;
     net_refreshAccessToken := fun _ _ => (0%N, None);
     fs_write_ok := fun _ => true;
     net_fetch := fun _ _ => (0%N, None);
     net_pollDeviceToken := fun _ => (0%N, PollError);
     math_random := fun _ => 0;
     process_platform := "linux";
     process_arch := "x64" |}.

(** The host holds [expired_auth]; the token endpoint rejects every refresh
    token but "good", for which it returns [renewed_credentials]. *)
Definition renewing_env : Env :=
  {| host_getAuth := fun _ => Some expired_auth;
     net_refreshAccessToken := fun _ token =>
       if String.eqb token "good" then (120%N, Some renewed_credentials) else (80%N, None);
     fs_write_ok := fun _ => true;
     net_fetch := fun _ _ => (0%N, None);
     net_pollDeviceToken := fun _ => (0%N, PollError);
     math_random := fun _ => 0;
     process_platform := "linux";
     process_arch := "x64" |}.

(** As [renewing_env], with an API that answers 401 to every token but
    "new-token". *)
Definition rejecting_env : Env :=
  {| host_getAuth := host_getAuth renewing_env;
     net_refreshAccessToken := net_refreshAccessToken renewing_env;
     fs_write_ok := fun _ => true;
     net_fetch := fun _ request =>
       if bool_decide (req_headers request !! "authorization" = Some "Bearer new-token")
       then (50%N, Some completed) else (50%N, Some unauthorized);
     net_pollDeviceToken := fun _ => (0%N, PollError);
     math_random := fun _ => 0;
     process_platform := "linux";
     process_arch := "x64" |}.

(** No host session; the token endpoint grants every refresh with a
    credential whose access token is empty; the API answers 401. *)
Definition blank_credentials : QwenCredentials :=
  {| accessToken := ""; tokenType := Some "Bearer";
     refreshToken := Some "good-2"; resourceUrl := None;
     expiryDate := Some 1700003600000; scope := None |}.

Definition blank_env : Env :=
  {| host_getAuth := fun _ => None;
     net_refreshAccessToken := fun _ _ => (120%N, Some blank_credentials);
     fs_write_ok := fun _ => true;
     net_fetch := fun _ _ => (50%N, Some unauthorized);
     net_pollDeviceToken := fun _ => (0%N, PollError);
     math_random := fun _ => 0;
     process_platform := "linux";
     process_arch := "x64" |}.

(** The API answers every call with 429 and the given Retry-After header. *)
Definition throttling_env (retryAfter : option string) : Env :=
  {| host_getAuth := fun _ => None;
     net_refreshAccessToken := fun _ _ => (0%N, None);
     fs_write_ok := fun _ => true;
     net_fetch := fun _ _ => (50%N, Some (throttled retryAfter));
     net_pollDeviceToken := fun _ => (0%N, PollError);
     math_random := fun _ => 0;
     process_platform := "linux";
     process_arch := "x64" |}.

(** The token endpoint answers the polls from [script], in order, at once. *)
Definition scripted_env (script : list PollOutcome) : Env :=
  {| host_getAuth := fun _ => None;
     net_refreshAccessToken := fun _ _ => (0%N, None);
     fs_write_ok := fun _ => true;
     net_fetch := fun _ _ => (0%N, None);
     net_pollDeviceToken := fun h => (0%N, nth (length (poll_times h)) script PollError);
     math_random := fun _ => 0;
     process_platform := "linux";
     process_arch := "x64" |}.

Definition three_pending_then_token : list PollOutcome :=
  [PollPending; PollPending; PollPending; PollToken sample_credentials].

(** The host holds an expired session with refresh token "a"; the token
    endpoint grants every refresh after 100 ms; the credential file cannot
    be written. *)
Definition two_token_auth : RuntimeAuthState :=
  {| auth_type := "oauth"; access := Some "old-token"; refresh := Some "a";
     expires := Some 1699999000000 |}.

Definition granted (token : string) : QwenCredentials :=
  {| accessToken := "new-" +:+ token; tokenType := Some "Bearer";
     refreshToken := Some token; resourceUrl := None;
     expiryDate := None; scope := None |}.

Definition unwritable_env : Env :=
  {| host_getAuth := fun _ => Some two_token_auth;
     net_refreshAccessToken := fun _ token => (100%N, Some (granted token));
     fs_write_ok := fun _ => false;
     net_fetch := fun _ _ => (0%N, None);
     net_pollDeviceToken := fun _ => (0%N, PollError);
     math_random := fun _ => 0;
     process_platform := "linux";
     process_arch := "x64" |}.

(** A credential file with the same expired access token and the refresh
    token "b". *)
Definition b_on_disk : StoredCredentialsFile :=
  {| access_token := Some "old-token"; token_type := Some "Bearer";
     refresh_token := Some "b"; resource_url := None;
     expiry_date := Some 1699999000000; stored_scope := None |}.

(** ** States and tasks *)

(** A process that has just started, at [now], with [content] on disk. *)
Definition fresh_state (now : Z) (content : FileContent) : State :=
  {| cachedToken := None; cachedTokenExpiry := 0; lastRefreshTime := 0;
     lastRequestTime := 0; disk := content; clock := now; trace := [] |}.

(** A process whose cache was filled one second ago with a token good for
    another hour, and a credential file on disk. *)
Definition warm_state : State :=
  {| cachedToken := Some "cached-token";
     cachedTokenExpiry := 1700003600000;
     lastRefreshTime := 1699999999000;
     lastRequestTime := 0;
     disk := FileJson (stored_of sample_credentials);
     clock := 1700000000000;
     trace := [] |}.

(** The process starts with, on disk, the refresh token that still works. *)
Definition stale_session : State := fresh_state 1700000000000 (FileJson good_on_disk).

(** The process starts with an expired token on disk and nothing to refresh
    it with. *)
Definition expired_session : State := fresh_state 1700000000000 (FileJson expired_on_disk).

(** The process starts with [b_on_disk]. *)
Definition two_token_session : State := fresh_state 1700000000000 (FileJson b_on_disk).



(** A process whose cache was filled one second ago with "old-token", good
    for another hour by the cache's reckoning, with [good_on_disk] on disk. *)
Definition warm_old_session : State :=
  {| cachedToken := Some "old-token";
     cachedTokenExpiry := 1700003600000;
     lastRefreshTime := 1699999999000;
     lastRequestTime := 0;
     disk := FileJson good_on_disk;
     clock := 1700000000000;
     trace := [] |}.

(** The headers of a request sent with "old-token". *)
Definition old_headers : gmap string string := buildHeaders rejecting_env ∅ "old-token".

(** A task that runs for [ms] milliseconds. *)
Definition busy (ms : Z) (st : State) : unit * State := (tt, tick ms st).

(** ** More scenarios *)

(** A credential read from a file that holds a refresh token and a late
    expiry but no access token. *)
Definition refresh_only_later : QwenCredentials :=
  {| accessToken := ""; tokenType := Some "Bearer";
     refreshToken := Some "R"; resourceUrl := None;
     expiryDate := Some 1700000009000; scope := None |}.

(** What [loadCredentials] makes of [refresh_only_file]. *)
Definition refresh_only_loaded : QwenCredentials :=
  {| accessToken := ""; tokenType := Some "Bearer";
     refreshToken := Some "R"; resourceUrl := None;
     expiryDate := None; scope := None |}.

(** The user never approves: the token endpoint answers, after 200 ms,
    "not yet" and "slow down" in turn. *)
Definition undecided_env : Env :=
  {| host_getAuth := fun _ => None;
     net_refreshAccessToken := fun _ _ => (0%N, None);
     fs_write_ok := fun _ => true;
     net_fetch := fun _ _ => (0%N, None);
     net_pollDeviceToken := fun h =>
       (200%N, if Nat.even (length (poll_times h)) then PollPending else PollSlowDown);
     math_random := fun _ => 0;
     process_platform := "linux";
     process_arch := "x64" |}.

(** A host session whose token expired and whose refresh token works. *)
Definition legacy_auth : RuntimeAuthState :=
  {| auth_type := "oauth"; access := Some "old-token"; refresh := Some "good";
     expires := Some 1699999000000 |}.

(** The host holds [legacy_auth]; the token endpoint is that of
    [renewing_env]. *)
Definition legacy_env : Env :=
  {| host_getAuth := fun _ => Some legacy_auth;
     net_refreshAccessToken := net_refreshAccessToken renewing_env;
     fs_write_ok := fun _ => true;
     net_fetch := fun _ _ => (0%N, None);
     net_pollDeviceToken := fun _ => (0%N, PollError);
     math_random := fun _ => 0;
     process_platform := "linux";
     process_arch := "x64" |}.

(** A host session whose access token has thirty seconds left at
    1700000000000 and whose refresh token the endpoint no longer takes. *)
Definition almost_expired_auth : RuntimeAuthState :=
  {| auth_type := "oauth"; access := Some "old-token"; refresh := Some "stale";
     expires := Some 1700000030000 |}.

Definition legacy_rejecting_env : Env :=
  {| host_getAuth := fun _ => Some almost_expired_auth;
     net_refreshAccessToken := fun _ _ => (80%N, None);
     fs_write_ok := fun _ => true;
     net_fetch := fun _ _ => (0%N, None);
     net_pollDeviceToken := fun _ => (0%N, PollError);
     math_random := fun _ => 0;
     process_platform := "linux";
     process_arch := "x64" |}.

(** A process with a cached token whose last request was dispatched 400 ms
    ago. *)
Definition throttled_session : State :=
  {| cachedToken := Some "cached-token";
     cachedTokenExpiry := 1700003600000;
     lastRefreshTime := 1699999999000;
     lastRequestTime := 1699999999600;
     disk := FileMissing;
     clock := 1700000000000;
     trace := [] |}.

(** * Properties *)

(** ** Reconciliation *)

Section IndexOf.
Context {A : Type} `{EqDecision A}.

Lemma indexOf_range (arr : list A) (x : A) :
  -1 <= Js.indexOf arr x < Z.of_nat (length arr).
Proof.
  induction arr as [|y rest IH]; cbn [Js.indexOf length]; [lia|].
  destruct (decide (y = x)); [lia|].
  destruct (Z.ltb_spec (Js.indexOf rest x) 0); lia.
Qed.

Lemma indexOf_app_fresh (before after : list A) (x : A) :
  x ∉ before ->
  Js.indexOf (before ++ x :: after) x = Z.of_nat (length before).
Proof.
  induction before as [|y rest IH]; intros Hfresh; cbn [Js.indexOf app length].
  - rewrite decide_True by reflexivity. reflexivity.
  - apply not_elem_of_cons in Hfresh as [Hne Hrest].
    rewrite decide_False by congruence.
    rewrite (IH Hrest).
    destruct (Z.ltb_spec (Z.of_nat (length rest)) 0); lia.
Qed.

Lemma indexOf_app_seen (before after : list A) (x : A) :
  x ∈ before ->
  Js.indexOf (before ++ after) x < Z.of_nat (length before).
Proof.
  induction before as [|y rest IH]; intros Hseen; cbn [Js.indexOf app length].
  - inversion Hseen.
  - destruct (decide (y = x)); [lia|].
    apply elem_of_cons in Hseen as [Heq | Hin]; [congruence|].
    specialize (IH Hin).
    destruct (Z.ltb_spec (Js.indexOf (rest ++ after) x) 0); lia.
Qed.
End IndexOf.

Lemma present_tokens_app (l1 l2 : list (option string)) :
  present_tokens (l1 ++ l2) = present_tokens l1 ++ present_tokens l2.
Proof. unfold present_tokens. apply omap_app. Qed.

Lemma elem_of_present_tokens (s : string) (l : list (option string)) :
  Js.truthy_str (Some s) = true -> (s ∈ present_tokens l <-> Some s ∈ l).
Proof.
  intros Hs. unfold present_tokens. rewrite list_elem_of_omap. split.
  - intros (o & Hin & Ho). destruct (Js.truthy_str o); [|discriminate]. congruence.
  - intros Hin. exists (Some s). rewrite Hs. auto.
Qed.

Lemma present_tokens_cons (x : option string) (l : list (option string)) :
  present_tokens (x :: l)
  = match x with
    | Some s => if Js.truthy_str x then s :: present_tokens l else present_tokens l
    | None => present_tokens l
    end.
Proof.
  unfold present_tokens. cbn [omap list_omap].
  destruct x as [s|]; [|reflexivity]. destruct (Js.truthy_str (Some s)); reflexivity.
Qed.

Lemma filter_indexed_dedup (before after : list (option string)) :
  omap id (Js.filter_from (first_truthy_occurrence (before ++ after))
                          (Z.of_nat (length before)) after)
  = filter (fun s => s ∉ present_tokens before) (dedup_first (present_tokens after)).
Proof.
  revert before. induction after as [|x rest IH]; intros before; [reflexivity|].
  cbn [Js.filter_from].
  specialize (IH (before ++ [x])).
  rewrite <- app_assoc, length_app, Nat2Z.inj_add, present_tokens_app in IH.
  cbn [app length] in IH. change (Z.of_nat 1) with 1 in IH.
  assert (Hfilter : forall (s : string) (D : list string),
    filter (fun s' => s' ∉ present_tokens before ++ [s]) D
    = filter (fun s' => s' ∉ present_tokens before) (filter (fun s' => s' <> s) D)).
  { intros s D. rewrite list_filter_filter. apply list_filter_iff. intros s'.
    rewrite elem_of_app, list_elem_of_singleton. tauto. }
  rewrite present_tokens_cons. rewrite (present_tokens_cons x []) in IH.
  unfold first_truthy_occurrence at 1.
  destruct x as [s|]; [destruct (Js.truthy_str (Some s)) eqn:Hs|].
  - cbn [dedup_first andb]. rewrite filter_cons.
    change (present_tokens []) with (@nil string) in IH.
    destruct (decide (Some s ∈ before)) as [Hin | Hout].
    + pose proof (indexOf_app_seen before (Some s :: rest) (Some s) Hin) as Hlt.
      destruct (Z.eqb_spec (Js.indexOf (before ++ Some s :: rest) (Some s))
                           (Z.of_nat (length before))); [lia|].
      rewrite decide_False
        by (intros Hn; apply Hn; apply elem_of_present_tokens; assumption).
      rewrite IH. apply Hfilter.
    + rewrite (indexOf_app_fresh before rest (Some s) Hout), Z.eqb_refl.
      rewrite decide_True
        by (intros Hn; apply Hout; apply (elem_of_present_tokens s before Hs); assumption).
      cbn [omap list_omap id]. rewrite IH. f_equal. apply Hfilter.
  - cbn [andb]. change (present_tokens []) with (@nil string) in IH.
    rewrite app_nil_r in IH. exact IH.
  - cbn [Js.truthy_str andb]. change (present_tokens []) with (@nil string) in IH.
    rewrite app_nil_r in IH. exact IH.
Qed.

Lemma refreshCandidates_dedup (arr : list (option string)) :
  omap id (Js.filter_indexed (first_truthy_occurrence arr) arr)
  = dedup_first (present_tokens arr).
Proof.
  pose proof (filter_indexed_dedup [] arr) as H. cbn [app length] in H.
  unfold Js.filter_indexed. change (Z.of_nat 0) with 0 in H. rewrite H. clear H.
  change (present_tokens []) with (@nil string).
  induction (dedup_first (present_tokens arr)) as [|s D IHD]; [reflexivity|].
  rewrite filter_cons_True by apply not_elem_of_nil. f_equal. exact IHD.
Qed.

(** [freshest] for any input: the file's credential when both are there and
    its score, the expiry date or 0, is strictly the higher; else runtime's
    when there; else the file's. *)
Lemma freshest_by_score (runtime file : option QwenCredentials) :
  freshest runtime file
  = match runtime, file with
    | Some r, Some f =>
        if getExpiryScore (Some r) <? getExpiryScore (Some f) then Some f else Some r
    | Some r, None => Some r
    | None, file => file
    end.
Proof.
  unfold freshest, credentialsByFreshness.
  destruct runtime as [r|], file as [f|]; try reflexivity.
  cbn [omap list_omap id Js.sort Js.sort_insert].
  destruct (Z.leb_spec (getExpiryScore (Some f) - getExpiryScore (Some r)) 0),
           (Z.ltb_spec (getExpiryScore (Some r)) (getExpiryScore (Some f)));
    try lia; reflexivity.
Qed.

Lemma freshest_is_freshest_source (runtime file : option QwenCredentials) :
  expiry_is_timestamp runtime -> expiry_is_timestamp file ->
  freshest runtime file = freshest_source runtime file.
Proof.
  intros Hr Hf. unfold freshest, credentialsByFreshness, freshest_source.
  destruct runtime as [r|], file as [f|]; try reflexivity.
  cbn [omap list_omap id Js.sort Js.sort_insert].
  unfold getExpiryScore. cbn [mbind option_bind].
  specialize (Hr r). specialize (Hf f).
  destruct (expiryDate r) as [er|], (expiryDate f) as [ef|];
    cbn [default from_option expiry_later]; unfold id.
  - destruct (Z.leb_spec (ef - er) 0), (Z.ltb_spec er ef); try lia; reflexivity.
  - specialize (Hr er eq_refl eq_refl).
    destruct (Z.leb_spec (0 - er) 0); [reflexivity | lia].
  - specialize (Hf ef eq_refl eq_refl).
    destruct (Z.leb_spec (ef - 0) 0); [lia | reflexivity].
  - reflexivity.
Qed.

Lemma elem_of_dedup_first (s : string) (tokens : list string) :
  s ∈ dedup_first tokens <-> s ∈ tokens.
Proof.
  induction tokens as [|t rest IH]; [reflexivity|].
  cbn [dedup_first]. rewrite !elem_of_cons, list_elem_of_filter, IH.
  destruct (decide (s = t)); tauto.
Qed.

Lemma NoDup_dedup_first (tokens : list string) : NoDup (dedup_first tokens).
Proof.
  induction tokens as [|t rest IH]; cbn [dedup_first]; constructor.
  - rewrite list_elem_of_filter. tauto.
  - apply NoDup_filter, IH.
Qed.

Lemma or_str_chain (a b c : option string) :
  Js.or_str (Js.or_str (Js.or_str a b) c) None = head (present_tokens [a; b; c]).
Proof.
  unfold Js.or_str, present_tokens. cbn [omap list_omap].
  destruct (Js.truthy_str a) eqn:Ha.
  - rewrite Ha, Ha. destruct a; [reflexivity | discriminate].
  - destruct (Js.truthy_str b) eqn:Hb.
    + rewrite Hb. destruct a, b; try discriminate; reflexivity.
    + destruct (Js.truthy_str c) eqn:Hc.
      * destruct a, b, c; try discriminate; reflexivity.
      * destruct a, b, c; reflexivity.
Qed.

Lemma freshest_is_freshest_scored (runtime file : option QwenCredentials) :
  freshest runtime file = freshest_scored runtime file.
Proof. rewrite freshest_by_score. reflexivity. Qed.

(** C1, as stated, fails where an expiry is not a positive timestamp: the
    claim ranks an absent expiry below every present one, so with a runtime
    credential that has no expiry and a file credential whose expiry is 0 (or
    -5) its source is the file; the code scores the absent expiry as 0, keeps
    runtime first, and returns runtime's token and the candidates in the
    order runtime, file. *)
Lemma C1_absent_expiry_is_scored_zero :
  freshest_source (Some runtime_no_expiry) (Some file_expiry_zero) = Some file_expiry_zero
  /\ merged_accessToken (mergeCredentialSources (Some runtime_no_expiry)
                          (Some file_expiry_zero)) = Some "RT"
  /\ refreshCandidates (mergeCredentialSources (Some runtime_no_expiry)
                          (Some file_expiry_zero)) = ["RR"; "FF"]
  /\ freshest_source (Some runtime_no_expiry) (Some file_expiry_negative)
     = Some file_expiry_negative
  /\ merged_accessToken (mergeCredentialSources (Some runtime_no_expiry)
                          (Some file_expiry_negative)) = Some "RT"
  /\ refreshCandidates (mergeCredentialSources (Some runtime_no_expiry)
                          (Some file_expiry_negative)) = ["RR"; "FF"].
Proof. repeat split; reflexivity. Qed.

(** C1. For every pair of inputs, [mergeCredentialSources] takes its access
    token from the source with the larger expiry score, the score being the
    expiry date, or 0 for a credential without one (ties going to runtime,
    then file), falling back to runtime's and then file's token when that
    source has none; its refresh candidates are [freshest; file; runtime]
    filtered for presence and de-duplicated with the first occurrence kept;
    when both sources carry the refresh token "A" the list is ["A"].  For
    expiry dates that are timestamps the source is the one with the later
    expiry, an absent expiry ranking lowest. *)
Theorem C1_merge_picks_freshest_and_dedups (runtime file : option QwenCredentials) :
  let merged := mergeCredentialSources runtime file in
  let source := freshest_scored runtime file in
  merged_accessToken merged
    = head (present_tokens [accessToken <$> source; accessToken <$> runtime;
                            accessToken <$> file])
  /\ refreshCandidates merged
    = dedup_first (present_tokens [source ≫= refreshToken; file ≫= refreshToken;
                                   runtime ≫= refreshToken])
  /\ (runtime ≫= refreshToken = Some "A" -> file ≫= refreshToken = Some "A" ->
      refreshCandidates merged = ["A"])
  /\ (expiry_is_timestamp runtime -> expiry_is_timestamp file ->
      source = freshest_source runtime file).
Proof.
  intros merged source.
  assert (Hsource : freshest runtime file = source) by apply freshest_is_freshest_scored.
  assert (Hcandidates : refreshCandidates merged
    = dedup_first (present_tokens [source ≫= refreshToken; file ≫= refreshToken;
                                   runtime ≫= refreshToken])).
  { subst merged. unfold mergeCredentialSources. cbn [refreshCandidates].
    rewrite Hsource. apply refreshCandidates_dedup. }
  repeat split.
  - subst merged. unfold mergeCredentialSources. cbn [merged_accessToken].
    rewrite Hsource. apply or_str_chain.
  - exact Hcandidates.
  - intros HrA HfA. rewrite Hcandidates, HrA, HfA.
    assert (HsA : source ≫= refreshToken = Some "A").
    { subst source. unfold freshest_scored.
      destruct runtime as [r|], file as [f|]; try discriminate.
      destruct (_ <? _); assumption. }
    rewrite HsA. reflexivity.
  - intros Hr Hf. rewrite <- Hsource. apply freshest_is_freshest_source; assumption.
Qed.

Lemma C1_merge_witness :
  merged_accessToken (mergeCredentialSources (Some runtime_5) (Some file_7))
    = Some "file-token"
  /\ refreshCandidates (mergeCredentialSources (Some runtime_5) (Some file_7)) = ["A"].
Proof.
  destruct (C1_merge_picks_freshest_and_dedups (Some runtime_5) (Some file_7))
    as (Htoken & _ & HA & _).
  split; [exact Htoken | apply HA; reflexivity].
Defined.

(** ** The credential store *)

Lemma truthy_str_Some (s : string) : Js.truthy_str (Some s) = true <-> s <> "".
Proof.
  cbn [Js.truthy_str]. destruct (String.eqb_spec s ""); cbn [negb]; split; congruence.
Qed.

Lemma str_or_truthy (a : option string) (d : string) :
  Js.truthy_str a = true -> Some (Js.str_or a d) = a.
Proof.
  destruct a as [s|]; cbn [Js.truthy_str Js.str_or]; [|discriminate].
  destruct (String.eqb s ""); [discriminate | reflexivity].
Qed.

Lemma str_or_falsy (a : option string) (d : string) :
  Js.truthy_str a = false -> Js.str_or a d = d.
Proof.
  destruct a as [s|]; cbn [Js.truthy_str Js.str_or]; [|reflexivity].
  destruct (String.eqb s ""); [reflexivity | discriminate].
Qed.

(** C9, as stated, fails: a source that holds a refresh token only yields a
    credential whose access token is the empty string. *)
Lemma C9_refresh_only_has_empty_access_token :
  (exists c, fst (loadCredentials (fresh_state 1700000000000 (FileJson refresh_only_file)))
             = Some c /\ accessToken c = "")
  /\ (exists c, runtimeAuthToCredentials (Some refresh_only_auth) = Some c
                /\ accessToken c = "").
Proof. split; eexists; split; reflexivity. Qed.

(** C9, amended. Every credential returned by [loadCredentials] or by
    [runtimeAuthToCredentials] carries a non-empty access token or a
    non-empty refresh token; its access token is the source's when that is
    non-empty and the empty string otherwise. *)
Theorem C9_returned_credential_carries_a_token :
  (forall st c, fst (loadCredentials st) = Some c ->
     (accessToken c <> "" \/ Js.truthy_str (refreshToken c) = true)
     /\ exists parsed, disk st = FileJson parsed
        /\ accessToken c = Js.str_or (access_token parsed) "")
  /\ (forall auth c, runtimeAuthToCredentials auth = Some c ->
     (accessToken c <> "" \/ Js.truthy_str (refreshToken c) = true)
     /\ exists a, auth = Some a /\ accessToken c = Js.str_or (access a) "").
Proof.
  split.
  - intros st c. unfold loadCredentials.
    destruct (disk st) as [| |parsed]; cbn [fst]; try discriminate.
    unfold credentials_of.
    destruct (Js.truthy_str (access_token parsed)) eqn:Ha;
      destruct (Js.truthy_str (refresh_token parsed)) eqn:Hr;
      cbn [negb andb]; try discriminate; intros [= <-]; cbn [accessToken refreshToken];
      (split; [|exists parsed; split; reflexivity]).
    + left. apply truthy_str_Some. rewrite str_or_truthy; assumption.
    + left. apply truthy_str_Some. rewrite str_or_truthy; assumption.
    + right. assumption.
  - intros auth c. unfold runtimeAuthToCredentials.
    destruct auth as [a|]; [|discriminate].
    destruct (negb (String.eqb (auth_type a) "oauth")); [discriminate|].
    destruct (Js.truthy_str (access a)) eqn:Ha;
      destruct (Js.truthy_str (refresh a)) eqn:Hr;
      cbn [negb andb]; try discriminate; intros [= <-]; cbn [accessToken refreshToken];
      (split; [|exists a; split; reflexivity]).
    + left. apply truthy_str_Some. rewrite str_or_truthy; assumption.
    + left. apply truthy_str_Some. rewrite str_or_truthy; assumption.
    + right. assumption.
Qed.

Lemma C9_returned_credential_witness :
  exists c,
    fst (loadCredentials stale_session) = Some c
    /\ (accessToken c <> "" \/ Js.truthy_str (refreshToken c) = true).
Proof.
  eexists. split; [reflexivity|].
  destruct C9_returned_credential_carries_a_token as [Hload _].
  apply (Hload stale_session). reflexivity.
Defined.

(** C10. Saving a credential whose access token is not empty and loading it
    back returns a credential with the same access token, refresh token,
    resource URL, expiry date and scope, and with the saved token type, or
    "Bearer" when that was absent or empty. *)
Theorem C10_save_then_load_round_trip (env : Env) (credentials : QwenCredentials)
    (st st' : State) :
  accessToken credentials <> "" ->
  saveCredentials env credentials st = (true, st') ->
  exists loaded,
    fst (loadCredentials st') = Some loaded
    /\ accessToken loaded = accessToken credentials
    /\ refreshToken loaded = refreshToken credentials
    /\ resourceUrl loaded = resourceUrl credentials
    /\ expiryDate loaded = expiryDate credentials
    /\ scope loaded = scope credentials
    /\ tokenType loaded
       = Some (match tokenType credentials with
               | Some t => if decide (t = "") then "Bearer" else t
               | None => "Bearer"
               end).
Proof.
  intros Htoken Hsave. unfold saveCredentials in Hsave.
  destruct (fs_write_ok env (trace st)); [|discriminate].
  injection Hsave as <-.
  unfold loadCredentials. cbn [disk set_disk log fst].
  unfold credentials_of, stored_of. cbn [access_token refresh_token].
  apply truthy_str_Some in Htoken. rewrite Htoken. cbn [negb andb].
  eexists. split; [reflexivity|].
  cbn [accessToken refreshToken resourceUrl expiryDate scope tokenType
       access_token token_type refresh_token resource_url expiry_date stored_scope].
  repeat split.
  - pose proof (str_or_truthy _ "" Htoken) as Heq. injection Heq as Heq. exact Heq.
  - f_equal. destruct (tokenType credentials) as [t|]; cbn [Js.str_or].
    + destruct (String.eqb_spec t "") as [->|Hne].
      * reflexivity.
      * rewrite decide_False by assumption.
        destruct (String.eqb_spec t ""); [contradiction | reflexivity].
    + reflexivity.
Qed.

Lemma C10_round_trip_witness :
  exists loaded,
    fst (loadCredentials
           (snd (saveCredentials silent_env sample_credentials
                   (fresh_state 1700000000000 FileMissing)))) = Some loaded
    /\ accessToken loaded = "at-1"
    /\ tokenType loaded = Some "Bearer".
Proof.
  destruct (C10_save_then_load_round_trip silent_env sample_credentials
              (fresh_state 1700000000000 FileMissing)
              (snd (saveCredentials silent_env sample_credentials
                      (fresh_state 1700000000000 FileMissing))))
    as (loaded & Hload & Hat & _ & _ & _ & _ & Htt).
  - cbn [accessToken sample_credentials]. discriminate.
  - reflexivity.
  - exists loaded. repeat split; assumption.
Defined.

(** ** Token resolution: the state it reads, the candidate loop *)

Lemma events_since_app (st st' : State) (evs : History) :
  trace st' = trace st ++ evs -> events_since st st' = evs.
Proof. intros H. unfold events_since. rewrite H. apply drop_app_length. Qed.

Lemma refresh_calls_app (h1 h2 : History) :
  refresh_calls (h1 ++ h2) = refresh_calls h1 ++ refresh_calls h2.
Proof. unfold refresh_calls. rewrite fmap_app. apply omap_app. Qed.

Lemma fetch_calls_app (h1 h2 : History) :
  fetch_calls (h1 ++ h2) = fetch_calls h1 ++ fetch_calls h2.
Proof. unfold fetch_calls. rewrite fmap_app. apply omap_app. Qed.

Lemma refresh_call_RefreshCall (tokens : list string) :
  omap refresh_call (RefreshCall <$> tokens) = tokens.
Proof. induction tokens as [|t l IH]; [reflexivity|]. cbn. f_equal. exact IH. Qed.

Lemma getValidAccessToken_unfold (env : Env) (st : State) :
  getValidAccessToken env st
  = let merged := fst (reconcile env st) in
    let st2 := snd (reconcile env st) in
    let now := clock st2 in
    if cacheIsFresh now st2 then (cachedToken st2, st2)
    else if shouldRefresh now merged
    then match refreshLoop env (refreshCandidates merged)
                 (merged_accessToken merged) (merged_expiryDate merged) st2 with
         | (Returned token, st3) => (Some token, st3)
         | (Exhausted token tokenExpiry, st3) => settleToken now token tokenExpiry st3
         end
    else settleToken now (merged_accessToken merged) (merged_expiryDate merged) st2.
Proof.
  unfold getValidAccessToken, reconcile.
  destruct (getAuth env st) as [auth st1].
  destruct (loadCredentials st1) as [fileCredentials st2]. reflexivity.
Qed.

(** What [reconcile] leaves behind: only log entries, for the host call and
    for looking at the credential file. *)
Lemma reconcile_state (env : Env) (st : State) :
  let st2 := snd (reconcile env st) in
  same_cache st st2
  /\ lastRequestTime st2 = lastRequestTime st
  /\ disk st2 = disk st
  /\ clock st2 = clock st
  /\ trace st2 = trace st
       ++ (clock st, GetAuth) :: (clock st, ExistsSync)
          :: match disk st with
             | FileMissing => []
             | _ => [(clock st, ReadFileSync)]
             end.
Proof.
  unfold reconcile, getAuth, loadCredentials, same_cache.
  cbn [disk log]. destruct (disk st) eqn:Hdisk; cbn; rewrite <- ?app_assoc, ?Hdisk;
    repeat split; reflexivity.
Qed.

Lemma cacheIsFresh_same (now : Z) (a b : State) :
  same_cache a b -> cacheIsFresh now b = cacheIsFresh now a.
Proof. intros (H1 & H2 & H3). unfold cacheIsFresh. rewrite H1, H2, H3. reflexivity. Qed.

Lemma merged_accessToken_truthy (runtime file : option QwenCredentials) (t : string) :
  merged_accessToken (mergeCredentialSources runtime file) = Some t ->
  Js.truthy_str (Some t) = true.
Proof.
  unfold mergeCredentialSources. cbn [merged_accessToken]. unfold Js.or_str.
  repeat match goal with
         | |- context [if Js.truthy_str ?x then _ else _] =>
             let H := fresh "H" in destruct (Js.truthy_str x) eqn:H
         end; intros Heq; try congruence.
Qed.

Lemma shouldRefresh_iff (now : Z) (runtime file : option QwenCredentials) :
  0 <= now ->
  let merged := mergeCredentialSources runtime file in
  shouldRefresh now merged = true <-> refresh_due now merged.
Proof.
  intros Hnow merged. unfold shouldRefresh, refresh_due.
  pose proof (merged_accessToken_truthy runtime file) as Htruthy. fold merged in Htruthy.
  rewrite andb_true_iff, !orb_true_iff, !negb_true_iff, Z.ltb_lt.
  assert (Hlen : 0 < Z.of_nat (length (refreshCandidates merged))
                 <-> refreshCandidates merged <> []).
  { destruct (refreshCandidates merged); cbn [length]; split; try lia; congruence. }
  rewrite Hlen. unfold REFRESH_BEFORE_EXPIRY_MS.
  destruct (merged_accessToken merged) as [t|] eqn:Ht.
  - rewrite (Htruthy t eq_refl).
    destruct (merged_expiryDate merged) as [e|] eqn:He; cbn [Js.truthy_num].
    + rewrite Z.ltb_lt. split; intros [Hc Hd]; (split; [exact Hc|]).
      * right. right. exists e. split; [reflexivity|].
        destruct Hd as [[Hd | Hd] | Hd]; [discriminate| |lia].
        apply negb_false_iff, Z.eqb_eq in Hd. lia.
      * destruct Hd as [Hd | [Hd | (e' & [= <-] & Hd)]]; try discriminate.
        right. lia.
    + split; intros [Hc Hd]; (split; [exact Hc|]); tauto.
  - cbn [Js.truthy_str]. split; intros [Hc Hd]; (split; [exact Hc|]); tauto.
Qed.

Section RefreshLoop.
Variable env : Env.

Lemma refreshAccessToken_state (token : string) (st : State) :
  let st1 := snd (refreshAccessToken env token st) in
  fst (refreshAccessToken env token st) = snd (net_refreshAccessToken env (trace st) token)
  /\ same_cache st st1
  /\ lastRequestTime st1 = lastRequestTime st
  /\ disk st1 = disk st
  /\ clock st <= clock st1
  /\ trace st1 = trace st ++ [(clock st, RefreshCall token)].
Proof.
  unfold refreshAccessToken, same_cache.
  destruct (net_refreshAccessToken env (trace st) token) as [duration outcome].
  cbn. repeat split; lia.
Qed.

(** Whatever the outcomes, the loop logs its first candidate first. *)
Lemma refreshLoop_head (candidates : list string) (token : option string)
    (tokenExpiry : option Z) (st : State) :
  exists evs,
    trace (snd (refreshLoop env candidates token tokenExpiry st)) = trace st ++ evs
    /\ head (refresh_calls evs) = head candidates.
Proof.
  revert token tokenExpiry st.
  induction candidates as [|c rest IH]; intros token tokenExpiry st.
  - exists []. cbn. rewrite app_nil_r. split; reflexivity.
  - cbn [refreshLoop].
    pose proof (refreshAccessToken_state c st) as (_ & _ & _ & _ & _ & Htrace).
    destruct (refreshAccessToken env c st) as [[refreshed|] st1]; cbn [snd] in Htrace.
    + unfold saveCredentials. destruct (fs_write_ok env (trace st1)).
      * eexists. cbn [snd set_cache set_disk log trace]. rewrite Htrace, <- app_assoc.
        split; reflexivity.
      * destruct (IH (Some (accessToken refreshed))
                     (Some (Js.num_or (expiryDate refreshed) (clock st1 + 3600000)))
                     (log WriteFailed st1)) as (evs & Hevs & _).
        eexists. rewrite Hevs. cbn [log trace]. rewrite Htrace, <- !app_assoc.
        split; reflexivity.
    + destruct (IH token tokenExpiry st1) as (evs & Hevs & _).
      eexists. rewrite Hevs, Htrace, <- app_assoc. split; reflexivity.
Qed.

(** Whatever the outcomes, the tokens sent to the endpoint are an initial
    segment of the candidate list, in its order. *)
Lemma refreshLoop_calls_prefix (candidates : list string) (token : option string)
    (tokenExpiry : option Z) (st : State) :
  exists evs,
    trace (snd (refreshLoop env candidates token tokenExpiry st)) = trace st ++ evs
    /\ refresh_calls evs `prefix_of` candidates.
Proof.
  revert token tokenExpiry st.
  induction candidates as [|c rest IH]; intros token tokenExpiry st.
  - exists []. cbn. rewrite app_nil_r. split; reflexivity.
  - cbn [refreshLoop].
    pose proof (refreshAccessToken_state c st) as (_ & _ & _ & _ & _ & Htrace).
    destruct (refreshAccessToken env c st) as [[refreshed|] st1]; cbn [snd] in Htrace.
    + unfold saveCredentials. destruct (fs_write_ok env (trace st1)).
      * eexists. cbn [snd set_cache set_disk log trace]. rewrite Htrace, <- app_assoc.
        split; [reflexivity|]. cbn. apply prefix_cons, prefix_nil.
      * destruct (IH (Some (accessToken refreshed))
                     (Some (Js.num_or (expiryDate refreshed) (clock st1 + 3600000)))
                     (log WriteFailed st1)) as (evs & Hevs & Hprefix).
        eexists. rewrite Hevs. cbn [log trace]. rewrite Htrace, <- !app_assoc.
        split; [reflexivity|]. cbn. apply prefix_cons, Hprefix.
    + destruct (IH token tokenExpiry st1) as (evs & Hevs & Hprefix).
      eexists. rewrite Hevs, Htrace, <- app_assoc. split; [reflexivity|].
      cbn. apply prefix_cons, Hprefix.
Qed.

(** Every candidate throws: all are tried, in order, and the loop ends with
    the locals and the cache as they were. *)
Lemma refreshLoop_all_fail (candidates : list string) (token : option string)
    (tokenExpiry : option Z) (st : State) :
  (forall c, c ∈ candidates -> refresh_fails env (trace st) c) ->
  exists st',
    refreshLoop env candidates token tokenExpiry st = (Exhausted token tokenExpiry, st')
    /\ same_cache st st'
    /\ lastRequestTime st' = lastRequestTime st
    /\ disk st' = disk st
    /\ clock st <= clock st'
    /\ exists evs, trace st' = trace st ++ evs
                   /\ snd <$> evs = RefreshCall <$> candidates.
Proof.
  revert st. induction candidates as [|c rest IH]; intros st Hfail.
  - exists st. cbn. unfold same_cache. repeat split; try lia.
    exists []. rewrite app_nil_r. split; reflexivity.
  - cbn [refreshLoop].
    pose proof (refreshAccessToken_state c st) as (Hout & Hcache & Hlast & Hdisk & Hclock & Htrace).
    rewrite (Hfail c (list_elem_of_here _ _) (trace st) (reflexivity _)) in Hout.
    destruct (refreshAccessToken env c st) as [outcome st1]; cbn [fst snd] in *. subst outcome.
    destruct (IH st1) as (st' & Hloop & Hcache' & Hlast' & Hdisk' & Hclock' & evs & Htrace' & Hevs).
    { intros c' Hin h Hprefix. apply (Hfail c' (list_elem_of_further _ _ _ Hin)).
      etransitivity; [|exact Hprefix]. rewrite Htrace. apply prefix_app_r. reflexivity. }
    exists st'. split; [exact Hloop|].
    destruct Hcache as (? & ? & ?), Hcache' as (? & ? & ?). unfold same_cache.
    repeat split; try congruence; try lia.
    eexists. rewrite Htrace', Htrace, <- app_assoc. split; [reflexivity|].
    cbn. rewrite Hevs. reflexivity.
Qed.

(** Candidates before the first one that succeeds are tried in order; the
    success is persisted and cached and ends the loop. *)
Lemma refreshLoop_first_success (failed : list string) (good : string)
    (rest : list string) (refreshed : QwenCredentials) (token : option string)
    (tokenExpiry : option Z) (st : State) :
  (forall c, c ∈ failed -> refresh_fails env (trace st) c) ->
  refresh_succeeds env (trace st) good refreshed ->
  disk_writable env (trace st) ->
  exists st',
    refreshLoop env (failed ++ good :: rest) token tokenExpiry st
      = (Returned (accessToken refreshed), st')
    /\ cachedToken st' = Some (accessToken refreshed)
    /\ cachedTokenExpiry st' = Js.num_or (expiryDate refreshed) (clock st' + 3600000)
    /\ lastRefreshTime st' = clock st'
    /\ disk st' = FileJson (stored_of refreshed)
    /\ exists evs, trace st' = trace st ++ evs
         /\ snd <$> evs = (RefreshCall <$> failed)
                          ++ [RefreshCall good; WriteFileSync (stored_of refreshed)].
Proof.
  revert st. induction failed as [|c failed IH]; intros st Hfail Hgood Hwrite.
  - cbn [app refreshLoop].
    pose proof (refreshAccessToken_state good st) as (Hout & _ & _ & _ & _ & Htrace).
    rewrite (Hgood (trace st) (reflexivity _)) in Hout.
    destruct (refreshAccessToken env good st) as [outcome st1]; cbn [fst snd] in *.
    subst outcome. unfold saveCredentials.
    rewrite (Hwrite (trace st1)) by (rewrite Htrace; apply prefix_app_r; reflexivity).
    eexists. split; [reflexivity|].
    cbn [cachedToken cachedTokenExpiry lastRefreshTime disk clock trace
         set_cache set_disk log].
    repeat split. eexists. rewrite Htrace, <- app_assoc. split; reflexivity.
  - cbn [app refreshLoop].
    pose proof (refreshAccessToken_state c st) as (Hout & _ & _ & _ & _ & Htrace).
    rewrite (Hfail c (list_elem_of_here _ _) (trace st) (reflexivity _)) in Hout.
    destruct (refreshAccessToken env c st) as [outcome st1]; cbn [fst snd] in *.
    subst outcome.
    assert (Hprefix : trace st `prefix_of` trace st1)
      by (rewrite Htrace; apply prefix_app_r; reflexivity).
    destruct (IH st1) as (st' & Hloop & Hc & He & Hl & Hd & evs & Htrace' & Hevs).
    { intros c' Hin h Hp. apply (Hfail c' (list_elem_of_further _ _ _ Hin)).
      etransitivity; eassumption. }
    { intros h Hp. apply Hgood. etransitivity; eassumption. }
    { intros h Hp. apply Hwrite. etransitivity; eassumption. }
    exists st'. repeat split; try assumption.
    eexists. rewrite Htrace', Htrace, <- app_assoc. split; [reflexivity|].
    cbn. rewrite Hevs. reflexivity.
Qed.
(** While the credential file cannot be written no candidate ends the loop:
    every candidate is tried, and the loop is left with the token and expiry
    of the last credential the endpoint returned. *)
Lemma refreshLoop_unwritable (candidates : list string) :
  forall (token : option string) (tokenExpiry : option Z) (st : State),
    disk_unwritable env (trace st) ->
    exists token' tokenExpiry' st' evs,
      refreshLoop env candidates token tokenExpiry st = (Exhausted token' tokenExpiry', st')
      /\ same_cache st st'
      /\ lastRequestTime st' = lastRequestTime st
      /\ disk st' = disk st
      /\ clock st <= clock st'
      /\ trace st' = trace st ++ evs
      /\ refresh_calls evs = candidates
      /\ (forall before last after refreshed,
            candidates = before ++ last :: after ->
            refresh_succeeds env (trace st) last refreshed ->
            (forall c, c ∈ after -> refresh_fails env (trace st) c) ->
            exists t evs1 evs2,
              evs = evs1 ++ (t, WriteFailed) :: evs2
              /\ snd <$> evs2 = RefreshCall <$> after
              /\ token' = Some (accessToken refreshed)
              /\ tokenExpiry' = Some (Js.num_or (expiryDate refreshed) (t + 3600000))).
Proof.
  induction candidates as [|c rest IH]; intros token tokenExpiry st Hunw.
  - exists token, tokenExpiry, st, []. cbn [refreshLoop]. rewrite app_nil_r.
    unfold same_cache. repeat split; try lia.
    intros before last after refreshed Heq. destruct before; discriminate.
  - cbn [refreshLoop].
    pose proof (refreshAccessToken_state c st)
      as (Hout & Hcache & Hlast & Hdisk & Hclock & Htrace).
    destruct (refreshAccessToken env c st) as [[refreshed0|] st1]; cbn [fst snd] in *.
    + unfold saveCredentials.
      rewrite (Hunw (trace st1)) by (rewrite Htrace; apply prefix_app_r; reflexivity).
      set (st2 := log WriteFailed st1).
      assert (Htrace2 : trace st2
                        = trace st ++ [(clock st, RefreshCall c); (clock st1, WriteFailed)]).
      { subst st2. cbn [log trace]. rewrite Htrace, <- app_assoc. reflexivity. }
      assert (Hprefix2 : trace st `prefix_of` trace st2).
      { rewrite Htrace2. apply prefix_app_r. reflexivity. }
      destruct (IH (Some (accessToken refreshed0))
                   (Some (Js.num_or (expiryDate refreshed0) (clock st1 + 3600000))) st2)
        as (token' & tokenExpiry' & st' & evs & Hloop & Hc & Hl & Hd & Hk & Ht & Hcalls & Hdec).
      { intros h Hp. apply Hunw. etransitivity; eassumption. }
      assert (Hc2 : same_cache st1 st2) by (unfold same_cache; auto).
      assert (Hl2 : lastRequestTime st2 = lastRequestTime st1) by reflexivity.
      assert (Hd2 : disk st2 = disk st1) by reflexivity.
      assert (Hk2 : clock st2 = clock st1) by reflexivity.
      exists token', tokenExpiry', st',
        ([(clock st, RefreshCall c); (clock st1, WriteFailed)] ++ evs).
      split; [exact Hloop|].
      split; [destruct Hcache as (? & ? & ?), Hc as (? & ? & ?), Hc2 as (? & ? & ?);
              unfold same_cache; repeat split; congruence|].
      split; [congruence|].
      split; [congruence|].
      split; [lia|].
      split; [rewrite Ht, Htrace2, <- app_assoc; reflexivity|].
      split; [rewrite refresh_calls_app, Hcalls; reflexivity|].
      intros before last after refreshed Heq Hgood Hfail.
      destruct before as [|b before]; cbn [app] in Heq; injection Heq as <- ->.
      * rewrite (Hgood (trace st) (reflexivity _)) in Hout. injection Hout as ->.
        destruct (refreshLoop_all_fail after (Some (accessToken refreshed))
                    (Some (Js.num_or (expiryDate refreshed) (clock st1 + 3600000))) st2)
          as (st'' & Hloop' & _ & _ & _ & _ & evs' & Ht' & Hkinds).
        { intros c' Hin h Hp. apply (Hfail c' Hin). etransitivity; eassumption. }
        rewrite Hloop' in Hloop. injection Hloop as <- <- <-.
        rewrite Ht in Ht'. apply app_inv_head in Ht'. subst evs'.
        exists (clock st1), [(clock st, RefreshCall c)], evs.
        repeat split; [exact Hkinds].
      * destruct (Hdec before last after refreshed eq_refl)
          as (t & evs1 & evs2 & Hevs & Hkinds & Htok & Hexp).
        { intros h Hp. apply Hgood. etransitivity; eassumption. }
        { intros c' Hin h Hp. apply (Hfail c' Hin). etransitivity; eassumption. }
        exists t, ([(clock st, RefreshCall c); (clock st1, WriteFailed)] ++ evs1), evs2.
        rewrite Hevs, <- app_assoc. auto.
    + assert (Hprefix1 : trace st `prefix_of` trace st1).
      { rewrite Htrace. apply prefix_app_r. reflexivity. }
      destruct (IH token tokenExpiry st1)
        as (token' & tokenExpiry' & st' & evs & Hloop & Hc & Hl & Hd & Hk & Ht & Hcalls & Hdec).
      { intros h Hp. apply Hunw. etransitivity; eassumption. }
      exists token', tokenExpiry', st', ([(clock st, RefreshCall c)] ++ evs).
      split; [exact Hloop|].
      split; [destruct Hcache as (? & ? & ?), Hc as (? & ? & ?); unfold same_cache;
              repeat split; congruence|].
      split; [congruence|]. split; [congruence|]. split; [lia|].
      split; [rewrite Ht, Htrace, <- app_assoc; reflexivity|].
      split; [rewrite refresh_calls_app, Hcalls; reflexivity|].
      intros before last after refreshed Heq Hgood Hfail.
      destruct before as [|b before]; cbn [app] in Heq; injection Heq as <- ->.
      * rewrite (Hgood (trace st) (reflexivity _)) in Hout. discriminate.
      * destruct (Hdec before last after refreshed eq_refl)
          as (t & evs1 & evs2 & Hevs & Hkinds & Htok & Hexp).
        { intros h Hp. apply Hgood. etransitivity; eassumption. }
        { intros c' Hin h Hp. apply (Hfail c' Hin). etransitivity; eassumption. }
        exists t, ([(clock st, RefreshCall c)] ++ evs1), evs2.
        rewrite Hevs, <- app_assoc. auto.
Qed.

End RefreshLoop.

(** ** Token resolution: refresh, expiry, cache hit *)

Lemma settleToken_trace (now : Z) (token : option string) (tokenExpiry : option Z)
    (st : State) :
  trace (snd (settleToken now token tokenExpiry st)) = trace st
  /\ disk (snd (settleToken now token tokenExpiry st)) = disk st
  /\ clock (snd (settleToken now token tokenExpiry st)) = clock st
  /\ lastRequestTime (snd (settleToken now token tokenExpiry st)) = lastRequestTime st.
Proof.
  unfold settleToken.
  destruct (Js.truthy_str token && Js.truthy_num tokenExpiry
            && match tokenExpiry with Some e => e <? now | None => false end);
    [|destruct (Js.truthy_str token)]; repeat split; reflexivity.
Qed.

Lemma reconcile_merged (env : Env) (st : State) :
  exists runtime file, fst (reconcile env st) = mergeCredentialSources runtime file.
Proof.
  unfold reconcile. destruct (getAuth env st) as [auth st1].
  destruct (loadCredentials st1) as [file st2]. eauto.
Qed.

Lemma reconcile_no_refresh (env : Env) (st : State) :
  exists evs, trace (snd (reconcile env st)) = trace st ++ evs /\ refresh_calls evs = [].
Proof.
  pose proof (reconcile_state env st) as (_ & _ & _ & _ & Htrace).
  eexists. split; [exact Htrace|]. destruct (disk st); reflexivity.
Qed.

(** C2, as stated, fails when the credential file cannot be written: the
    first refresh the token endpoint grants is then neither persisted nor
    returned at once; the next candidate is tried, and the call ends with
    the token of the last refresh, nothing on disk having changed. *)
Lemma C2_unwritable_file_keeps_the_loop_going :
  snd (net_refreshAccessToken unwritable_env [] "a") = Some (granted "a")
  /\ refreshCandidates (fst (reconcile unwritable_env two_token_session)) = ["a"; "b"]
  /\ refresh_calls (events_since two_token_session
                      (snd (getValidAccessToken unwritable_env two_token_session)))
     = ["a"; "b"]
  /\ fst (getValidAccessToken unwritable_env two_token_session) = Some "new-b"
  /\ disk (snd (getValidAccessToken unwritable_env two_token_session))
     = disk two_token_session.
Proof. repeat split; reflexivity. Qed.

(** C2. Past the cache test, [getValidAccessToken] calls the token endpoint
    if and only if there is a refresh candidate and no access token is known,
    or no expiry is known, or now is later than five minutes before the
    expiry.  The refresh tokens it sends are always an initial segment of the
    candidate list.  It tries the candidates in list order.  While the
    credential file can be written, the first candidate the endpoint grants
    is persisted, is cached with its expiry and the time at which the
    refresh completed, and its token is returned at once, no later
    candidate being tried.  When every candidate fails at the endpoint the
    function continues with the token and expiry it had before.  While the
    credential file cannot be written, a granted refresh counts as failed:
    every candidate is tried, nothing is persisted or cached by the loop,
    and the function continues with the token and the expiry (or one hour
    from the failed write) of the last credential the endpoint granted. *)
Theorem C2_refresh_decision_and_candidate_order (env : Env) (st : State) :
  let merged := fst (reconcile env st) in
  let now := clock st in
  let result := getValidAccessToken env st in
  cacheIsFresh now st = false ->
  0 <= now ->
  ((exists token, token ∈ refresh_calls (events_since st (snd result)))
   <-> refresh_due now merged)
  /\ refresh_calls (events_since st (snd result)) `prefix_of` refreshCandidates merged
  /\ (forall failed good rest refreshed,
        refresh_due now merged ->
        refreshCandidates merged = failed ++ good :: rest ->
        (forall c, c ∈ failed -> refresh_fails env (trace st) c) ->
        refresh_succeeds env (trace st) good refreshed ->
        disk_writable env (trace st) ->
        fst result = Some (accessToken refreshed)
        /\ refresh_calls (events_since st (snd result)) = failed ++ [good]
        /\ disk (snd result) = FileJson (stored_of refreshed)
        /\ cachedToken (snd result) = Some (accessToken refreshed)
        /\ cachedTokenExpiry (snd result)
           = Js.num_or (expiryDate refreshed) (clock (snd result) + 3600000)
        /\ lastRefreshTime (snd result) = clock (snd result))
  /\ (refresh_due now merged ->
      (forall c, c ∈ refreshCandidates merged -> refresh_fails env (trace st) c) ->
      exists st3,
        result = settleToken now (merged_accessToken merged) (merged_expiryDate merged) st3
        /\ refresh_calls (events_since st st3) = refreshCandidates merged
        /\ same_cache st st3
        /\ disk st3 = disk st)
  /\ (refresh_due now merged ->
      disk_unwritable env (trace st) ->
      exists token tokenExpiry st3,
        result = settleToken now token tokenExpiry st3
        /\ refresh_calls (events_since st st3) = refreshCandidates merged
        /\ same_cache st st3
        /\ disk st3 = disk st
        /\ forall before last after refreshed,
             refreshCandidates merged = before ++ last :: after ->
             refresh_succeeds env (trace st) last refreshed ->
             (forall c, c ∈ after -> refresh_fails env (trace st) c) ->
             exists t evs1 evs2,
               events_since st st3 = evs1 ++ (t, WriteFailed) :: evs2
               /\ snd <$> evs2 = RefreshCall <$> after
               /\ token = Some (accessToken refreshed)
               /\ tokenExpiry = Some (Js.num_or (expiryDate refreshed) (t + 3600000))).
Proof.
  intros merged now result Hstale Hnow.
  pose proof (reconcile_state env st) as (Hcache & Hlast & Hdisk & Hclock & Htrace).
  destruct (reconcile_no_refresh env st) as (evs0 & Htrace0 & Hevs0).
  destruct (reconcile_merged env st) as (runtime & file & Hmerged).
  fold merged in Hmerged.
  assert (Hdue : shouldRefresh now merged = true <-> refresh_due now merged).
  { rewrite Hmerged. apply shouldRefresh_iff. exact Hnow. }
  assert (Hprefix : trace st `prefix_of` trace (snd (reconcile env st))).
  { rewrite Htrace0. apply prefix_app_r. reflexivity. }
  assert (Hresult : result
    = if shouldRefresh now merged
      then match refreshLoop env (refreshCandidates merged)
                   (merged_accessToken merged) (merged_expiryDate merged)
                   (snd (reconcile env st)) with
           | (Returned token, st3) => (Some token, st3)
           | (Exhausted token tokenExpiry, st3) => settleToken now token tokenExpiry st3
           end
      else settleToken now (merged_accessToken merged) (merged_expiryDate merged)
                       (snd (reconcile env st))).
  { subst result. rewrite getValidAccessToken_unfold. cbv zeta.
    rewrite Hclock, (cacheIsFresh_same _ _ _ Hcache). fold now. rewrite Hstale.
    reflexivity. }
  split; [|split; [|split; [|split]]].
  - rewrite Hresult. split.
    + intros (token & Hin). apply Hdue.
      destruct (shouldRefresh now merged); [reflexivity|].
      destruct (settleToken_trace now (merged_accessToken merged)
                  (merged_expiryDate merged) (snd (reconcile env st))) as (Hs & _).
      rewrite (events_since_app st _ evs0) in Hin by (rewrite Hs; exact Htrace0).
      rewrite Hevs0 in Hin. inversion Hin.
    + intros Hd. pose proof Hd as [Hne _]. apply Hdue in Hd. rewrite Hd.
      destruct (refreshLoop_head env (refreshCandidates merged)
                  (merged_accessToken merged) (merged_expiryDate merged)
                  (snd (reconcile env st))) as (evs & Hevs & Hhead).
      destruct (refreshCandidates merged) as [|c rest] eqn:Hcands; [congruence|].
      exists c.
      assert (Hin : c ∈ refresh_calls (evs0 ++ evs)).
      { rewrite refresh_calls_app, Hevs0. cbn [app].
        destruct (refresh_calls evs); [discriminate|].
        injection Hhead as ->. apply list_elem_of_here. }
      destruct (refreshLoop env (c :: rest) (merged_accessToken merged)
                  (merged_expiryDate merged) (snd (reconcile env st)))
        as [[token | token tokenExpiry] st3]; cbn [snd] in *.
      * rewrite (events_since_app st st3 (evs0 ++ evs)); [exact Hin|].
        rewrite Hevs, Htrace0, <- app_assoc. reflexivity.
      * destruct (settleToken_trace now token tokenExpiry st3) as (Hs & _).
        rewrite (events_since_app st _ (evs0 ++ evs)); [exact Hin|].
        rewrite Hs, Hevs, Htrace0, <- app_assoc. reflexivity.
  - rewrite Hresult.
    destruct (settleToken_trace now (merged_accessToken merged)
                (merged_expiryDate merged) (snd (reconcile env st))) as (Hs & _).
    destruct (shouldRefresh now merged).
    + destruct (refreshLoop_calls_prefix env (refreshCandidates merged)
                  (merged_accessToken merged) (merged_expiryDate merged)
                  (snd (reconcile env st))) as (evs & Hevs & Hprefix2).
      assert (Hcalls : forall st3, trace st3 = trace (snd (reconcile env st)) ++ evs ->
                refresh_calls (events_since st st3) `prefix_of` refreshCandidates merged).
      { intros st3 Hst3.
        rewrite (events_since_app st st3 (evs0 ++ evs))
          by (rewrite Hst3, Htrace0, <- app_assoc; reflexivity).
        rewrite refresh_calls_app, Hevs0. exact Hprefix2. }
      destruct (refreshLoop env (refreshCandidates merged) (merged_accessToken merged)
                  (merged_expiryDate merged) (snd (reconcile env st)))
        as [[token | token tokenExpiry] st3]; cbn [snd] in *.
      * apply Hcalls, Hevs.
      * apply Hcalls. destruct (settleToken_trace now token tokenExpiry st3) as (-> & _).
        exact Hevs.
    + rewrite (events_since_app st _ evs0) by (rewrite Hs; exact Htrace0).
      rewrite Hevs0. apply prefix_nil.
  - intros failed good rest refreshed Hd Hcands Hfail Hgood Hwrite.
    apply Hdue in Hd. rewrite Hresult, Hd, Hcands.
    destruct (refreshLoop_first_success env failed good rest refreshed
                (merged_accessToken merged) (merged_expiryDate merged)
                (snd (reconcile env st)))
      as (st' & Hloop & Hc & He & Hl & Hdk & evs & Hevs & Hkinds).
    { intros c Hin h Hp. apply (Hfail c Hin). etransitivity; eassumption. }
    { intros h Hp. apply Hgood. etransitivity; eassumption. }
    { intros h Hp. apply Hwrite. etransitivity; eassumption. }
    rewrite Hloop. cbn [fst snd]. repeat split; try assumption.
    rewrite (events_since_app st st' (evs0 ++ evs))
      by (rewrite Hevs, Htrace0, <- app_assoc; reflexivity).
    rewrite refresh_calls_app, Hevs0. cbn [app].
    unfold refresh_calls. rewrite Hkinds, omap_app, refresh_call_RefreshCall.
    reflexivity.
  - intros Hd Hfail. apply Hdue in Hd. rewrite Hresult, Hd.
    destruct (refreshLoop_all_fail env (refreshCandidates merged)
                (merged_accessToken merged) (merged_expiryDate merged)
                (snd (reconcile env st)))
      as (st' & Hloop & Hc & Hl & Hdk & Hck & evs & Hevs & Hkinds).
    { intros c Hin h Hp. apply (Hfail c Hin). etransitivity; eassumption. }
    rewrite Hloop. exists st'. split; [reflexivity|].
    split; [|split].
    + rewrite (events_since_app st st' (evs0 ++ evs))
        by (rewrite Hevs, Htrace0, <- app_assoc; reflexivity).
      rewrite refresh_calls_app, Hevs0. cbn [app].
      unfold refresh_calls. rewrite Hkinds. apply refresh_call_RefreshCall.
    + destruct Hcache as (? & ? & ?), Hc as (? & ? & ?). unfold same_cache.
      repeat split; congruence.
    + congruence.
  - intros Hd Hunw. apply Hdue in Hd. rewrite Hresult, Hd.
    destruct (refreshLoop_unwritable env (refreshCandidates merged)
                (merged_accessToken merged) (merged_expiryDate merged)
                (snd (reconcile env st)))
      as (token & tokenExpiry & st' & evs & Hloop & Hc & _ & Hdk & _ & Hevs & Hcalls & Hdec).
    { intros h Hp. apply Hunw. etransitivity; eassumption. }
    rewrite Hloop. exists token, tokenExpiry, st'. split; [reflexivity|].
    assert (Hsince : events_since st st' = evs0 ++ evs).
    { apply events_since_app. rewrite Hevs, Htrace0, <- app_assoc. reflexivity. }
    rewrite Hsince. split; [|split; [|split]].
    + rewrite refresh_calls_app, Hevs0. exact Hcalls.
    + destruct Hcache as (? & ? & ?), Hc as (? & ? & ?). unfold same_cache.
      repeat split; congruence.
    + congruence.
    + intros before last after refreshed Heq Hgood Hfail.
      destruct (Hdec before last after refreshed Heq)
        as (t & evs1 & evs2 & Hsplit & Hkinds & Htok & Hexp).
      { intros h Hp. apply Hgood. etransitivity; eassumption. }
      { intros c Hin h Hp. apply (Hfail c Hin). etransitivity; eassumption. }
      exists t, (evs0 ++ evs1), evs2. rewrite Hsplit, <- app_assoc. auto.
Qed.

Lemma C2_refresh_witness :
  fst (getValidAccessToken renewing_env stale_session) = Some "new-token"
  /\ refresh_calls (events_since stale_session
                      (snd (getValidAccessToken renewing_env stale_session)))
     = ["stale"; "good"].
Proof.
  destruct (C2_refresh_decision_and_candidate_order renewing_env stale_session)
    as (_ & _ & Hfirst & _).
  - reflexivity.
  - cbn. lia.
  - destruct (Hfirst ["stale"] "good" [] renewed_credentials) as (Htoken & Hcalls & _).
    + split; [discriminate|]. right. right. eexists. split; [reflexivity|]. cbn. lia.
    + reflexivity.
    + intros c Hin h _. apply list_elem_of_singleton in Hin as ->. reflexivity.
    + intros h _. reflexivity.
    + intros h _. reflexivity.
    + split; [exact Htoken | exact Hcalls].
Defined.




(** C4, as stated, fails: on a cache hit the credential file is still looked
    up and read, because [loadCredentials] runs before the cache is tested. *)
Lemma C4_cache_hit_reads_credential_file :
  cacheIsFresh (clock warm_state) warm_state = true
  /\ fst (getValidAccessToken silent_env warm_state) = Some "cached-token"
  /\ snd <$> events_since warm_state (snd (getValidAccessToken silent_env warm_state))
     = [GetAuth; ExistsSync; ReadFileSync].
Proof. repeat split; reflexivity. Qed.

(** C4, amended. When the cache holds a token, now is before the cached
    expiry and less than five minutes have passed since the last refresh,
    [getValidAccessToken] returns the cached token and leaves the cache, the
    credential file and the clock as they were; it has asked the host for its
    session and looked up (and, when there is one, read) the credential file,
    and has done nothing else: no refresh call, no request, no write. *)
Theorem C4_cache_hit_returns_cached_token (env : Env) (st : State) :
  cacheIsFresh (clock st) st = true ->
  let result := getValidAccessToken env st in
  fst result = cachedToken st
  /\ Js.truthy_str (fst result) = true
  /\ same_cache st (snd result)
  /\ disk (snd result) = disk st
  /\ clock (snd result) = clock st
  /\ lastRequestTime (snd result) = lastRequestTime st
  /\ snd <$> events_since st (snd result)
     = GetAuth :: ExistsSync
       :: match disk st with FileMissing => [] | _ => [ReadFileSync] end.
Proof.
  intros Hfresh result.
  pose proof (reconcile_state env st) as (Hcache & Hlast & Hdisk & Hclock & Htrace).
  subst result. rewrite getValidAccessToken_unfold. cbv zeta.
  rewrite Hclock, (cacheIsFresh_same _ _ _ Hcache), Hfresh. cbn [fst snd].
  pose proof Hcache as (Htoken & _).
  repeat split; try assumption; try (symmetry; assumption).
  - rewrite <- Htoken. unfold cacheIsFresh in Hfresh.
    apply andb_true_iff in Hfresh as [Hfresh _].
    apply andb_true_iff in Hfresh as [Hfresh _]. exact Hfresh.
  - apply Hcache.
  - apply Hcache.
  - rewrite (events_since_app _ _ _ Htrace). destruct (disk st); reflexivity.
Qed.

Lemma C4_cache_hit_witness :
  fst (getValidAccessToken silent_env warm_state) = Some "cached-token"
  /\ same_cache warm_state (snd (getValidAccessToken silent_env warm_state)).
Proof.
  destruct (C4_cache_hit_returns_cached_token silent_env warm_state)
    as (Htoken & _ & Hcache & _).
  - reflexivity.
  - split; [exact Htoken | exact Hcache].
Defined.

(** ** The [fetch] wrapper: 401/403 and 429 *)

Lemma fetch_calls_resolution (evs : History) :
  Forall (fun entry => resolution_event (snd entry) = true) evs -> fetch_calls evs = [].
Proof.
  induction 1 as [|[t e] evs He _ IH]; [reflexivity|].
  unfold fetch_calls in *. cbn [fmap list_fmap snd omap list_omap].
  cbn [snd] in He. destruct e; try discriminate; exact IH.
Qed.

Lemma refreshLoop_frame (env : Env) (candidates : list string) (token : option string)
    (tokenExpiry : option Z) (st : State) :
  let st' := snd (refreshLoop env candidates token tokenExpiry st) in
  lastRequestTime st' = lastRequestTime st
  /\ clock st <= clock st'
  /\ exists evs, trace st' = trace st ++ evs
                 /\ Forall (fun entry => resolution_event (snd entry) = true) evs.
Proof.
  revert token tokenExpiry st.
  induction candidates as [|c rest IH]; intros token tokenExpiry st.
  - cbn. repeat split; [lia|]. exists []. rewrite app_nil_r. split; constructor.
  - cbn [refreshLoop].
    pose proof (refreshAccessToken_state env c st) as (_ & _ & Hlast & _ & Hclock & Htrace).
    destruct (refreshAccessToken env c st) as [[refreshed|] st1]; cbn [snd] in *.
    + unfold saveCredentials. destruct (fs_write_ok env (trace st1)).
      * cbn [snd set_cache set_disk log lastRequestTime clock trace].
        repeat split; [exact Hlast | exact Hclock |].
        eexists. rewrite Htrace, <- app_assoc. split; [reflexivity|].
        repeat constructor.
      * destruct (IH (Some (accessToken refreshed))
                     (Some (Js.num_or (expiryDate refreshed) (clock st1 + 3600000)))
                     (log WriteFailed st1)) as (Hl & Hc & evs & Hevs & Hall).
        cbn [log lastRequestTime clock trace] in *.
        repeat split; [congruence | lia |].
        eexists. rewrite Hevs, Htrace, <- !app_assoc. split; [reflexivity|].
        repeat constructor. exact Hall.
    + destruct (IH token tokenExpiry st1) as (Hl & Hc & evs & Hevs & Hall).
      repeat split; [congruence | lia |].
      eexists. rewrite Hevs, Htrace, <- app_assoc. split; [reflexivity|].
      repeat constructor. exact Hall.
Qed.

(** Token resolution sends no request, does not wait, and leaves the request
    queue alone; the first thing it does is to ask the host. *)
Lemma getValidAccessToken_frame (env : Env) (st : State) :
  let st' := snd (getValidAccessToken env st) in
  lastRequestTime st' = lastRequestTime st
  /\ clock st <= clock st'
  /\ exists evs, trace st' = trace st ++ (clock st, GetAuth) :: evs
                 /\ Forall (fun entry => resolution_event (snd entry) = true) evs.
Proof.
  pose proof (reconcile_state env st) as (_ & Hlast & _ & Hclock & Htrace).
  assert (Hevs0 : exists evs0, trace (snd (reconcile env st))
                               = trace st ++ (clock st, GetAuth) :: evs0
            /\ Forall (fun entry => resolution_event (snd entry) = true) evs0).
  { eexists. split; [exact Htrace|]. destruct (disk st); repeat constructor. }
  destruct Hevs0 as (evs0 & Hevs0 & Hall0).
  assert (Hsettle : forall now token tokenExpiry st3,
    lastRequestTime st3 = lastRequestTime st -> clock st <= clock st3 ->
    (exists evs, trace st3 = trace st ++ (clock st, GetAuth) :: evs
                 /\ Forall (fun entry => resolution_event (snd entry) = true) evs) ->
    let st' := snd (settleToken now token tokenExpiry st3) in
    lastRequestTime st' = lastRequestTime st
    /\ clock st <= clock st'
    /\ exists evs, trace st' = trace st ++ (clock st, GetAuth) :: evs
                   /\ Forall (fun entry => resolution_event (snd entry) = true) evs).
  { intros now token tokenExpiry st3 Hl Hc Hev.
    destruct (settleToken_trace now token tokenExpiry st3) as (Ht & _ & Hk & Hq).
    cbv zeta. rewrite Ht, Hk, Hq. auto. }
  rewrite getValidAccessToken_unfold. cbv zeta.
  destruct (cacheIsFresh _ _).
  { cbn [snd]. repeat split; [exact Hlast | lia |]. eauto. }
  destruct (shouldRefresh _ _).
  - pose proof (refreshLoop_frame env (refreshCandidates (fst (reconcile env st)))
                  (merged_accessToken (fst (reconcile env st)))
                  (merged_expiryDate (fst (reconcile env st)))
                  (snd (reconcile env st))) as (Hl & Hc & evs & Hevs & Hall).
    assert (Hev : exists evs', trace (snd (refreshLoop env
                      (refreshCandidates (fst (reconcile env st)))
                      (merged_accessToken (fst (reconcile env st)))
                      (merged_expiryDate (fst (reconcile env st)))
                      (snd (reconcile env st))))
                    = trace st ++ (clock st, GetAuth) :: evs'
              /\ Forall (fun entry => resolution_event (snd entry) = true) evs').
    { exists (evs0 ++ evs). rewrite Hevs, Hevs0, <- app_assoc. split; [reflexivity|].
      apply Forall_app. split; assumption. }
    destruct (refreshLoop _ _ _ _ _) as [[token | token tokenExpiry] st3]; cbn [snd] in *.
    + repeat split; [congruence | lia | exact Hev].
    + apply Hsettle; [congruence | lia | exact Hev].
  - apply Hsettle; [exact Hlast | lia | eauto].
Qed.

(** C5, as stated, fails at a re-resolved token that is the empty string:
    it is not null and differs from the token of the request, but the code
    tests it for truthiness and sends nothing more. *)
Lemma C5_empty_token_is_not_retried :
  fst (getValidAccessToken blank_env
         (resetTokenCache
            (snd (http_fetch blank_env (request_of "/chat/completions" "{}" old_headers)
                    stale_session))))
  = Some ""
  /\ fst (dispatch blank_env "/chat/completions" "{}" old_headers "old-token" stale_session)
     = Responded unauthorized
  /\ fetch_calls (events_since stale_session
        (snd (dispatch blank_env "/chat/completions" "{}" old_headers
                "old-token" stale_session)))
     = [request_of "/chat/completions" "{}" old_headers].
Proof. repeat split; reflexivity. Qed.

(** C5. When the response to a dispatched call has status 401 or 403, the
    wrapper clears the token cache and resolves a token again: the
    resolution does not take the cache's fast path, and what the wrapper
    then does is the same whatever the cache held.  If the resolution gives
    a token that is not empty and differs from the one the call was sent
    with, the same request is sent once more with the new Authorization
    header and what comes back is returned, whatever its status; otherwise
    (no token, an empty one, or the same one) the original response is
    returned and no other request is sent. *)
Theorem C5_auth_failure_retries_once_with_new_token
    (env : Env) (input init : string) (headers : gmap string string)
    (token : string) (st : State) (duration : N) (response : Response) :
  let request := request_of input init headers in
  let st1 := tick (Z.of_N duration) (log (FetchCall request) st) in
  let resolved := getValidAccessToken env (resetTokenCache st1) in
  let result := dispatch env input init headers token st in
  net_fetch env (trace st) request = (duration, Some response) ->
  status response = 401 \/ status response = 403 ->
  (cacheIsFresh (clock st1) (resetTokenCache st1) = false
   /\ forall cached expiry lastRefresh,
        dispatch env input init headers token (set_cache cached expiry lastRefresh st)
        = result)
  /\ (exists evs,
     events_since st (snd resolved)
       = (clock st, FetchCall request) :: (clock st1, GetAuth) :: evs
     /\ fetch_calls evs = [])
  /\ (forall retried, fst resolved = Some retried -> retried <> "" -> retried <> token ->
        let request' :=
          request_of input init (<["authorization" := "Bearer " +:+ retried]> headers) in
        fst result = answered env (snd resolved) request'
        /\ fetch_calls (events_since st (snd result)) = [request; request'])
  /\ (fst resolved = None \/ fst resolved = Some "" \/ fst resolved = Some token ->
        result = (Responded response, snd resolved)
        /\ fetch_calls (events_since st (snd result)) = [request]).
Proof.
  intros request st1 resolved result Hnet Hstatus.
  pose proof (getValidAccessToken_frame env (resetTokenCache st1)) as (_ & _ & evs & Hevs & Hall).
  fold resolved in Hevs.
  assert (Htrace : trace (snd resolved)
            = trace st ++ (clock st, FetchCall request) :: (clock st1, GetAuth) :: evs).
  { rewrite Hevs. cbn [resetTokenCache set_cache st1 tick log trace clock].
    rewrite <- app_assoc. reflexivity. }
  assert (Hcalls : fetch_calls (events_since st (snd resolved)) = [request]).
  { rewrite (events_since_app _ _ _ Htrace). unfold fetch_calls.
    cbn [fmap list_fmap snd omap list_omap fetch_call].
    fold (fetch_calls evs). rewrite (fetch_calls_resolution evs Hall). reflexivity. }
  assert (Hauth : ((status response =? 401) || (status response =? 403)) = true).
  { destruct Hstatus as [-> | ->]; reflexivity. }
  assert (Hresult : result
    = if Js.truthy_str (fst resolved) && negb (bool_decide (fst resolved = Some token))
      then match fst resolved with
           | Some retried =>
               http_fetch env
                 (request_of input init (<["authorization" := "Bearer " +:+ retried]> headers))
                 (snd resolved)
           | None =>
               if status response =? 429
               then http_fetch env request
                      (sleep ((fun seconds => seconds * 1000)
                                <$> parseInt (Js.str_or (retry_after response) "60"))
                             (snd resolved))
               else (Responded response, snd resolved)
           end
      else if status response =? 429
           then http_fetch env request
                  (sleep ((fun seconds => seconds * 1000)
                            <$> parseInt (Js.str_or (retry_after response) "60"))
                         (snd resolved))
           else (Responded response, snd resolved)).
  { subst result. unfold dispatch, http_fetch at 1. fold request. rewrite Hnet.
    fold st1. rewrite Hauth. fold resolved.
    destruct resolved as [retried st']. cbn [fst snd].
    destruct (Js.truthy_str retried && negb (bool_decide (retried = Some token)));
      [destruct retried; reflexivity | reflexivity]. }
  assert (Hnot429 : (status response =? 429) = false).
  { destruct Hstatus as [-> | ->]; reflexivity. }
  split; [|split; [|split]].
  - split; [reflexivity|]. intros cached expiry lastRefresh.
    unfold result, dispatch, http_fetch. fold request.
    cbn [set_cache trace]. rewrite Hnet, Hauth.
    change (resetTokenCache
              (tick (Z.of_N duration)
                 (log (FetchCall request) (set_cache cached expiry lastRefresh st))))
      with (resetTokenCache st1).
    reflexivity.
  - exists evs. split; [apply (events_since_app _ _ _ Htrace)|].
    apply fetch_calls_resolution, Hall.
  - intros retried Hretried Hne Hdiff request'.
    rewrite Hresult, Hretried. cbn [Js.truthy_str].
    destruct (String.eqb_spec retried ""); [contradiction|].
    rewrite bool_decide_eq_false_2 by congruence. cbn [negb andb].
    fold request'. split; [reflexivity|].
    unfold http_fetch. destruct (net_fetch env (trace (snd resolved)) request') as [d o].
    cbn [snd tick log trace].
    rewrite (events_since_app st _ (events_since st (snd resolved)
                                     ++ [(clock (snd resolved), FetchCall request')])).
    + rewrite fetch_calls_app, Hcalls. reflexivity.
    + cbn [tick log trace clock].
      rewrite (events_since_app _ _ _ Htrace), Htrace, <- app_assoc. reflexivity.
  - intros Hsame. rewrite Hresult, Hnot429.
    assert (Hcond : Js.truthy_str (fst resolved)
                    && negb (bool_decide (fst resolved = Some token)) = false).
    { destruct Hsame as [-> | [-> | ->]]; [reflexivity | reflexivity |].
      rewrite bool_decide_eq_true_2 by reflexivity. apply andb_false_r. }
    rewrite Hcond. split; [reflexivity | exact Hcalls].
Qed.

Lemma C5_auth_failure_witness :
  cacheIsFresh (clock warm_old_session) warm_old_session = true
  /\ cachedToken warm_old_session = Some "old-token"
  /\ fst (dispatch rejecting_env "/chat/completions" "{}" old_headers "old-token"
            warm_old_session)
     = Responded completed
  /\ fetch_calls (events_since warm_old_session
        (snd (dispatch rejecting_env "/chat/completions" "{}" old_headers
                "old-token" warm_old_session)))
     = [request_of "/chat/completions" "{}" old_headers;
        request_of "/chat/completions" "{}"
          (<["authorization" := "Bearer new-token"]> old_headers)].
Proof.
  split; [reflexivity|]. split; [reflexivity|].
  destruct (C5_auth_failure_retries_once_with_new_token rejecting_env
              "/chat/completions" "{}" old_headers "old-token" warm_old_session
              50%N unauthorized) as (_ & _ & Hretry & _).
  - reflexivity.
  - left. reflexivity.
  - destruct (Hretry "new-token") as (Hanswer & Hcalls).
    + reflexivity.
    + discriminate.
    + discriminate.
    + split; [rewrite Hanswer; reflexivity | exact Hcalls].
Defined.

(** X18. On 429 the wrapper waits [parseInt(Retry-After || '60') * 1000]
    milliseconds and sends the same request once more; whatever comes back is
    returned, and the queue's dispatch time is not touched. *)
Lemma dispatch_rate_limited (env : Env) (input init : string)
    (headers : gmap string string) (token : string) (st : State)
    (duration : N) (response : Response) :
  let request := request_of input init headers in
  let st1 := tick (Z.of_N duration) (log (FetchCall request) st) in
  let ms := (fun seconds => seconds * 1000)
              <$> parseInt (Js.str_or (retry_after response) "60") in
  let result := dispatch env input init headers token st in
  net_fetch env (trace st) request = (duration, Some response) ->
  status response = 429 ->
  fst result = answered env (sleep ms st1) request
  /\ snd <$> events_since st (snd result) = [FetchCall request; Sleep ms; FetchCall request]
  /\ lastRequestTime (snd result) = lastRequestTime st
  /\ clock (snd result) = clock st1 + setTimeout_delay ms
       + Z.of_N (fst (net_fetch env (trace (sleep ms st1)) request)).
Proof.
  intros request st1 ms result Hnet Hstatus.
  assert (Hresult : result = http_fetch env request (sleep ms st1)).
  { subst result. unfold dispatch, http_fetch at 1. fold request. rewrite Hnet.
    fold st1. rewrite Hstatus. reflexivity. }
  rewrite Hresult. unfold answered, http_fetch.
  destruct (net_fetch env (trace (sleep ms st1)) request) as [d o].
  cbn [fst snd]. repeat split.
  rewrite (events_since_app st _
             [(clock st, FetchCall request); (clock st1, Sleep ms);
              (clock (sleep ms st1), FetchCall request)]); [reflexivity|].
  unfold sleep, st1. cbn [tick log trace clock]. rewrite <- !app_assoc. reflexivity.
Qed.

Example retry_after_two_seconds :
  snd <$> events_since warm_state
            (snd (dispatch (throttling_env (Some "2")) "/chat/completions" "{}" ∅
                    "cached-token" warm_state))
  = [FetchCall (request_of "/chat/completions" "{}" ∅); Sleep (Some 2000);
     FetchCall (request_of "/chat/completions" "{}" ∅)].
Proof. reflexivity. Qed.

Example retry_after_absent :
  snd <$> events_since warm_state
            (snd (dispatch (throttling_env None) "/chat/completions" "{}" ∅
                    "cached-token" warm_state))
  = [FetchCall (request_of "/chat/completions" "{}" ∅); Sleep (Some 60000);
     FetchCall (request_of "/chat/completions" "{}" ∅)].
Proof. reflexivity. Qed.

(** C6 at a Retry-After header that is a date: [parseInt] gives NaN, the
    timer is set with NaN, and the retry leaves one millisecond after the
    429 came back instead of sixty seconds. *)
Lemma C6_date_retry_after_is_not_waited_for :
  parseInt http_date = None
  /\ events_since warm_state
       (snd (dispatch (throttling_env (Some http_date)) "/chat/completions" "{}" ∅
               "cached-token" warm_state))
     = [(1700000000000, FetchCall (request_of "/chat/completions" "{}" ∅));
        (1700000000050, Sleep None);
        (1700000000051, FetchCall (request_of "/chat/completions" "{}" ∅))].
Proof. split; reflexivity. Qed.

(** ** The request queue *)

Lemma getJitter_range (env : Env) (st : State) :
  valid_random env -> JITTER_MIN <= getJitter env st < JITTER_MAX.
Proof.
  intros Hrandom. specialize (Hrandom (trace st)).
  unfold getJitter, JITTER_MIN, JITTER_MAX.
  assert (0 <= math_random env (trace st) * (1500 - 500) / 2 ^ 53 < 1000); [|lia].
  split.
  - apply Z.div_pos; lia.
  - apply Z.div_lt_upper_bound; lia.
Qed.

(** What [enqueue] does before the task: at most one timer, for
    [max(0, MIN_INTERVAL - (now - lastRequestTime))] plus the jitter; then the
    dispatch time is the time at which the timer fired. *)
Lemma await_turn_with_spec (jitter : Z) (st : State) :
  0 <= jitter <= JITTER_MAX ->
  lastRequestTime st <= clock st ->
  let wait := Z.max 0 (MIN_INTERVAL - (clock st - lastRequestTime st)) + jitter in
  let st' := await_turn_with jitter st in
  events_since st st' = (if 0 <? wait then [(clock st, Sleep (Some wait))] else [])
  /\ clock st' = clock st + wait
  /\ lastRequestTime st' = clock st'.
Proof.
  intros Hjitter Hlast wait st'.
  subst st'. unfold await_turn_with. cbv zeta. fold wait.
  destruct (Z.ltb_spec 0 wait) as [Hpos | Hzero].
  - assert (Hdelay : setTimeout_delay (Some wait) = wait).
    { unfold setTimeout_delay.
      destruct (Z.leb_spec 1 wait), (Z.leb_spec wait 2147483647); cbn [andb];
        try reflexivity; subst wait; unfold JITTER_MAX, MIN_INTERVAL in *; lia. }
    unfold sleep. rewrite Hdelay.
    cbn [set_lastRequestTime tick log clock trace lastRequestTime].
    repeat split. apply events_since_app. reflexivity.
  - cbn [set_lastRequestTime clock trace lastRequestTime].
    assert (wait = 0) as -> by (subst wait; lia).
    repeat split; [|lia].
    unfold events_since. cbn [trace set_lastRequestTime]. apply drop_all.
Qed.





(** ** Device-flow polling *)

Lemma pollingLoop_S (fuel : nat) (env : Env) (startTime timeoutMs interval : Z)
    (st : State) :
  pollingLoop (S fuel) env startTime timeoutMs interval st
  = if clock st - startTime <? timeoutMs
    then
      let st1 := sleep (Some (interval + POLLING_MARGIN_MS)) st in
      match pollDeviceToken env st1 with
      | (PollToken credentials, st2) =>
          match saveCredentials env credentials st2 with
          | (true, st3) =>
              (Some (AuthSuccess (accessToken credentials)
                                 (default "" (refreshToken credentials))
                                 (Js.num_or (expiryDate credentials) (clock st3 + 3600000))),
               st3)
          | (false, st3) => (Some AuthFailed, st3)
          end
      | (PollNothing, st2) | (PollPending, st2) =>
          pollingLoop fuel env startTime timeoutMs interval st2
      | (PollSlowDown, st2) =>
          pollingLoop fuel env startTime timeoutMs (Z.min (interval + 5000) 15000) st2
      | (PollError, st2) => (Some AuthFailed, st2)
      end
    else (Some AuthFailed, st).
Proof. reflexivity. Qed.

Lemma after_poll_state (env : Env) (interval : Z) (st : State) :
  5000 <= interval <= 15000 ->
  let asked := trace st ++ [(clock st, Sleep (Some (interval + POLLING_MARGIN_MS)))] in
  let st' := after_poll env interval st in
  pollDeviceToken env (sleep (Some (interval + POLLING_MARGIN_MS)) st)
    = (snd (net_pollDeviceToken env asked), st')
  /\ trace st' = asked ++ [(clock st + (interval + POLLING_MARGIN_MS), PollCall)]
  /\ clock st' = clock st + interval + POLLING_MARGIN_MS
                 + Z.of_N (fst (net_pollDeviceToken env asked))
  /\ disk st' = disk st.
Proof.
  intros Hinterval asked st'. subst st'. unfold after_poll, pollDeviceToken, sleep.
  cbn [log tick trace clock]. fold asked.
  assert (Hdelay : setTimeout_delay (Some (interval + POLLING_MARGIN_MS))
                   = interval + POLLING_MARGIN_MS).
  { unfold setTimeout_delay, POLLING_MARGIN_MS.
    destruct (Z.leb_spec 1 (interval + 3000)), (Z.leb_spec (interval + 3000) 2147483647);
      cbn [andb]; lia. }
  rewrite Hdelay.
  destruct (net_pollDeviceToken env asked) as [duration outcome].
  cbn [fst snd trace clock disk tick log]. unfold asked.
  repeat split; try reflexivity; lia.
Qed.

(** The loop returns: the fuel [callback] gives it is never used up. *)
Lemma pollingLoop_returns (env : Env) (startTime timeoutMs : Z) (fuel : nat) :
  forall interval st,
    5000 <= interval <= 15000 ->
    timeoutMs - (clock st - startTime) < 8000 * Z.of_nat fuel ->
    fst (pollingLoop (S fuel) env startTime timeoutMs interval st) <> None.
Proof.
  induction fuel as [|fuel IH]; intros interval st Hinterval Hleft;
    rewrite pollingLoop_S; cbv zeta.
  - destruct (Z.ltb_spec (clock st - startTime) timeoutMs); [lia | discriminate].
  - destruct (Z.ltb_spec (clock st - startTime) timeoutMs); [|discriminate].
    pose proof (after_poll_state env interval st Hinterval) as (Hpoll & _ & Hclock & _).
    rewrite Hpoll. unfold POLLING_MARGIN_MS in Hclock.
    set (st2 := after_poll env interval st) in *.
    assert (Hleft2 : timeoutMs - (clock st2 - startTime) < 8000 * Z.of_nat fuel) by lia.
    destruct (snd (net_pollDeviceToken env _)) as [credentials| | | |].
    + destruct (saveCredentials env credentials st2) as [[|] st3]; discriminate.
    + apply IH; assumption.
    + apply IH; [lia | assumption].
    + apply IH; assumption.
    + discriminate.
Qed.

Theorem callback_returns (env : Env) (expires_in : Z) (st : State) :
  fst (callback env expires_in st) <> None.
Proof.
  unfold callback, pollingFuel. apply pollingLoop_returns; [lia|].
  destruct (Z.le_gt_cases 0 (expires_in * 1000 / 8000 + 1)) as [Hpos | Hneg].
  - rewrite Z2Nat.id by exact Hpos.
    pose proof (Z.mod_pos_bound (expires_in * 1000) 8000 ltac:(lia)).
    pose proof (Z.div_mod (expires_in * 1000) 8000 ltac:(lia)). lia.
  - assert (Hzero : Z.to_nat (expires_in * 1000 / 8000 + 1) = 0%nat) by lia.
    rewrite Hzero.
    pose proof (Z.mod_pos_bound (expires_in * 1000) 8000 ltac:(lia)).
    pose proof (Z.div_mod (expires_in * 1000) 8000 ltac:(lia)). lia.
Qed.

Lemma polls_since_app (h0 evs : History) :
  polls_since h0 (h0 ++ evs) = length (poll_times evs).
Proof. unfold polls_since. rewrite drop_app_length. reflexivity. Qed.

(** A round whose poll says "not yet" leaves the interval as it is. *)
Lemma pollingLoop_pending_round (fuel : nat) (env : Env)
    (startTime timeoutMs interval : Z) (st : State) :
  5000 <= interval <= 15000 ->
  clock st - startTime < timeoutMs ->
  (let outcome := snd (net_pollDeviceToken env
       (trace st ++ [(clock st, Sleep (Some (interval + POLLING_MARGIN_MS)))])) in
   outcome = PollPending \/ outcome = PollNothing) ->
  pollingLoop (S fuel) env startTime timeoutMs interval st
  = pollingLoop fuel env startTime timeoutMs interval (after_poll env interval st).
Proof.
  intros Hinterval Hopen Houtcome. rewrite pollingLoop_S. cbv zeta in *.
  destruct (Z.ltb_spec (clock st - startTime) timeoutMs); [|lia].
  destruct (after_poll_state env interval st Hinterval) as (-> & _).
  destruct Houtcome as [-> | ->]; reflexivity.
Qed.

(** A round whose poll brings the token saves it and ends the loop. *)
Lemma pollingLoop_token_round (fuel : nat) (env : Env)
    (startTime timeoutMs interval : Z) (st : State) (credentials : QwenCredentials) :
  5000 <= interval <= 15000 ->
  clock st - startTime < timeoutMs ->
  snd (net_pollDeviceToken env
         (trace st ++ [(clock st, Sleep (Some (interval + POLLING_MARGIN_MS)))]))
    = PollToken credentials ->
  fs_write_ok env (trace (after_poll env interval st)) = true ->
  pollingLoop (S fuel) env startTime timeoutMs interval st
  = (Some (AuthSuccess (accessToken credentials)
                       (default "" (refreshToken credentials))
                       (Js.num_or (expiryDate credentials)
                                  (clock (after_poll env interval st) + 3600000))),
     set_disk (FileJson (stored_of credentials))
              (log (WriteFileSync (stored_of credentials)) (after_poll env interval st))).
Proof.
  intros Hinterval Hopen Houtcome Hwrite. rewrite pollingLoop_S. cbv zeta.
  destruct (Z.ltb_spec (clock st - startTime) timeoutMs); [|lia].
  destruct (after_poll_state env interval st Hinterval) as (-> & _).
  rewrite Houtcome. unfold saveCredentials. rewrite Hwrite. reflexivity.
Qed.

(** C8, as stated, fails: with three "pending" answers before the token, the
    successful exchange is the fourth poll, made four waits of 5 + 3 seconds
    after the start, not three. *)
Lemma C8_token_arrives_on_fourth_poll :
  fst (callback (scripted_env three_pending_then_token) 1800
         (fresh_state 1700000000000 FileMissing))
    = Some (AuthSuccess "at-1" "rt-1" 1700003600000)
  /\ poll_times (trace (snd (callback (scripted_env three_pending_then_token) 1800
                               (fresh_state 1700000000000 FileMissing))))
     = [1700000008000; 1700000016000; 1700000024000; 1700000032000]
  /\ 1700000032000 - 1700000000000 = 4 * (5000 + 3000)
  /\ 1700000032000 - 1700000000000 <> 3 * (5000 + 3000).
Proof. repeat split; try (vm_compute; reflexivity). lia. Qed.

(** C8, amended. With a polling interval of 5 seconds, a margin of 3 seconds
    and [expires_in = 1800], the loop waits before every poll, the first
    included.  When the first three polls are answered "not yet" and the
    fourth with a token, the fourth round beginning before the device code
    has expired, the polls are made exactly 1, 2, 3 and 4 times (5 + 3)
    seconds after the start, plus the time the earlier polls took: the
    successful exchange is the fourth poll.  The loop then ends with success
    when the credential can be saved, and as failed when saving it throws. *)
Theorem C8_three_pending_then_success (env : Env) (st : State)
    (credentials : QwenCredentials) :
  let s1 := after_poll env 5000 st in
  let s2 := after_poll env 5000 s1 in
  let s3 := after_poll env 5000 s2 in
  let s4 := after_poll env 5000 s3 in
  let took := fun s : State =>
    Z.of_N (fst (net_pollDeviceToken env
                   (trace s ++ [(clock s, Sleep (Some (5000 + 3000)))]))) in
  let result := callback env 1800 st in
  (forall h, trace st `prefix_of` h -> (polls_since (trace st) h < 3)%nat ->
     snd (net_pollDeviceToken env h) = PollPending
     \/ snd (net_pollDeviceToken env h) = PollNothing) ->
  (forall h, trace st `prefix_of` h -> polls_since (trace st) h = 3%nat ->
     snd (net_pollDeviceToken env h) = PollToken credentials) ->
  3 * (5000 + 3000) + took st + took s1 + took s2 < 1800 * 1000 ->
  poll_times (events_since st (snd result))
  = [clock st + (5000 + 3000);
     clock st + 2 * (5000 + 3000) + took st;
     clock st + 3 * (5000 + 3000) + took st + took s1;
     clock st + 4 * (5000 + 3000) + took st + took s1 + took s2]
  /\ clock (snd result) = clock st + 4 * (5000 + 3000) + took st + took s1 + took s2 + took s3
  /\ (fs_write_ok env (trace s4) = true ->
      fst result = Some (AuthSuccess (accessToken credentials)
                                     (default "" (refreshToken credentials))
                                     (Js.num_or (expiryDate credentials)
                                                (clock (snd result) + 3600000)))
      /\ disk (snd result) = FileJson (stored_of credentials))
  /\ (fs_write_ok env (trace s4) = false ->
      fst result = Some AuthFailed /\ disk (snd result) = disk st).
Proof.
  intros s1 s2 s3 s4 took result Hpending Htoken Hbound.
  assert (Hinterval : 5000 <= 5000 <= 15000) by lia.
  pose proof (after_poll_state env 5000 st Hinterval) as (_ & Ht1 & Hc1 & Hd1).
  pose proof (after_poll_state env 5000 s1 Hinterval) as (_ & Ht2 & Hc2 & Hd2).
  pose proof (after_poll_state env 5000 s2 Hinterval) as (_ & Ht3 & Hc3 & Hd3).
  pose proof (after_poll_state env 5000 s3 Hinterval) as (Hpoll4 & Ht4 & Hc4 & Hd4).
  fold s1 in Ht1, Hc1, Hd1, Ht2, Hc2, Hd2. fold s2 in Ht2, Hc2, Hd2, Ht3, Hc3, Hd3.
  fold s3 in Ht3, Hc3, Hd3, Ht4, Hc4, Hd4, Hpoll4. fold s4 in Ht4, Hc4, Hd4, Hpoll4.
  cbv zeta in Ht1, Hc1, Hd1, Ht2, Hc2, Hd2, Ht3, Hc3, Hd3, Ht4, Hc4, Hd4, Hpoll4.
  unfold POLLING_MARGIN_MS in *.
  assert (Hk1 : clock s1 = clock st + (5000 + 3000) + took st) by (subst took; cbv beta; lia).
  assert (Hk2 : clock s2 = clock s1 + (5000 + 3000) + took s1) by (subst took; cbv beta; lia).
  assert (Hk3 : clock s3 = clock s2 + (5000 + 3000) + took s2) by (subst took; cbv beta; lia).
  assert (Hk4 : clock s4 = clock s3 + (5000 + 3000) + took s3) by (subst took; cbv beta; lia).
  clear Hc1 Hc2 Hc3 Hc4.
  rewrite <- app_assoc in Ht1. cbn [app] in Ht1.
  rewrite Ht1, <- !app_assoc in Ht2. cbn [app] in Ht2.
  rewrite Ht2, <- !app_assoc in Ht3. cbn [app] in Ht3.
  rewrite Ht3, <- !app_assoc in Ht4. cbn [app] in Ht4.
  assert (Hp1 : 0 <= took st) by apply N2Z.is_nonneg.
  assert (Hp2 : 0 <= took s1) by apply N2Z.is_nonneg.
  assert (Hp3 : 0 <= took s2) by apply N2Z.is_nonneg.
  assert (Hround : forall s evs k,
            trace s = trace st ++ evs -> length (poll_times evs) = k ->
            trace st `prefix_of` trace s ++ [(clock s, Sleep (Some (5000 + 3000)))]
            /\ polls_since (trace st)
                 (trace s ++ [(clock s, Sleep (Some (5000 + 3000)))]) = k).
  { intros s evs k Hs Hk. rewrite Hs, <- app_assoc. split.
    - apply prefix_app_r. reflexivity.
    - rewrite polls_since_app. unfold poll_times in *. rewrite omap_app, length_app, Hk.
      cbn. lia. }
  destruct (Hround st [] 0%nat) as [Hp0 Hk0]; [rewrite app_nil_r; reflexivity | reflexivity |].
  destruct (Hround s1 _ 1%nat Ht1 eq_refl) as [Hpre1 Hn1].
  destruct (Hround s2 _ 2%nat Ht2 eq_refl) as [Hpre2 Hn2].
  destruct (Hround s3 _ 3%nat Ht3 eq_refl) as [Hpre3 Hn3].
  assert (Hresult : result
    = match saveCredentials env credentials s4 with
      | (true, st3) =>
          (Some (AuthSuccess (accessToken credentials)
                             (default "" (refreshToken credentials))
                             (Js.num_or (expiryDate credentials) (clock st3 + 3600000))),
           st3)
      | (false, st3) => (Some AuthFailed, st3)
      end).
  { subst result. unfold callback.
    assert (Hfuel : pollingFuel (1800 * 1000) = S (S (S (S 223%nat)))) by reflexivity.
    rewrite Hfuel.
    rewrite pollingLoop_pending_round;
      [|lia|lia|unfold POLLING_MARGIN_MS; apply Hpending; [exact Hp0 | rewrite Hk0; lia]].
    fold s1.
    rewrite pollingLoop_pending_round;
      [|lia|lia|unfold POLLING_MARGIN_MS; apply Hpending; [exact Hpre1 | rewrite Hn1; lia]].
    fold s2.
    rewrite pollingLoop_pending_round;
      [|lia|lia|unfold POLLING_MARGIN_MS; apply Hpending; [exact Hpre2 | rewrite Hn2; lia]].
    fold s3.
    rewrite pollingLoop_S. cbv zeta.
    destruct (Z.ltb_spec (clock s3 - clock st) (1800 * 1000)); [|lia].
    unfold POLLING_MARGIN_MS. rewrite Hpoll4, (Htoken _ Hpre3 Hn3). reflexivity. }
  assert (Hpolls : forall st3 more,
    trace st3 = trace s4 ++ more -> poll_times more = [] ->
    poll_times (events_since st st3)
    = [clock st + (5000 + 3000);
       clock st + 2 * (5000 + 3000) + took st;
       clock st + 3 * (5000 + 3000) + took st + took s1;
       clock st + 4 * (5000 + 3000) + took st + took s1 + took s2]).
  { intros st3 more Hst3 Hmore. unfold events_since.
    rewrite Hst3, Ht4, <- app_assoc, drop_app_length.
    unfold poll_times in *. rewrite omap_app, Hmore, app_nil_r.
    change (omap poll_time ?l) with (poll_times l). unfold poll_times.
    cbn [omap list_omap poll_time fst snd]. rewrite Hk3, Hk2, Hk1.
    assert (Hlist : forall a b c d a' b' c' d' : Z,
              a = a' -> b = b' -> c = c' -> d = d' -> [a; b; c; d] = [a'; b'; c'; d'])
      by (intros; congruence).
    apply Hlist; lia. }
  rewrite Hresult. unfold saveCredentials.
  destruct (fs_write_ok env (trace s4)); cbn [fst snd].
  - split; [apply (Hpolls _ [(clock s4, WriteFileSync (stored_of credentials))]);
            reflexivity|].
    cbn [set_disk log clock disk]. split; [lia|].
    split; [intros _; split; reflexivity | discriminate].
  - split; [apply (Hpolls _ [(clock s4, WriteFailed)]); reflexivity|].
    cbn [log clock disk]. split; [lia|].
    split; [discriminate | intros _; split; [reflexivity | congruence]].
Qed.

Lemma C8_three_pending_witness :
  poll_times (events_since (fresh_state 1700000000000 FileMissing)
                (snd (callback (scripted_env three_pending_then_token) 1800
                        (fresh_state 1700000000000 FileMissing))))
  = [1700000008000; 1700000016000; 1700000024000; 1700000032000].
Proof.
  destruct (C8_three_pending_then_success (scripted_env three_pending_then_token)
              (fresh_state 1700000000000 FileMissing) sample_credentials)
    as (Hpolls & _).
  - intros h _. unfold polls_since. cbn [fresh_state trace length]. rewrite drop_0.
    cbn [scripted_env net_pollDeviceToken snd].
    destruct (length (poll_times h)) as [|[|[|n]]]; intros Hn;
      [left; reflexivity | left; reflexivity | left; reflexivity | lia].
  - intros h _. unfold polls_since. cbn [fresh_state trace length]. rewrite drop_0.
    cbn [scripted_env net_pollDeviceToken snd]. intros ->. reflexivity.
  - cbn. lia.
  - rewrite Hpolls. reflexivity.
Defined.

(** * Further properties of the code *)

(** ** Reconciliation: what the merged view holds *)

Lemma freshest_is_a_source (runtime file : option QwenCredentials) :
  freshest runtime file = runtime \/ freshest runtime file = file.
Proof.
  rewrite freshest_by_score. destruct runtime as [r|], file as [f|]; auto.
  destruct (getExpiryScore (Some r) <? getExpiryScore (Some f)); auto.
Qed.

Lemma freshest_None (runtime file : option QwenCredentials) :
  freshest runtime file = None -> runtime = None /\ file = None.
Proof.
  rewrite freshest_by_score. destruct runtime as [r|], file as [f|]; try discriminate; auto.
  destruct (getExpiryScore (Some r) <? getExpiryScore (Some f)); discriminate.
Qed.

Lemma or_str_chain_cases (a b c : option string) :
  match Js.or_str (Js.or_str (Js.or_str a b) c) None with
  | Some token => token <> "" /\ (a = Some token \/ b = Some token \/ c = Some token)
  | None => Js.truthy_str a = false /\ Js.truthy_str b = false /\ Js.truthy_str c = false
  end.
Proof.
  unfold Js.or_str.
  destruct (Js.truthy_str a) eqn:Ha.
  - rewrite Ha, Ha. destruct a as [x|]; [|discriminate].
    split; [apply truthy_str_Some; exact Ha | auto].
  - destruct (Js.truthy_str b) eqn:Hb.
    + rewrite Hb. destruct b as [y|]; [|discriminate].
      split; [apply truthy_str_Some; exact Hb | auto].
    + destruct (Js.truthy_str c) eqn:Hc.
      * destruct c as [z|]; [|discriminate].
        split; [apply truthy_str_Some; exact Hc | auto].
      * auto.
Qed.

(** X1. The access token of the merged view is never the empty string: it is a
    non-empty access token of one of the two sources, and it is absent only
    when neither source has one. *)
Theorem merged_token_is_a_source_token (runtime file : option QwenCredentials) :
  match merged_accessToken (mergeCredentialSources runtime file) with
  | Some token =>
      token <> ""
      /\ (accessToken <$> runtime = Some token \/ accessToken <$> file = Some token)
  | None =>
      Js.truthy_str (accessToken <$> runtime) = false
      /\ Js.truthy_str (accessToken <$> file) = false
  end.
Proof.
  unfold mergeCredentialSources. cbn [merged_accessToken].
  pose proof (or_str_chain_cases (accessToken <$> freshest runtime file)
                (accessToken <$> runtime) (accessToken <$> file)) as H.
  destruct (Js.or_str _ None) as [token|].
  - destruct H as [Hne H]. split; [exact Hne|].
    destruct H as [H | [H | H]]; auto.
    destruct (freshest_is_a_source runtime file) as [Heq | Heq]; rewrite Heq in H; auto.
  - tauto.
Qed.

(** X2. The refresh candidates, for any two sources: no token twice, at most two
    tokens, and exactly the non-empty refresh tokens of the two sources. *)
Theorem refreshCandidates_are_the_sources_tokens (runtime file : option QwenCredentials) :
  let candidates := refreshCandidates (mergeCredentialSources runtime file) in
  NoDup candidates
  /\ (length candidates <= 2)%nat
  /\ (forall token, token ∈ candidates
        <-> token <> ""
            /\ (runtime ≫= refreshToken = Some token \/ file ≫= refreshToken = Some token)).
Proof.
  intros candidates.
  assert (Hc : candidates
    = dedup_first (present_tokens [freshest runtime file ≫= refreshToken;
                                   file ≫= refreshToken; runtime ≫= refreshToken]))
    by apply refreshCandidates_dedup.
  assert (Hmem : forall token, token ∈ candidates
        <-> token <> ""
            /\ (runtime ≫= refreshToken = Some token \/ file ≫= refreshToken = Some token)).
  { intros token. rewrite Hc, elem_of_dedup_first. split.
    - intros Hin. unfold present_tokens in Hin. apply list_elem_of_omap in Hin as (o & Hin & Ho).
      destruct (Js.truthy_str o) eqn:Htruthy; [|discriminate]. subst o.
      split; [apply truthy_str_Some; exact Htruthy|].
      rewrite !elem_of_cons in Hin.
      destruct Hin as [Hin | [Hin | [Hin | Hin]]]; [| auto | auto | inversion Hin].
      destruct (freshest_is_a_source runtime file) as [Heq | Heq]; rewrite Heq in Hin; auto.
    - intros [Hne Hsrc]. apply truthy_str_Some in Hne.
      apply (elem_of_present_tokens token _ Hne). rewrite !elem_of_cons.
      destruct Hsrc as [<- | <-]; auto. }
  split; [rewrite Hc; apply NoDup_dedup_first|]. split; [|exact Hmem].
  assert (Hnodup : NoDup candidates) by (rewrite Hc; apply NoDup_dedup_first).
  destruct candidates as [|a [|b [|c rest]]]; cbn [length]; try lia.
  exfalso.
  assert (Ha := proj1 (Hmem a) ltac:(rewrite !elem_of_cons; auto)).
  assert (Hb := proj1 (Hmem b) ltac:(rewrite !elem_of_cons; auto)).
  assert (Hcc := proj1 (Hmem c) ltac:(rewrite !elem_of_cons; auto)).
  apply NoDup_cons in Hnodup as [Hab Hnodup]. apply NoDup_cons in Hnodup as [Hbc _].
  rewrite !not_elem_of_cons in Hab. rewrite !not_elem_of_cons in Hbc.
  destruct Ha as [_ [Ha | Ha]], Hb as [_ [Hb | Hb]], Hcc as [_ [Hcc | Hcc]];
    destruct Hab as (? & ? & _), Hbc as (? & _); congruence.
Qed.

Lemma or_num_timestamp (e : Z) (b : option Z) : 0 < e -> Js.or_num (Some e) b = Some e.
Proof.
  intros He. unfold Js.or_num. cbn [Js.truthy_num].
  destruct (Z.eqb_spec e 0); [lia | reflexivity].
Qed.

(** X3. For expiry dates that are timestamps, the expiry of the merged view is
    the later of the two sources' expiry dates, and absent only when neither
    source has one. *)
Theorem merged_expiry_is_the_latest (runtime file : option QwenCredentials) :
  expiry_is_timestamp runtime ->
  expiry_is_timestamp file ->
  merged_expiryDate (mergeCredentialSources runtime file)
  = latest_expiry (runtime ≫= expiryDate) (file ≫= expiryDate).
Proof.
  intros Hr Hf. unfold mergeCredentialSources. cbn [merged_expiryDate].
  rewrite (freshest_is_freshest_source runtime file Hr Hf).
  unfold freshest_source.
  destruct runtime as [r|], file as [f|]; cbn [mbind option_bind].
  - specialize (Hr r). specialize (Hf f).
    destruct (expiryDate r) as [er|] eqn:Her, (expiryDate f) as [ef|] eqn:Hef;
      cbn [expiry_later latest_expiry].
    + specialize (Hr er eq_refl eq_refl). specialize (Hf ef eq_refl eq_refl).
      destruct (Z.ltb_spec er ef); cbn [mbind option_bind].
      * rewrite Hef, !or_num_timestamp by lia. f_equal. lia.
      * rewrite Her, !or_num_timestamp by lia. f_equal. lia.
    + specialize (Hr er eq_refl eq_refl). cbn [mbind option_bind].
      rewrite Her, !or_num_timestamp by lia. reflexivity.
    + specialize (Hf ef eq_refl eq_refl). cbn [mbind option_bind].
      rewrite Hef, !or_num_timestamp by lia. reflexivity.
    + cbn [mbind option_bind]. rewrite Her. reflexivity.
  - specialize (Hr r). destruct (expiryDate r) as [er|] eqn:Her; cbn [latest_expiry].
    + specialize (Hr er eq_refl eq_refl). rewrite !or_num_timestamp by lia. reflexivity.
    + reflexivity.
  - specialize (Hf f). destruct (expiryDate f) as [ef|] eqn:Hef; cbn [latest_expiry].
    + specialize (Hf ef eq_refl eq_refl). rewrite !or_num_timestamp by lia. reflexivity.
    + reflexivity.
  - reflexivity.
Qed.

Lemma merged_expiry_witness :
  merged_expiryDate (mergeCredentialSources (Some runtime_5) (Some file_7))
  = Some 1700000007000.
Proof.
  rewrite (merged_expiry_is_the_latest (Some runtime_5) (Some file_7)).
  - reflexivity.
  - intros c e [= <-] [= <-]. lia.
  - intros c e [= <-] [= <-]. lia.
Defined.

(** X4. The token and the expiry of the merged view can come from different
    sources: when the file's credential has the later expiry but no access
    token, the merged view pairs the runtime's token with the file's expiry. *)
Theorem merged_token_and_expiry_can_differ_in_source (r f : QwenCredentials) (later : Z) :
  expiryDate f = Some later ->
  0 < later ->
  expiry_later (expiryDate f) (expiryDate r) = true ->
  accessToken f = "" ->
  accessToken r <> "" ->
  let merged := mergeCredentialSources (Some r) (Some f) in
  merged_accessToken merged = Some (accessToken r)
  /\ merged_expiryDate merged = Some later.
Proof.
  intros Hlater Hpos Hexp Hf Hr merged. subst merged.
  unfold mergeCredentialSources. cbn [merged_accessToken merged_expiryDate].
  assert (Hfresh : freshest (Some r) (Some f) = Some f).
  { rewrite freshest_by_score. unfold getExpiryScore. cbn [mbind option_bind].
    rewrite Hlater in *. cbn [default from_option]. unfold id.
    destruct (expiryDate r) as [er|]; cbn [expiry_later default from_option] in *; unfold id.
    - apply Z.ltb_lt in Hexp. destruct (Z.ltb_spec er later); [reflexivity | lia].
    - destruct (Z.ltb_spec 0 later); [reflexivity | lia]. }
  rewrite Hfresh. cbn [fmap option_fmap option_map mbind option_bind].
  rewrite Hf, Hlater, !or_num_timestamp by lia.
  unfold Js.or_str.
  apply truthy_str_Some in Hr. cbn [Js.truthy_str] in Hr.
  cbn [Js.truthy_str String.eqb negb]. rewrite Hr. cbn [Js.truthy_str]. rewrite Hr.
  split; reflexivity.
Qed.

Lemma merged_token_and_expiry_witness :
  merged_accessToken (mergeCredentialSources (Some runtime_5) (Some refresh_only_later))
  = Some (accessToken runtime_5)
  /\ merged_expiryDate (mergeCredentialSources (Some runtime_5) (Some refresh_only_later))
    = Some 1700000009000.
Proof.
  apply (merged_token_and_expiry_can_differ_in_source runtime_5 refresh_only_later);
    [reflexivity | lia | reflexivity | reflexivity | discriminate].
Defined.

(** ** The credential store: saving what was loaded *)

Lemma str_or_Some_empty (s : string) : Js.str_or (Some s) "" = s.
Proof.
  cbn [Js.str_or Js.truthy_str]. destruct (String.eqb_spec s ""); cbn [negb]; congruence.
Qed.

Lemma str_or_idempotent (a : option string) (d : string) :
  d <> "" -> Js.str_or (Some (Js.str_or a d)) d = Js.str_or a d.
Proof.
  intros Hd. assert (Hne : Js.str_or a d <> "").
  { destruct (Js.truthy_str a) eqn:Ha.
    - pose proof (str_or_truthy a d Ha) as H. rewrite <- H in Ha.
      apply truthy_str_Some in Ha. exact Ha.
    - rewrite (str_or_falsy a d Ha). exact Hd. }
  apply truthy_str_Some in Hne. pose proof (str_or_truthy _ d Hne) as H.
  injection H as H. exact H.
Qed.

Lemma disk_saveCredentials (env : Env) (c : QwenCredentials) (st st' : State) :
  saveCredentials env c st = (true, st') -> disk st' = FileJson (stored_of c).
Proof.
  unfold saveCredentials. destruct (fs_write_ok env (trace st)); intros [= <-]; reflexivity.
Qed.

Lemma loadCredentials_disk (st : State) (parsed : StoredCredentialsFile) :
  disk st = FileJson parsed -> fst (loadCredentials st) = credentials_of parsed.
Proof. intros H. unfold loadCredentials. rewrite H. reflexivity. Qed.

Lemma credentials_of_stored_of (parsed : StoredCredentialsFile) (c : QwenCredentials) :
  credentials_of parsed = Some c -> credentials_of (stored_of c) = Some c.
Proof.
  unfold credentials_of.
  destruct (negb (Js.truthy_str (access_token parsed))
            && negb (Js.truthy_str (refresh_token parsed))) eqn:Hnone; [discriminate|].
  intros [= <-]. cbn [stored_of accessToken tokenType refreshToken resourceUrl expiryDate scope
                      access_token token_type refresh_token resource_url expiry_date
                      stored_scope].
  rewrite str_or_Some_empty, !str_or_idempotent by discriminate.
  destruct (Js.truthy_str (access_token parsed)) eqn:Ha.
  - pose proof (str_or_truthy _ "" Ha) as H. rewrite <- H in Ha. rewrite Ha. reflexivity.
  - cbn [negb andb] in Hnone. apply negb_false_iff in Hnone. rewrite Hnone.
    rewrite andb_false_r. reflexivity.
Qed.

(** X5. Saving a credential that was just loaded and loading again gives the
    same credential: what [loadCredentials] returns is a fixed point of
    save-then-load. *)
Theorem load_save_load_is_load (env : Env) (st st' : State) (c : QwenCredentials) :
  fst (loadCredentials st) = Some c ->
  saveCredentials env c (snd (loadCredentials st)) = (true, st') ->
  fst (loadCredentials st') = Some c.
Proof.
  intros Hload Hsave.
  rewrite (loadCredentials_disk st' _ (disk_saveCredentials _ _ _ _ Hsave)).
  unfold loadCredentials in Hload.
  destruct (disk st) as [| |parsed]; cbn [fst] in Hload; try discriminate.
  exact (credentials_of_stored_of parsed c Hload).
Qed.

Lemma load_save_load_witness :
  fst (loadCredentials
         (snd (saveCredentials silent_env refresh_only_loaded
                 (snd (loadCredentials (fresh_state 0 (FileJson refresh_only_file)))))))
  = Some refresh_only_loaded.
Proof.
  apply (load_save_load_is_load silent_env (fresh_state 0 (FileJson refresh_only_file)));
    reflexivity.
Defined.

(** X6. After a save that succeeded, loading finds no credential exactly when
    the saved credential had neither an access token nor a refresh token. *)
Theorem saved_credential_loads_iff_it_has_a_token
    (env : Env) (c : QwenCredentials) (st st' : State) :
  saveCredentials env c st = (true, st') ->
  (fst (loadCredentials st') = None
   <-> accessToken c = "" /\ Js.truthy_str (refreshToken c) = false).
Proof.
  intros Hsave.
  rewrite (loadCredentials_disk st' _ (disk_saveCredentials _ _ _ _ Hsave)).
  unfold credentials_of. cbn [stored_of access_token refresh_token].
  destruct (Js.truthy_str (Some (accessToken c))) eqn:Ha.
  - cbn [negb andb]. apply truthy_str_Some in Ha. split; [discriminate | tauto].
  - assert (Hempty : accessToken c = "").
    { destruct (String.eqb_spec (accessToken c) "") as [H|H]; [exact H|].
      apply truthy_str_Some in H. congruence. }
    cbn [negb andb]. destruct (Js.truthy_str (refreshToken c)); cbn [negb].
    + split; [discriminate | intros [_ H]; discriminate].
    + split; auto.
Qed.

Lemma saved_credential_loads_witness :
  fst (loadCredentials (snd (saveCredentials silent_env refresh_only_loaded
                               (fresh_state 0 FileMissing)))) = None
  <-> accessToken refresh_only_loaded = ""
      /\ Js.truthy_str (refreshToken refresh_only_loaded) = false.
Proof.
  apply (saved_credential_loads_iff_it_has_a_token silent_env refresh_only_loaded
           (fresh_state 0 FileMissing)).
  reflexivity.
Defined.

(** ** Token resolution: what it touches, what it leaves behind *)

Lemma same_cache_trans (a b c : State) : same_cache a b -> same_cache b c -> same_cache a c.
Proof. unfold same_cache. intros (-> & -> & ->) (-> & -> & ->). auto. Qed.

(** How the refresh loop can end: with the token of a credential the token
    endpoint returned for one of the candidates, then on disk and in the
    cache; or with cache and disk as they were. *)
Lemma refreshLoop_outcome (env : Env) (candidates : list string) :
  forall (token : option string) (tokenExpiry : option Z) (st : State),
    let result := refreshLoop env candidates token tokenExpiry st in
    match fst result with
    | Returned returned =>
        exists h candidate refreshed,
          candidate ∈ candidates
          /\ snd (net_refreshAccessToken env h candidate) = Some refreshed
          /\ returned = accessToken refreshed
          /\ disk (snd result) = FileJson (stored_of refreshed)
          /\ cachedToken (snd result) = Some returned
    | Exhausted _ _ => same_cache st (snd result) /\ disk (snd result) = disk st
    end.
Proof.
  induction candidates as [|c rest IH]; intros token tokenExpiry st.
  - cbn. unfold same_cache. auto.
  - cbn [refreshLoop].
    pose proof (refreshAccessToken_state env c st) as (Hout & Hcache & _ & Hdisk & _ & _).
    destruct (refreshAccessToken env c st) as [[refreshed|] st1]; cbn [fst snd] in *.
    + unfold saveCredentials. destruct (fs_write_ok env (trace st1)).
      * cbn [fst snd]. exists (trace st), c, refreshed.
        split; [apply list_elem_of_here|]. auto.
      * specialize (IH (Some (accessToken refreshed))
                       (Some (Js.num_or (expiryDate refreshed) (clock st1 + 3600000)))
                       (log WriteFailed st1)).
        cbv zeta in IH.
        destruct (fst (refreshLoop env rest _ _ (log WriteFailed st1))) as [returned|? ?].
        -- destruct IH as (h & candidate & r & Hin & H). exists h, candidate, r.
           split; [apply list_elem_of_further, Hin | exact H].
        -- destruct IH as [IHc IHd]. split.
           ++ apply (same_cache_trans _ (log WriteFailed st1)); [exact Hcache | exact IHc].
           ++ rewrite IHd. exact Hdisk.
    + specialize (IH token tokenExpiry st1). cbv zeta in IH.
      destruct (fst (refreshLoop env rest token tokenExpiry st1)) as [returned|? ?].
      * destruct IH as (h & candidate & r & Hin & H). exists h, candidate, r.
        split; [apply list_elem_of_further, Hin | exact H].
      * destruct IH as [IHc IHd]. split.
        -- apply (same_cache_trans _ st1); [exact Hcache | exact IHc].
        -- rewrite IHd. exact Hdisk.
Qed.

Lemma settleToken_cache (now : Z) (token : option string) (tokenExpiry : option Z)
    (st : State) :
  let result := settleToken now token tokenExpiry st in
  match fst result with
  | Some returned => returned <> "" -> cachedToken (snd result) = Some returned
  | None =>
      same_cache st (snd result)
      \/ (cachedToken (snd result) = None
          /\ cachedTokenExpiry (snd result) = 0
          /\ lastRefreshTime (snd result) = 0)
  end.
Proof.
  unfold settleToken.
  destruct (Js.truthy_str token && Js.truthy_num tokenExpiry
            && match tokenExpiry with Some e => e <? now | None => false end).
  - cbn. auto.
  - destruct (Js.truthy_str token) eqn:Htoken; cbn [fst snd].
    + destruct token as [t|]; [|discriminate]. reflexivity.
    + destruct token as [t|].
      * intros Hne. apply truthy_str_Some in Hne. congruence.
      * left. unfold same_cache. auto.
Qed.

(** X7. Token resolution talks to the host, the credential file and the token
    endpoint only: it sends no API request and sets no timer, leaves the
    request queue's time stamp alone, and begins by asking the host for its
    session. *)
Theorem resolution_sends_no_request_and_sets_no_timer (env : Env) (st : State) :
  let after := snd (getValidAccessToken env st) in
  head (events_since st after) = Some (clock st, GetAuth)
  /\ Forall (fun entry => resolution_event (snd entry) = true) (events_since st after)
  /\ fetch_calls (events_since st after) = []
  /\ lastRequestTime after = lastRequestTime st
  /\ clock st <= clock after.
Proof.
  intros after.
  destruct (getValidAccessToken_frame env st) as (Hlast & Hclock & evs & Htrace & Hall).
  fold after in Hlast, Hclock, Htrace.
  rewrite (events_since_app st after _ Htrace).
  assert (Hall' : Forall (fun entry => resolution_event (snd entry) = true)
                         ((clock st, GetAuth) :: evs)).
  { constructor; [reflexivity | exact Hall]. }
  repeat split; try assumption. apply fetch_calls_resolution, Hall'.
Qed.

(** X8. A non-empty token that [getValidAccessToken] returns is the cached token
    when the call ends.  When it returns null, the cache is either as it was
    before the call or has been reset. *)
Theorem returned_token_is_the_cached_token (env : Env) (st : State) :
  let result := getValidAccessToken env st in
  match fst result with
  | Some token => token <> "" -> cachedToken (snd result) = Some token
  | None =>
      same_cache st (snd result)
      \/ (cachedToken (snd result) = None
          /\ cachedTokenExpiry (snd result) = 0
          /\ lastRefreshTime (snd result) = 0)
  end.
Proof.
  intros result. subst result.
  pose proof (reconcile_state env st) as (Hcache & _).
  rewrite getValidAccessToken_unfold. cbv zeta.
  destruct (cacheIsFresh _ _).
  { cbn [fst snd]. destruct (cachedToken (snd (reconcile env st))); auto. }
  destruct (shouldRefresh _ _).
  - pose proof (refreshLoop_outcome env (refreshCandidates (fst (reconcile env st)))
                  (merged_accessToken (fst (reconcile env st)))
                  (merged_expiryDate (fst (reconcile env st)))
                  (snd (reconcile env st))) as Hloop.
    cbv zeta in Hloop.
    destruct (refreshLoop env _ _ _ (snd (reconcile env st)))
      as [[returned | token tokenExpiry] st3]; cbn [fst snd] in *.
    + destruct Hloop as (_ & _ & _ & _ & _ & _ & _ & Hc). intros _. exact Hc.
    + destruct Hloop as [Hc3 _].
      pose proof (settleToken_cache (clock (snd (reconcile env st))) token tokenExpiry st3)
        as Hsettle.
      cbv zeta in Hsettle.
      destruct (fst (settleToken _ token tokenExpiry st3)); [exact Hsettle|].
      destruct Hsettle as [Hs | Hs]; [left | right; exact Hs].
      apply (same_cache_trans _ st3); [|exact Hs].
      apply (same_cache_trans _ (snd (reconcile env st))); assumption.
  - pose proof (settleToken_cache (clock (snd (reconcile env st)))
                  (merged_accessToken (fst (reconcile env st)))
                  (merged_expiryDate (fst (reconcile env st)))
                  (snd (reconcile env st))) as Hsettle.
    cbv zeta in Hsettle.
    destruct (fst (settleToken _ _ _ (snd (reconcile env st)))); [exact Hsettle|].
    destruct Hsettle as [Hs | Hs]; [left | right; exact Hs].
    apply (same_cache_trans _ (snd (reconcile env st))); assumption.
Qed.

(** X9. [getValidAccessToken] leaves the credential file as it is, or replaces it
    with a credential the token endpoint returned for one of the refresh
    candidates; in that case it returns, and caches, that credential's access
    token. *)
Theorem credential_file_changes_only_by_a_refresh (env : Env) (st : State) :
  let merged := fst (reconcile env st) in
  let result := getValidAccessToken env st in
  disk (snd result) = disk st
  \/ exists h candidate refreshed,
       candidate ∈ refreshCandidates merged
       /\ snd (net_refreshAccessToken env h candidate) = Some refreshed
       /\ disk (snd result) = FileJson (stored_of refreshed)
       /\ fst result = Some (accessToken refreshed)
       /\ cachedToken (snd result) = Some (accessToken refreshed).
Proof.
  intros merged result. subst merged result.
  pose proof (reconcile_state env st) as (_ & _ & Hdisk & _).
  rewrite getValidAccessToken_unfold. cbv zeta.
  destruct (cacheIsFresh _ _); [left; exact Hdisk|].
  destruct (shouldRefresh _ _).
  - pose proof (refreshLoop_outcome env (refreshCandidates (fst (reconcile env st)))
                  (merged_accessToken (fst (reconcile env st)))
                  (merged_expiryDate (fst (reconcile env st)))
                  (snd (reconcile env st))) as Hloop.
    cbv zeta in Hloop.
    destruct (refreshLoop env _ _ _ (snd (reconcile env st)))
      as [[returned | token tokenExpiry] st3]; cbn [fst snd] in *.
    + right. destruct Hloop as (h & candidate & refreshed & Hin & Hnet & -> & Hd & Hc).
      exists h, candidate, refreshed. auto.
    + left. destruct Hloop as [_ Hd3].
      destruct (settleToken_trace (clock (snd (reconcile env st))) token tokenExpiry st3)
        as (_ & Hd & _).
      rewrite Hd, Hd3. exact Hdisk.
  - left.
    destruct (settleToken_trace (clock (snd (reconcile env st)))
                (merged_accessToken (fst (reconcile env st)))
                (merged_expiryDate (fst (reconcile env st)))
                (snd (reconcile env st))) as (_ & Hd & _).
    rewrite Hd. exact Hdisk.
Qed.

(** The body of [getValidAccessToken] past a cache test that fails. *)
Lemma getValidAccessToken_stale (env : Env) (st : State) :
  cacheIsFresh (clock st) st = false ->
  let merged := fst (reconcile env st) in
  let now := clock st in
  getValidAccessToken env st
  = if shouldRefresh now merged
    then match refreshLoop env (refreshCandidates merged)
                 (merged_accessToken merged) (merged_expiryDate merged)
                 (snd (reconcile env st)) with
         | (Returned token, st3) => (Some token, st3)
         | (Exhausted token tokenExpiry, st3) => settleToken now token tokenExpiry st3
         end
    else settleToken now (merged_accessToken merged) (merged_expiryDate merged)
                     (snd (reconcile env st)).
Proof.
  intros Hstale merged now.
  pose proof (reconcile_state env st) as (Hcache & _ & _ & Hclock & _).
  rewrite getValidAccessToken_unfold. cbv zeta.
  rewrite Hclock, (cacheIsFresh_same _ _ _ Hcache), Hstale. reflexivity.
Qed.

Lemma shouldRefresh_no_candidates (now : Z) (merged : MergedCredentials) :
  refreshCandidates merged = [] -> shouldRefresh now merged = false.
Proof. intros H. unfold shouldRefresh. rewrite H. reflexivity. Qed.

(** X10. With a stale cache, no access token in either source, and a token
    endpoint that rejects every refresh candidate, [getValidAccessToken]
    returns null after trying every candidate once, in order, and leaves the
    cache and the credential file exactly as they were. *)
Theorem no_token_and_failed_refresh_gives_null (env : Env) (st : State) :
  let merged := fst (reconcile env st) in
  let result := getValidAccessToken env st in
  cacheIsFresh (clock st) st = false ->
  merged_accessToken merged = None ->
  (forall c, c ∈ refreshCandidates merged -> refresh_fails env (trace st) c) ->
  fst result = None
  /\ refresh_calls (events_since st (snd result)) = refreshCandidates merged
  /\ same_cache st (snd result)
  /\ disk (snd result) = disk st.
Proof.
  intros merged result Hstale Hnone Hfail.
  pose proof (reconcile_state env st) as (Hcache & _ & Hdisk & _ & _).
  destruct (reconcile_no_refresh env st) as (evs0 & Htrace0 & Hevs0).
  assert (Hsettle : forall st3,
    settleToken (clock st) None (merged_expiryDate merged) st3 = (None, st3)).
  { intros st3. reflexivity. }
  subst result. rewrite (getValidAccessToken_stale env st Hstale). cbv zeta.
  fold merged. rewrite Hnone.
  destruct (shouldRefresh (clock st) merged) eqn:Hdue.
  - destruct (refreshLoop_all_fail env (refreshCandidates merged) None
                (merged_expiryDate merged) (snd (reconcile env st)))
      as (st' & Hloop & Hc & _ & Hdk & _ & evs & Hevs & Hkinds).
    { intros c Hin h Hp. apply (Hfail c Hin). etransitivity; [|exact Hp].
      rewrite Htrace0. apply prefix_app_r. reflexivity. }
    rewrite Hloop, Hsettle. cbn [fst snd]. split; [reflexivity|]. split; [|split].
    + rewrite (events_since_app st st' (evs0 ++ evs))
        by (rewrite Hevs, Htrace0, <- app_assoc; reflexivity).
      rewrite refresh_calls_app, Hevs0. cbn [app]. unfold refresh_calls.
      rewrite Hkinds. apply refresh_call_RefreshCall.
    + apply (same_cache_trans _ (snd (reconcile env st))); assumption.
    + rewrite Hdk. exact Hdisk.
  - rewrite Hsettle. cbn [fst snd]. split; [reflexivity|].
    split; [|split; assumption].
    rewrite (events_since_app st _ evs0 Htrace0), Hevs0.
    unfold shouldRefresh in Hdue. rewrite Hnone in Hdue.
    destruct (refreshCandidates merged); [reflexivity | discriminate].
Qed.

Lemma no_token_and_failed_refresh_witness :
  fst (getValidAccessToken silent_env (fresh_state 1700000000000 (FileJson refresh_only_file)))
  = None
  /\ refresh_calls
       (events_since (fresh_state 1700000000000 (FileJson refresh_only_file))
          (snd (getValidAccessToken silent_env
                  (fresh_state 1700000000000 (FileJson refresh_only_file)))))
     = ["R"].
Proof.
  destruct (no_token_and_failed_refresh_gives_null silent_env
              (fresh_state 1700000000000 (FileJson refresh_only_file)))
    as (Hnull & Hcalls & _).
  - reflexivity.
  - reflexivity.
  - intros c _ h _. reflexivity.
  - split; [exact Hnull | exact Hcalls].
Defined.

(** X11. With a stale cache, a known access token that has not expired is
    returned without any call to the token endpoint when no refresh is due:
    it is cached with its expiry (one hour from now when none is known),
    the cache is stamped with the time of the call, and the credential file
    is only read. *)
Theorem known_token_is_returned_and_cached (env : Env) (st : State) (token : string) :
  let merged := fst (reconcile env st) in
  let now := clock st in
  let result := getValidAccessToken env st in
  cacheIsFresh now st = false ->
  0 <= now ->
  merged_accessToken merged = Some token ->
  ~ refresh_due now merged ->
  (forall expiry, merged_expiryDate merged = Some expiry -> now <= expiry \/ expiry = 0) ->
  fst result = Some token
  /\ cachedToken (snd result) = Some token
  /\ cachedTokenExpiry (snd result) = Js.num_or (merged_expiryDate merged) (now + 3600000)
  /\ lastRefreshTime (snd result) = now
  /\ disk (snd result) = disk st
  /\ clock (snd result) = now
  /\ snd <$> events_since st (snd result)
     = GetAuth :: ExistsSync
       :: match disk st with FileMissing => [] | _ => [ReadFileSync] end.
Proof.
  intros merged now result Hstale Hnow Htoken Hnodue Hvalid.
  pose proof (reconcile_state env st) as (Hcache & _ & Hdisk & Hclock & Htrace).
  destruct (reconcile_merged env st) as (runtime & file & Hmerged).
  fold merged in Hmerged.
  assert (Hdue : shouldRefresh now merged = false).
  { destruct (shouldRefresh now merged) eqn:Hdue; [|reflexivity].
    exfalso. apply Hnodue. rewrite Hmerged in *. apply shouldRefresh_iff; assumption. }
  assert (Htruthy : Js.truthy_str (Some token) = true).
  { rewrite Hmerged in Htoken. exact (merged_accessToken_truthy _ _ _ Htoken). }
  subst result. rewrite (getValidAccessToken_stale env st Hstale). cbv zeta.
  fold merged now. rewrite Hdue, Htoken. unfold settleToken. rewrite Htruthy.
  assert (Hlive : Js.truthy_num (merged_expiryDate merged)
                  && match merged_expiryDate merged with
                     | Some e => e <? now
                     | None => false
                     end = false).
  { destruct (merged_expiryDate merged) as [e|]; [|reflexivity].
    cbn [Js.truthy_num]. destruct (Hvalid e eq_refl) as [He | ->]; [|reflexivity].
    destruct (Z.ltb_spec e now); [lia|]. apply andb_false_r. }
  cbn [andb]. rewrite Hlive. cbn [fst snd set_cache cachedToken cachedTokenExpiry
                                    lastRefreshTime disk clock trace].
  rewrite Hclock. fold now. repeat split; try assumption.
  match goal with
  | |- context [events_since st ?after] =>
      rewrite (events_since_app st after _ Htrace)
  end.
  destruct (disk st); reflexivity.
Qed.

Lemma known_token_witness :
  fst (getValidAccessToken silent_env
         (fresh_state 1700000000000 (FileJson (stored_of sample_credentials))))
  = Some "at-1"
  /\ cachedTokenExpiry
       (snd (getValidAccessToken silent_env
               (fresh_state 1700000000000 (FileJson (stored_of sample_credentials)))))
     = 1700003600000.
Proof.
  destruct (known_token_is_returned_and_cached silent_env
              (fresh_state 1700000000000 (FileJson (stored_of sample_credentials))) "at-1")
    as (Htoken & _ & Hexpiry & _).
  - reflexivity.
  - cbn. lia.
  - reflexivity.
  - intros (_ & [H | [H | (expiry & H & Hlt)]]); try discriminate.
    injection H as <-. cbn in Hlt. lia.
  - intros expiry [= <-]. left. cbn. lia.
  - split; [exact Htoken | exact Hexpiry].
Defined.

(** The body of [getValidAccessToken] when the cache test succeeds. *)
Lemma getValidAccessToken_fresh (env : Env) (st : State) :
  cacheIsFresh (clock st) st = true ->
  getValidAccessToken env st
  = (cachedToken (snd (reconcile env st)), snd (reconcile env st)).
Proof.
  intros Hfresh.
  pose proof (reconcile_state env st) as (Hcache & _ & _ & Hclock & _).
  rewrite getValidAccessToken_unfold. cbv zeta.
  rewrite Hclock, (cacheIsFresh_same _ _ _ Hcache), Hfresh. reflexivity.
Qed.

(** The state a successful refresh leaves behind. *)
Lemma getValidAccessToken_refreshed (env : Env) (st : State)
    (failed : list string) (good : string) (rest : list string)
    (refreshed : QwenCredentials) :
  let merged := fst (reconcile env st) in
  let result := getValidAccessToken env st in
  cacheIsFresh (clock st) st = false ->
  0 <= clock st ->
  refresh_due (clock st) merged ->
  refreshCandidates merged = failed ++ good :: rest ->
  (forall c, c ∈ failed -> refresh_fails env (trace st) c) ->
  refresh_succeeds env (trace st) good refreshed ->
  disk_writable env (trace st) ->
  fst result = Some (accessToken refreshed)
  /\ cachedToken (snd result) = Some (accessToken refreshed)
  /\ cachedTokenExpiry (snd result)
     = Js.num_or (expiryDate refreshed) (clock (snd result) + 3600000)
  /\ lastRefreshTime (snd result) = clock (snd result)
  /\ disk (snd result) = FileJson (stored_of refreshed).
Proof.
  intros merged result Hstale Hnow Hd Hcands Hfail Hgood Hwrite.
  destruct (reconcile_no_refresh env st) as (evs0 & Htrace0 & _).
  destruct (reconcile_merged env st) as (runtime & file & Hmerged).
  fold merged in Hmerged.
  assert (Hdue : shouldRefresh (clock st) merged = true).
  { rewrite Hmerged in *. apply shouldRefresh_iff; assumption. }
  assert (Hprefix : trace st `prefix_of` trace (snd (reconcile env st))).
  { rewrite Htrace0. apply prefix_app_r. reflexivity. }
  subst result. rewrite (getValidAccessToken_stale env st Hstale). cbv zeta.
  fold merged. rewrite Hdue, Hcands.
  destruct (refreshLoop_first_success env failed good rest refreshed
              (merged_accessToken merged) (merged_expiryDate merged)
              (snd (reconcile env st)))
    as (st' & Hloop & Hc & He & Hl & Hdk & _).
  { intros c Hin h Hp. apply (Hfail c Hin). etransitivity; eassumption. }
  { intros h Hp. apply Hgood. etransitivity; eassumption. }
  { intros h Hp. apply Hwrite. etransitivity; eassumption. }
  rewrite Hloop. cbn [fst snd]. auto.
Qed.

(** X12. A call that follows a successful refresh at once is served from the
    cache: when the refreshed credential has a non-empty access token and
    its expiry, if it has one, is still ahead, the next call returns the
    refreshed token without calling the token endpoint and without touching
    the cache or the credential file, whatever the host session now says. *)
Theorem refreshed_token_is_served_from_cache (env : Env) (st : State)
    (failed : list string) (good : string) (rest : list string)
    (refreshed : QwenCredentials) :
  let merged := fst (reconcile env st) in
  let first := getValidAccessToken env st in
  let second := getValidAccessToken env (snd first) in
  cacheIsFresh (clock st) st = false ->
  0 <= clock st ->
  refresh_due (clock st) merged ->
  refreshCandidates merged = failed ++ good :: rest ->
  (forall c, c ∈ failed -> refresh_fails env (trace st) c) ->
  refresh_succeeds env (trace st) good refreshed ->
  disk_writable env (trace st) ->
  accessToken refreshed <> "" ->
  (forall expiry, expiryDate refreshed = Some expiry ->
     clock (snd first) < expiry \/ expiry = 0) ->
  fst second = Some (accessToken refreshed)
  /\ refresh_calls (events_since (snd first) (snd second)) = []
  /\ same_cache (snd first) (snd second)
  /\ disk (snd second) = FileJson (stored_of refreshed).
Proof.
  intros merged first second Hstale Hnow Hd Hcands Hfail Hgood Hwrite Htoken Hexpiry.
  destruct (getValidAccessToken_refreshed env st failed good rest refreshed
              Hstale Hnow Hd Hcands Hfail Hgood Hwrite)
    as (_ & Hc & He & Hl & Hdk).
  fold first in Hc, He, Hl, Hdk.
  assert (Hfresh : cacheIsFresh (clock (snd first)) (snd first) = true).
  { unfold cacheIsFresh. rewrite Hc, He, Hl.
    apply truthy_str_Some in Htoken. rewrite Htoken. cbn [andb].
    apply andb_true_iff. split; apply Z.ltb_lt; [|unfold TOKEN_CACHE_DURATION; lia].
    unfold Js.num_or. destruct (expiryDate refreshed) as [e|]; cbn [Js.truthy_num]; [|lia].
    destruct (Hexpiry e eq_refl) as [Hlt | ->]; [|cbn; lia].
    destruct (Z.eqb_spec e 0); cbn [negb]; lia. }
  pose proof (reconcile_state env (snd first)) as (Hcache & _ & Hdisk & _ & _).
  destruct (reconcile_no_refresh env (snd first)) as (evs0 & Htrace0 & Hevs0).
  subst second. rewrite (getValidAccessToken_fresh env (snd first) Hfresh). cbn [fst snd].
  split; [|split; [|split]].
  - destruct Hcache as (<- & _). exact Hc.
  - rewrite (events_since_app _ _ _ Htrace0). exact Hevs0.
  - exact Hcache.
  - rewrite Hdisk. exact Hdk.
Qed.

Lemma refreshed_token_witness :
  fst (getValidAccessToken renewing_env
         (snd (getValidAccessToken renewing_env stale_session)))
  = Some "new-token"
  /\ refresh_calls
       (events_since (snd (getValidAccessToken renewing_env stale_session))
          (snd (getValidAccessToken renewing_env
                  (snd (getValidAccessToken renewing_env stale_session)))))
     = [].
Proof.
  destruct (refreshed_token_is_served_from_cache renewing_env stale_session
              ["stale"] "good" [] renewed_credentials)
    as (Htoken & Hcalls & _).
  - reflexivity.
  - cbn. lia.
  - split; [discriminate|]. right. right. exists 1699999000000.
    split; [reflexivity | cbn; lia].
  - reflexivity.
  - intros c Hin h _. apply list_elem_of_singleton in Hin as ->. reflexivity.
  - intros h _. reflexivity.
  - intros h _. reflexivity.
  - discriminate.
  - intros expiry [= <-]. left. vm_compute. reflexivity.
  - split; [exact Htoken | exact Hcalls].
Defined.

(** ** The [fetch] wrapper: headers and the requests it sends *)

Lemma http_fetch_state (env : Env) (request : Request) (st : State) :
  let result := http_fetch env request st in
  fst result = match snd (net_fetch env (trace st) request) with
               | Some response => Responded response
               | None => Thrown "fetch failed"
               end
  /\ trace (snd result) = trace st ++ [(clock st, FetchCall request)]
  /\ clock (snd result) = clock st + Z.of_N (fst (net_fetch env (trace st) request))
  /\ lastRequestTime (snd result) = lastRequestTime st
  /\ same_cache st (snd result)
  /\ disk (snd result) = disk st.
Proof.
  unfold http_fetch, same_cache.
  destruct (net_fetch env (trace st) request) as [duration outcome].
  cbn. repeat split.
Qed.

Lemma sleep_state (ms : option Z) (st : State) :
  trace (sleep ms st) = trace st ++ [(clock st, Sleep ms)]
  /\ clock (sleep ms st) = clock st + setTimeout_delay ms
  /\ lastRequestTime (sleep ms st) = lastRequestTime st
  /\ same_cache st (sleep ms st)
  /\ disk (sleep ms st) = disk st.
Proof. unfold sleep, same_cache. cbn. repeat split. Qed.

Lemma setTimeout_delay_pos (ms : option Z) : 1 <= setTimeout_delay ms.
Proof.
  unfold setTimeout_delay. destruct ms as [d|]; [|lia].
  destruct (Z.leb_spec 1 d); cbn [andb]; [|lia].
  destruct (Z.leb_spec d 2147483647); lia.
Qed.

(** What [dispatch] sends, whatever the network answers: the request it was
    given, then nothing more, or the same request once more, or the request
    with the Authorization header of a different, non-empty token. *)
Lemma dispatch_requests (env : Env) (input init : string) (headers : gmap string string)
    (token : string) (st : State) :
  let request := request_of input init headers in
  let after := snd (dispatch env input init headers token st) in
  lastRequestTime after = lastRequestTime st
  /\ clock st <= clock after
  /\ exists evs,
       trace after = trace st ++ (clock st, FetchCall request) :: evs
       /\ (fetch_calls evs = []
           \/ fetch_calls evs = [request]
           \/ exists retried,
                retried <> "" /\ retried <> token
                /\ fetch_calls evs
                   = [request_of input init
                        (<["authorization" := "Bearer " +:+ retried]> headers)]).
Proof.
  intros request after. subst after. unfold dispatch. fold request.
  pose proof (http_fetch_state env request st) as (Hfst & Htrace & Hclock & Hlast & _).
  cbv zeta in Hfst, Htrace, Hclock, Hlast.
  destruct (http_fetch env request st) as [[response | message] st1]; cbn [fst snd] in *.
  2:{ split; [exact Hlast|]. split; [lia|]. exists []. split; [exact Htrace | auto]. }
  destruct ((status response =? 401) || (status response =? 403)) eqn:Hauth.
  - pose proof (getValidAccessToken_frame env (resetTokenCache st1))
      as (Hl & Hc & evs & Hevs & Hall).
    cbv zeta in Hl, Hc, Hevs.
    apply fetch_calls_resolution in Hall.
    destruct (getValidAccessToken env (resetTokenCache st1)) as [retriedToken st'].
    cbn [fst snd resetTokenCache set_cache trace clock lastRequestTime] in *.
    assert (Hnot429 : (status response =? 429) = false).
    { apply orb_true_iff in Hauth as [H | H]; apply Z.eqb_eq in H; rewrite H; reflexivity. }
    destruct (Js.truthy_str retriedToken && negb (bool_decide (retriedToken = Some token)))
      eqn:Hcond.
    + apply andb_true_iff in Hcond as [Htruthy Hdiff].
      destruct retriedToken as [retried|]; [|discriminate].
      apply truthy_str_Some in Htruthy. apply negb_true_iff, bool_decide_eq_false in Hdiff.
      pose proof (http_fetch_state env
                    (request_of input init
                       (<["authorization" := "Bearer " +:+ retried]> headers)) st')
        as (_ & Ht2 & Hc2 & Hl2 & _).
      cbv zeta in Ht2, Hc2, Hl2.
      split; [congruence|]. split; [lia|].
      eexists. split.
      * rewrite Ht2, Hevs, Htrace, <- !app_assoc. cbn [app]. reflexivity.
      * right. right. exists retried. split; [exact Htruthy|]. split; [congruence|].
        change ((clock st1, GetAuth) :: evs ++ [(clock st', FetchCall ?r)])
          with ([(clock st1, GetAuth)] ++ evs ++ [(clock st', FetchCall r)]).
        rewrite !fetch_calls_app, Hall. reflexivity.
    + rewrite Hnot429. cbn [snd].
      split; [congruence|]. split; [lia|].
      eexists. split.
      * rewrite Hevs, Htrace, <- !app_assoc. cbn [app]. reflexivity.
      * left. change ((clock st1, GetAuth) :: evs) with ([(clock st1, GetAuth)] ++ evs).
        rewrite fetch_calls_app, Hall. reflexivity.
  - destruct (status response =? 429).
    + pose proof (sleep_state
                    ((fun seconds => seconds * 1000)
                       <$> parseInt (Js.str_or (retry_after response) "60")) st1)
        as (Hts & Hcs & Hls & _).
      pose proof (setTimeout_delay_pos
                    ((fun seconds => seconds * 1000)
                       <$> parseInt (Js.str_or (retry_after response) "60"))) as Hpos.
      pose proof (http_fetch_state env request
                    (sleep ((fun seconds => seconds * 1000)
                              <$> parseInt (Js.str_or (retry_after response) "60")) st1))
        as (_ & Ht2 & Hc2 & Hl2 & _).
      cbv zeta in Ht2, Hc2, Hl2.
      split; [congruence|]. split; [lia|].
      eexists. split.
      * rewrite Ht2, Hts, Htrace, <- !app_assoc. cbn [app]. reflexivity.
      * right. left. reflexivity.
    + cbn [snd]. split; [exact Hlast|]. split; [lia|].
      exists []. split; [exact Htrace | auto].
Qed.

Lemma buildHeaders_lookup (env : Env) (init_headers : gmap string string) (token name : string) :
  buildHeaders env init_headers token !! name
  = if decide ("x-dashscope-authtype" = name) then Some "qwen-oauth"
    else if decide ("x-dashscope-useragent" = name) then Some (userAgent env)
    else if decide ("x-dashscope-cachecontrol" = name) then Some "enable"
    else if decide ("user-agent" = name) then Some (userAgent env)
    else if decide ("authorization" = name) then Some ("Bearer " +:+ token)
    else init_headers !! name.
Proof. unfold buildHeaders. rewrite !lookup_insert. reflexivity. Qed.

Lemma buildHeaders_reauthorized (env : Env) (init_headers : gmap string string)
    (token retried : string) :
  <["authorization" := "Bearer " +:+ retried]> (buildHeaders env init_headers token)
  = buildHeaders env init_headers retried.
Proof.
  apply map_eq. intros name. rewrite lookup_insert, !buildHeaders_lookup.
  destruct (decide ("authorization" = name)) as [<-|]; reflexivity.
Qed.

(** X13. The five headers the wrapper sets replace whatever the caller passed
    under those names; every other header of the caller is sent unchanged. *)
Theorem wrapper_headers_override_the_callers (env : Env)
    (init_headers : gmap string string) (token : string) :
  let headers := buildHeaders env init_headers token in
  headers !! "authorization" = Some ("Bearer " +:+ token)
  /\ headers !! "user-agent" = Some (userAgent env)
  /\ headers !! "x-dashscope-cachecontrol" = Some "enable"
  /\ headers !! "x-dashscope-useragent" = Some (userAgent env)
  /\ headers !! "x-dashscope-authtype" = Some "qwen-oauth"
  /\ forall name, name ∉ wrapper_headers -> headers !! name = init_headers !! name.
Proof.
  intros headers. subst headers. rewrite !buildHeaders_lookup.
  repeat (split; [reflexivity|]).
  intros name Hname. rewrite buildHeaders_lookup. unfold wrapper_headers in Hname.
  rewrite !not_elem_of_cons in Hname. destruct Hname as (H1 & H2 & H3 & H4 & H5 & _).
  repeat match goal with
         | |- context [decide (?k = name)] => destruct (decide (k = name)); [congruence|]
         end.
  reflexivity.
Qed.

(** X14. [dispatch] sends the request it was given first and at most one request
    more, to the same input with the same options; it never touches the
    queue's time stamp, and time only moves forward. *)
Theorem dispatch_sends_at_most_two_requests (env : Env) (input init : string)
    (headers : gmap string string) (token : string) (st : State) :
  let request := request_of input init headers in
  let after := snd (dispatch env input init headers token st) in
  (exists later,
     fetch_calls (events_since st after) = request :: later
     /\ (length later <= 1)%nat
     /\ Forall (fun sent => req_input sent = input /\ req_init sent = init) later)
  /\ lastRequestTime after = lastRequestTime st
  /\ clock st <= clock after.
Proof.
  intros request after.
  destruct (dispatch_requests env input init headers token st)
    as (Hlast & Hclock & evs & Htrace & Hcalls).
  fold request after in Hlast, Hclock, Htrace, Hcalls.
  split; [|split; assumption].
  exists (fetch_calls evs). rewrite (events_since_app st after _ Htrace).
  split; [reflexivity|].
  destruct Hcalls as [-> | [-> | (retried & _ & _ & ->)]]; cbn [length];
    (split; [lia|]); repeat constructor.
Qed.

(** X15. An answer other than 401, 403 and 429, and a failure of the network, are
    handed to the caller as they are after the one request: nothing is
    retried, no timer is set, and the token cache and the credential file
    are not touched. *)
Theorem other_answers_are_passed_through (env : Env) (input init : string)
    (headers : gmap string string) (token : string) (st : State) :
  let request := request_of input init headers in
  let result := dispatch env input init headers token st in
  (forall response, snd (net_fetch env (trace st) request) = Some response ->
     status response <> 401 /\ status response <> 403 /\ status response <> 429) ->
  fst result = answered env st request
  /\ events_since st (snd result) = [(clock st, FetchCall request)]
  /\ same_cache st (snd result)
  /\ disk (snd result) = disk st
  /\ lastRequestTime (snd result) = lastRequestTime st.
Proof.
  intros request result Hplain.
  pose proof (http_fetch_state env request st) as (Hfst & Htrace & _ & Hlast & Hcache & Hdisk).
  cbv zeta in Hfst, Htrace, Hlast, Hcache, Hdisk.
  assert (Hresult : result = http_fetch env request st).
  { subst result. unfold dispatch. fold request.
    destruct (http_fetch env request st) as [[response | message] st1]; [|reflexivity].
    cbn [fst] in Hfst.
    destruct (snd (net_fetch env (trace st) request)) as [r|]; [|discriminate].
    injection Hfst as ->. destruct (Hplain r eq_refl) as (H401 & H403 & H429).
    destruct (Z.eqb_spec (status r) 401); [contradiction|].
    destruct (Z.eqb_spec (status r) 403); [contradiction|].
    destruct (Z.eqb_spec (status r) 429); [contradiction|]. reflexivity. }
  rewrite Hresult. unfold answered. repeat split; try assumption; try apply Hcache.
  apply (events_since_app _ _ _ Htrace).
Qed.

Lemma other_answers_witness :
  fst (dispatch rejecting_env "/chat/completions" "{}"
         (buildHeaders rejecting_env ∅ "new-token") "new-token" warm_state)
  = Responded completed
  /\ fetch_calls
       (events_since warm_state
          (snd (dispatch rejecting_env "/chat/completions" "{}"
                  (buildHeaders rejecting_env ∅ "new-token") "new-token" warm_state)))
     = [request_of "/chat/completions" "{}" (buildHeaders rejecting_env ∅ "new-token")].
Proof.
  destruct (other_answers_are_passed_through rejecting_env "/chat/completions" "{}"
              (buildHeaders rejecting_env ∅ "new-token") "new-token" warm_state)
    as (Hanswer & Hevents & _).
  - intros response. vm_compute. intros [= <-]. repeat split; discriminate.
  - split; [rewrite Hanswer; reflexivity | rewrite Hevents; reflexivity].
Defined.

(** X16. Without a token the wrapper throws before anything is sent: no API
    request, no timer, and the queue's time stamp is left as it was. *)
Theorem no_token_means_no_request (env : Env) (input init : string)
    (init_headers : gmap string string) (st : State) :
  let result := qwen_fetch env input init init_headers st in
  Js.truthy_str (fst (getValidAccessToken env st)) = false ->
  (exists message, fst result = Thrown message)
  /\ snd result = snd (getValidAccessToken env st)
  /\ fetch_calls (events_since st (snd result)) = []
  /\ Forall (fun entry => is_sleep (snd entry) = false) (events_since st (snd result))
  /\ lastRequestTime (snd result) = lastRequestTime st.
Proof.
  intros result Hnone.
  destruct (getValidAccessToken_frame env st) as (Hlast & _ & evs & Htrace & Hall).
  cbv zeta in Hlast, Htrace.
  assert (Hresult : snd result = snd (getValidAccessToken env st)
                    /\ exists message, fst result = Thrown message).
  { subst result. unfold qwen_fetch.
    destruct (getValidAccessToken env st) as [accessToken st1]. cbn [fst snd] in *.
    rewrite Hnone. cbn [negb fst snd]. eauto. }
  destruct Hresult as [Hsnd Hfst]. rewrite Hsnd.
  assert (Hall' : Forall (fun entry => resolution_event (snd entry) = true)
                         ((clock st, GetAuth) :: evs)).
  { constructor; [reflexivity | exact Hall]. }
  rewrite (events_since_app _ _ _ Htrace).
  repeat split; try assumption.
  - apply fetch_calls_resolution, Hall'.
  - eapply Forall_impl; [exact Hall'|]. intros [t e]. cbn [snd].
    destruct e; cbn; congruence.
Qed.

Lemma no_token_witness :
  fetch_calls
    (events_since (fresh_state 1700000000000 FileMissing)
       (snd (qwen_fetch silent_env "/chat/completions" "{}" ∅
               (fresh_state 1700000000000 FileMissing))))
  = [].
Proof.
  destruct (no_token_means_no_request silent_env "/chat/completions" "{}" ∅
              (fresh_state 1700000000000 FileMissing)) as (_ & _ & Hcalls & _).
  - reflexivity.
  - exact Hcalls.
Defined.

(** X17. Every request the wrapper sends for a call [fetch(input, init)] goes to
    the caller's input with the caller's options, and carries the wrapper's
    five headers with a bearer token that is not empty; there are at most
    two of them. *)
Theorem every_request_is_authorized (env : Env) (input init : string)
    (init_headers : gmap string string) (st : State) :
  let sent := fetch_calls (events_since st (snd (qwen_fetch env input init init_headers st))) in
  Forall (authorized_request env input init init_headers) sent
  /\ (length sent <= 2)%nat.
Proof.
  intros sent. subst sent.
  destruct (getValidAccessToken_frame env st) as (_ & _ & evs & Htrace & Hall).
  cbv zeta in Htrace.
  assert (Hall' : fetch_calls ((clock st, GetAuth) :: evs) = []).
  { apply fetch_calls_resolution. constructor; [reflexivity | exact Hall]. }
  unfold qwen_fetch.
  destruct (getValidAccessToken env st) as [accessToken st1]. cbn [fst snd] in *.
  destruct (Js.truthy_str accessToken) eqn:Htruthy; cbn [negb snd].
  2:{ rewrite (events_since_app _ _ _ Htrace), Hall'. split; [constructor | cbn; lia]. }
  destruct accessToken as [token|]; [|discriminate]. cbn [default from_option]. unfold id.
  apply truthy_str_Some in Htruthy.
  unfold enqueue_quoted.
  assert (Hturn : exists waits, trace (await_turn_with 0 st1) = trace st1 ++ waits
                                /\ fetch_calls waits = []).
  { unfold await_turn_with.
    destruct (0 <? _); cbn [set_lastRequestTime trace sleep tick log].
    - eexists. split; reflexivity.
    - exists []. rewrite app_nil_r. split; reflexivity. }
  destruct Hturn as (waits & Hwaits & Hnone).
  destruct (dispatch_requests env input init (buildHeaders env init_headers token) token
              (await_turn_with 0 st1)) as (_ & _ & evs' & Htrace' & Hcalls).
  cbv zeta in Htrace'.
  rewrite (events_since_app st _
             (((clock st, GetAuth) :: evs) ++ waits
              ++ (clock (await_turn_with 0 st1),
                  FetchCall (request_of input init (buildHeaders env init_headers token)))
                 :: evs'))
    by (rewrite Htrace', Hwaits, Htrace, <- !app_assoc; reflexivity).
  rewrite !fetch_calls_app, Hall', Hnone. cbn [app].
  change (fetch_calls ((?t, FetchCall ?r) :: evs')) with (r :: fetch_calls evs').
  assert (Hfirst : authorized_request env input init init_headers
                     (request_of input init (buildHeaders env init_headers token))).
  { repeat split. exists token. split; [exact Htruthy | reflexivity]. }
  destruct Hcalls as [-> | [-> | (retried & Hne & _ & ->)]]; cbn [length].
  - split; [constructor; [exact Hfirst | constructor] | lia].
  - split; [|lia]. constructor; [exact Hfirst|]. constructor; [exact Hfirst | constructor].
  - split; [|lia]. constructor; [exact Hfirst|]. constructor; [|constructor].
    repeat split. exists retried. split; [exact Hne|].
    cbn [req_headers request_of]. apply buildHeaders_reauthorized.
Qed.

Lemma rate_limited_witness :
  snd <$> events_since warm_state
            (snd (dispatch (throttling_env (Some "2")) "/chat/completions" "{}" ∅
                    "cached-token" warm_state))
  = [FetchCall (request_of "/chat/completions" "{}" ∅); Sleep (Some 2000);
     FetchCall (request_of "/chat/completions" "{}" ∅)]
  /\ lastRequestTime
       (snd (dispatch (throttling_env (Some "2")) "/chat/completions" "{}" ∅
               "cached-token" warm_state))
     = lastRequestTime warm_state.
Proof.
  destruct (dispatch_rate_limited (throttling_env (Some "2")) "/chat/completions" "{}" ∅
              "cached-token" warm_state 50%N (throttled (Some "2")))
    as (_ & Hevents & Hlast & _).
  - reflexivity.
  - reflexivity.
  - split; [exact Hevents | exact Hlast].
Defined.

(** ** Device-flow polling: every run of the callback *)

Lemma after_poll_frame (env : Env) (interval : Z) (st : State) :
  same_cache st (after_poll env interval st)
  /\ lastRequestTime (after_poll env interval st) = lastRequestTime st.
Proof.
  unfold after_poll, pollDeviceToken, sleep, same_cache.
  destruct (net_pollDeviceToken env _) as [duration outcome]. cbn. auto.
Qed.

Lemma wait_times_app (h1 h2 : History) : wait_times (h1 ++ h2) = wait_times h1 ++ wait_times h2.
Proof. apply omap_app. Qed.

Lemma poll_times_app (h1 h2 : History) : poll_times (h1 ++ h2) = poll_times h1 ++ poll_times h2.
Proof. apply omap_app. Qed.

(** What one run of the polling loop does, from any round on. *)
Lemma pollingLoop_run (env : Env) (startTime timeoutMs : Z) (fuel : nat) :
  forall interval st,
    interval ∈ [5000; 10000; 15000] ->
    let result := pollingLoop fuel env startTime timeoutMs interval st in
    exists evs,
      trace (snd result) = trace st ++ evs
      /\ same_cache st (snd result)
      /\ lastRequestTime (snd result) = lastRequestTime st
      /\ clock st <= clock (snd result)
      /\ Forall (fun w => interval + 3000 <= w /\ w ∈ [8000; 13000; 18000]) (wait_times evs)
      /\ StronglySorted Z.le (wait_times evs)
      /\ (forall w, head (wait_times evs) = Some w -> w = interval + 3000)
      /\ length (wait_times evs) = length (poll_times evs)
      /\ Forall (fun t => clock st + 8000 <= t /\ t - startTime < timeoutMs + 18000)
                (poll_times evs)
      /\ (poll_times evs = []
          \/ clock st - startTime + 8000 * (Z.of_nat (length (poll_times evs)) - 1) < timeoutMs)
      /\ match fst result with
         | Some (AuthSuccess access refresh expires) =>
             exists credentials,
               disk (snd result) = FileJson (stored_of credentials)
               /\ access = accessToken credentials
               /\ refresh = default "" (refreshToken credentials)
               /\ expires = Js.num_or (expiryDate credentials) (clock (snd result) + 3600000)
               /\ last evs = Some (clock (snd result), WriteFileSync (stored_of credentials))
         | _ => disk (snd result) = disk st
         end.
Proof.
  induction fuel as [|fuel IH]; intros interval st Hinterval.
  { exists []. cbn. rewrite app_nil_r. unfold same_cache.
    repeat split; try lia; try constructor; try reflexivity. discriminate. }
  assert (Hrange : 5000 <= interval <= 15000).
  { rewrite !elem_of_cons in Hinterval.
    destruct Hinterval as [-> | [-> | [-> | H]]]; [lia | lia | lia | inversion H]. }
  assert (Hwait : interval + 3000 ∈ [8000; 13000; 18000]).
  { rewrite !elem_of_cons in Hinterval. rewrite !elem_of_cons.
    destruct Hinterval as [-> | [-> | [-> | H]]]; [auto | auto | auto | inversion H]. }
  assert (Hnext : Z.min (interval + 5000) 15000 ∈ [5000; 10000; 15000]).
  { rewrite !elem_of_cons in Hinterval. rewrite !elem_of_cons.
    destruct Hinterval as [-> | [-> | [-> | H]]]; [auto | auto | auto | inversion H]. }
  rewrite pollingLoop_S. cbv zeta.
  destruct (Z.ltb_spec (clock st - startTime) timeoutMs) as [Hin | Hout].
  2:{ exists []. cbn. rewrite app_nil_r. unfold same_cache.
      repeat split; try lia; try constructor; try reflexivity. discriminate. }
  pose proof (after_poll_state env interval st Hrange) as (Hpoll & Htrace & Hclock & Hdisk).
  pose proof (after_poll_frame env interval st) as (Hcache & Hlast).
  cbv zeta in Hpoll, Htrace, Hclock, Hdisk.
  rewrite Hpoll. unfold POLLING_MARGIN_MS in *.
  set (st2 := after_poll env interval st) in *.
  set (round := [(clock st, Sleep (Some (interval + 3000)));
                 (clock st + (interval + 3000), PollCall)]).
  assert (Htrace2 : trace st2 = trace st ++ round).
  { rewrite Htrace, <- app_assoc. reflexivity. }
  assert (Hdelay : setTimeout_delay (Some (interval + 3000)) = interval + 3000).
  { unfold setTimeout_delay.
    destruct (Z.leb_spec 1 (interval + 3000)), (Z.leb_spec (interval + 3000) 2147483647);
      cbn [andb]; lia. }
  assert (Hwaits : wait_times round = [interval + 3000]).
  { unfold round, wait_times. cbn [omap list_omap wait_time snd]. rewrite Hdelay. reflexivity. }
  assert (Hpolls : poll_times round = [clock st + (interval + 3000)]) by reflexivity.
  assert (Hlatency : clock st + interval + 3000 <= clock st2) by lia.
  assert (Hstop : forall (outcome : AuthResult) st3 more,
    trace st3 = trace st2 ++ more -> wait_times more = [] -> poll_times more = [] ->
    same_cache st2 st3 -> lastRequestTime st3 = lastRequestTime st2 ->
    clock st3 = clock st2 ->
    match outcome with
    | AuthSuccess access refresh expires =>
        exists credentials,
          disk st3 = FileJson (stored_of credentials)
          /\ access = accessToken credentials
          /\ refresh = default "" (refreshToken credentials)
          /\ expires = Js.num_or (expiryDate credentials) (clock st3 + 3600000)
          /\ last (round ++ more) = Some (clock st3, WriteFileSync (stored_of credentials))
    | AuthFailed => disk st3 = disk st
    end ->
    exists evs,
      trace st3 = trace st ++ evs
      /\ same_cache st st3
      /\ lastRequestTime st3 = lastRequestTime st
      /\ clock st <= clock st3
      /\ Forall (fun w => interval + 3000 <= w /\ w ∈ [8000; 13000; 18000]) (wait_times evs)
      /\ StronglySorted Z.le (wait_times evs)
      /\ (forall w, head (wait_times evs) = Some w -> w = interval + 3000)
      /\ length (wait_times evs) = length (poll_times evs)
      /\ Forall (fun t => clock st + 8000 <= t /\ t - startTime < timeoutMs + 18000)
                (poll_times evs)
      /\ (poll_times evs = []
          \/ clock st - startTime + 8000 * (Z.of_nat (length (poll_times evs)) - 1) < timeoutMs)
      /\ match outcome with
         | AuthSuccess access refresh expires =>
             exists credentials,
               disk st3 = FileJson (stored_of credentials)
               /\ access = accessToken credentials
               /\ refresh = default "" (refreshToken credentials)
               /\ expires = Js.num_or (expiryDate credentials) (clock st3 + 3600000)
               /\ last evs = Some (clock st3, WriteFileSync (stored_of credentials))
         | AuthFailed => disk st3 = disk st
         end).
  { intros outcome st3 more Ht3 Hw3 Hp3 Hc3 Hl3 Hk3 Hout.
    exists (round ++ more). rewrite wait_times_app, poll_times_app, Hw3, Hp3, Hwaits, Hpolls.
    cbn [app length].
    split; [rewrite Ht3, Htrace2, <- app_assoc; reflexivity|].
    split; [destruct Hcache as (? & ? & ?), Hc3 as (? & ? & ?); unfold same_cache;
            repeat split; congruence|].
    split; [congruence|]. split; [lia|].
    split; [constructor; [split; [lia | exact Hwait] | constructor]|].
    split; [repeat constructor|]. split; [intros w [= <-]; reflexivity|].
    split; [reflexivity|].
    split; [constructor; [lia | constructor]|].
    split; [right; lia|]. exact Hout. }
  assert (Hgo : forall interval',
    interval' ∈ [5000; 10000; 15000] -> interval <= interval' ->
    let result := pollingLoop fuel env startTime timeoutMs interval' st2 in
    exists evs,
      trace (snd result) = trace st ++ evs
      /\ same_cache st (snd result)
      /\ lastRequestTime (snd result) = lastRequestTime st
      /\ clock st <= clock (snd result)
      /\ Forall (fun w => interval + 3000 <= w /\ w ∈ [8000; 13000; 18000]) (wait_times evs)
      /\ StronglySorted Z.le (wait_times evs)
      /\ (forall w, head (wait_times evs) = Some w -> w = interval + 3000)
      /\ length (wait_times evs) = length (poll_times evs)
      /\ Forall (fun t => clock st + 8000 <= t /\ t - startTime < timeoutMs + 18000)
                (poll_times evs)
      /\ (poll_times evs = []
          \/ clock st - startTime + 8000 * (Z.of_nat (length (poll_times evs)) - 1) < timeoutMs)
      /\ match fst result with
         | Some (AuthSuccess access refresh expires) =>
             exists credentials,
               disk (snd result) = FileJson (stored_of credentials)
               /\ access = accessToken credentials
               /\ refresh = default "" (refreshToken credentials)
               /\ expires = Js.num_or (expiryDate credentials) (clock (snd result) + 3600000)
               /\ last evs = Some (clock (snd result), WriteFileSync (stored_of credentials))
         | _ => disk (snd result) = disk st
         end).
  { intros interval' Hin' Hle result.
    destruct (IH interval' st2 Hin')
      as (evs & Ht & Hc & Hl & Hk & Hw & Hs & _ & Hn & Hp & Hb & Hd).
    fold result in Ht, Hc, Hl, Hk, Hd.
    exists (round ++ evs). rewrite wait_times_app, poll_times_app, Hwaits, Hpolls.
    cbn [app length].
    split; [rewrite Ht, Htrace2, <- app_assoc; reflexivity|].
    split; [destruct Hcache as (? & ? & ?), Hc as (? & ? & ?); unfold same_cache;
            repeat split; congruence|].
    split; [congruence|]. split; [lia|].
    split.
    { constructor; [split; [lia | exact Hwait]|].
      eapply Forall_impl; [exact Hw|]. cbn beta. intros w [Hw1 Hw2]. split; [lia | exact Hw2]. }
    split.
    { constructor; [exact Hs|].
      eapply Forall_impl; [exact Hw|]. cbn beta. intros w [Hw1 _]. lia. }
    split; [intros w [= <-]; reflexivity|].
    split; [rewrite Hn; reflexivity|].
    split.
    { constructor; [lia|].
      eapply Forall_impl; [exact Hp|]. cbn beta. intros t [Ht1 Ht2]. split; [lia | exact Ht2]. }
    split.
    { right. destruct Hb as [-> | Hb]; cbn [length]; lia. }
    destruct (fst result) as [[access refresh expires|]|].
    - destruct Hd as (credentials & Hd1 & Hd2 & Hd3 & Hd4 & Hd5).
      exists credentials. repeat split; try assumption.
      rewrite last_app, Hd5. reflexivity.
    - rewrite Hd. exact Hdisk.
    - rewrite Hd. exact Hdisk. }
  destruct (snd (net_pollDeviceToken env _)) as [credentials| | | |].
  - unfold saveCredentials. destruct (fs_write_ok env (trace st2)); cbn [fst snd].
    + apply (Hstop (AuthSuccess _ _ _) _ [(clock st2, WriteFileSync (stored_of credentials))]);
        try reflexivity.
      * unfold same_cache. auto.
      * exists credentials. repeat split.
    + apply (Hstop AuthFailed _ [(clock st2, WriteFailed)]); try reflexivity.
      * unfold same_cache. auto.
      * exact Hdisk.
  - apply Hgo; [exact Hinterval | lia].
  - apply Hgo; [exact Hnext | lia].
  - apply Hgo; [exact Hinterval | lia].
  - cbn [fst snd]. apply (Hstop AuthFailed st2 []); try reflexivity.
    + rewrite app_nil_r. reflexivity.
    + unfold same_cache. auto.
    + exact Hdisk.
Qed.

(** X19. The login callback always returns.  It polls at most once per 8 seconds
    of the device code's life time, never before 8 seconds have passed, and
    never later than 18 seconds after the device code has expired. *)
Theorem callback_polls_boundedly_often (env : Env) (expires_in : Z) (st : State) :
  let result := callback env expires_in st in
  let polls := poll_times (events_since st (snd result)) in
  (exists outcome, fst result = Some outcome)
  /\ (polls = [] \/ 8000 * (Z.of_nat (length polls) - 1) < expires_in * 1000)
  /\ Forall (fun t => clock st + 8000 <= t /\ t < clock st + expires_in * 1000 + 18000) polls.
Proof.
  intros result polls.
  pose proof (callback_returns env expires_in st) as Hreturns. fold result in Hreturns.
  destruct (pollingLoop_run env (clock st) (expires_in * 1000)
              (pollingFuel (expires_in * 1000)) 5000 st)
    as (evs & Htrace & _ & _ & _ & _ & _ & _ & _ & Hpolls & Hbound & _).
  { apply list_elem_of_here. }
  change (pollingLoop _ env (clock st) (expires_in * 1000) 5000 st) with result in Htrace.
  subst polls. rewrite (events_since_app _ _ _ Htrace).
  split; [destruct (fst result); [eauto | contradiction]|].
  split.
  - destruct Hbound as [Hb | Hb]; [left; exact Hb | right; lia].
  - eapply Forall_impl; [exact Hpolls|]. cbn beta. intros t [H1 H2]. lia.
Qed.

(** X20. Before every poll the callback waits once, for 8, 13 or 18 seconds: the
    first wait is 8 seconds, and the waits never get shorter. *)
Theorem polling_waits_only_grow (env : Env) (expires_in : Z) (st : State) :
  let after := snd (callback env expires_in st) in
  let waits := wait_times (events_since st after) in
  Forall (fun w => w ∈ [8000; 13000; 18000]) waits
  /\ StronglySorted Z.le waits
  /\ (forall w, head waits = Some w -> w = 8000)
  /\ length waits = length (poll_times (events_since st after)).
Proof.
  intros after waits.
  destruct (pollingLoop_run env (clock st) (expires_in * 1000)
              (pollingFuel (expires_in * 1000)) 5000 st)
    as (evs & Htrace & _ & _ & _ & Hwaits & Hsorted & Hhead & Hlength & _).
  { apply list_elem_of_here. }
  change (snd (pollingLoop _ env (clock st) (expires_in * 1000) 5000 st)) with after in Htrace.
  subst waits. rewrite (events_since_app _ _ _ Htrace).
  split; [|split; [exact Hsorted | split; [exact Hhead | exact Hlength]]].
  eapply Forall_impl; [exact Hwaits|]. cbn beta. intros w [_ H]. exact H.
Qed.

(** X21. The credential file is written exactly when the login succeeds: a
    success hands back the token, refresh token and expiry of the credential
    that is then on disk, the write being the last thing done; in every
    other case the file is as it was.  The token cache and the queue's time
    stamp are never touched. *)
Theorem login_saves_exactly_on_success (env : Env) (expires_in : Z) (st : State) :
  let result := callback env expires_in st in
  match fst result with
  | Some (AuthSuccess access refresh expires) =>
      exists credentials,
        disk (snd result) = FileJson (stored_of credentials)
        /\ access = accessToken credentials
        /\ refresh = default "" (refreshToken credentials)
        /\ expires = Js.num_or (expiryDate credentials) (clock (snd result) + 3600000)
        /\ last (events_since st (snd result))
           = Some (clock (snd result), WriteFileSync (stored_of credentials))
  | _ => disk (snd result) = disk st
  end
  /\ same_cache st (snd result)
  /\ lastRequestTime (snd result) = lastRequestTime st.
Proof.
  intros result.
  destruct (pollingLoop_run env (clock st) (expires_in * 1000)
              (pollingFuel (expires_in * 1000)) 5000 st)
    as (evs & Htrace & Hcache & Hlast & _ & _ & _ & _ & _ & _ & _ & Hdisk).
  { apply list_elem_of_here. }
  change (pollingLoop _ env (clock st) (expires_in * 1000) 5000 st) with result
    in Htrace, Hcache, Hlast, Hdisk.
  rewrite (events_since_app _ _ _ Htrace).
  split; [exact Hdisk | split; [exact Hcache | exact Hlast]].
Qed.

Lemma prefix_of_trans_app (h0 h1 more h : History) :
  h1 = h0 ++ more -> h1 `prefix_of` h -> h0 `prefix_of` h.
Proof. intros -> H. etransitivity; [|exact H]. apply prefix_app_r. reflexivity. Qed.

Lemma pollingLoop_never_approved (env : Env) (startTime timeoutMs : Z) (fuel : nat) :
  forall interval st,
    interval ∈ [5000; 10000; 15000] ->
    never_approved env (trace st) ->
    let result := pollingLoop fuel env startTime timeoutMs interval st in
    match fst result with
    | Some AuthFailed => timeoutMs <= clock (snd result) - startTime
    | Some (AuthSuccess _ _ _) => False
    | None => True
    end.
Proof.
  induction fuel as [|fuel IH]; intros interval st Hinterval Hnever; [exact I|].
  assert (Hrange : 5000 <= interval <= 15000).
  { rewrite !elem_of_cons in Hinterval.
    destruct Hinterval as [-> | [-> | [-> | H]]]; [lia | lia | lia | inversion H]. }
  assert (Hnext : Z.min (interval + 5000) 15000 ∈ [5000; 10000; 15000]).
  { rewrite !elem_of_cons in Hinterval. rewrite !elem_of_cons.
    destruct Hinterval as [-> | [-> | [-> | H]]]; [auto | auto | auto | inversion H]. }
  rewrite pollingLoop_S. cbv zeta.
  destruct (Z.ltb_spec (clock st - startTime) timeoutMs) as [Hin | Hout]; [|exact Hout].
  pose proof (after_poll_state env interval st Hrange) as (Hpoll & Htrace & _).
  cbv zeta in Hpoll, Htrace. rewrite Hpoll.
  assert (Hnever2 : never_approved env (trace (after_poll env interval st))).
  { intros h Hp. apply Hnever. rewrite <- app_assoc in Htrace.
    exact (prefix_of_trans_app _ _ _ _ Htrace Hp). }
  destruct (Hnever (trace st ++ [(clock st, Sleep (Some (interval + POLLING_MARGIN_MS)))]))
    as [-> | [-> | ->]]; [apply prefix_app_r; reflexivity | | |]; apply IH; assumption.
Qed.

(** X22. When the user never approves the login (every poll is answered "not
    yet" or "slow down"), the callback fails, and only once the device
    code's life time has run out; the credential file is not touched. *)
Theorem unapproved_login_fails_after_the_timeout (env : Env) (expires_in : Z) (st : State) :
  let result := callback env expires_in st in
  never_approved env (trace st) ->
  fst result = Some AuthFailed
  /\ expires_in * 1000 <= clock (snd result) - clock st
  /\ disk (snd result) = disk st.
Proof.
  intros result Hnever.
  pose proof (callback_returns env expires_in st) as Hreturns. fold result in Hreturns.
  pose proof (pollingLoop_never_approved env (clock st) (expires_in * 1000)
                (pollingFuel (expires_in * 1000)) 5000 st
                ltac:(apply list_elem_of_here) Hnever) as Hrun.
  destruct (pollingLoop_run env (clock st) (expires_in * 1000)
              (pollingFuel (expires_in * 1000)) 5000 st)
    as (evs & _ & _ & _ & _ & _ & _ & _ & _ & _ & _ & Hdisk).
  { apply list_elem_of_here. }
  cbv zeta in Hrun, Hdisk.
  change (pollingLoop _ env (clock st) (expires_in * 1000) 5000 st) with result
    in Hrun, Hdisk.
  destruct (fst result) as [[access refresh expires|]|]; [contradiction | | congruence].
  auto.
Qed.

Lemma unapproved_login_witness :
  fst (callback undecided_env 30 (fresh_state 1700000000000 FileMissing)) = Some AuthFailed
  /\ wait_times (trace (snd (callback undecided_env 30
                              (fresh_state 1700000000000 FileMissing))))
     = [8000; 8000; 13000; 13000].
Proof.
  split; [|reflexivity].
  apply (unapproved_login_fails_after_the_timeout undecided_env 30
           (fresh_state 1700000000000 FileMissing)).
  intros h _. cbn [undecided_env net_pollDeviceToken snd].
  destruct (Nat.even (length (poll_times h))); auto.
Defined.

(** ** Pacing: the [enqueue] the README quotes, the queue and the wrapper together *)

(** X23. With the [enqueue] the README quotes, a task is dispatched at the later
    of now and one minimum interval after the previous dispatch, after at
    most one timer; and when a second call is made once the first task has
    finished, its task is dispatched the larger of the minimum interval and
    the first task's running time after the first. *)
Theorem quoted_enqueue_spaces_dispatches {A} (first : State -> A * State) (st : State) :
  well_behaved first ->
  lastRequestTime st <= clock st ->
  let turn1 := await_turn_with 0 st in
  let after1 := snd (enqueue_quoted first st) in
  let turn2 := await_turn_with 0 after1 in
  lastRequestTime turn1 = Z.max (clock st) (lastRequestTime st + MIN_INTERVAL)
  /\ clock turn1 = lastRequestTime turn1
  /\ (length (events_since st turn1) <= 1)%nat
  /\ (MIN_INTERVAL <= clock st - lastRequestTime st -> events_since st turn1 = [])
  /\ lastRequestTime turn2 - lastRequestTime turn1
     = Z.max MIN_INTERVAL (clock after1 - lastRequestTime turn1).
Proof.
  intros Hfirst Hlast turn1 after1 turn2.
  pose proof (await_turn_with_spec 0 st ltac:(unfold JITTER_MAX; lia) Hlast)
    as (Hevents & Hclock & Hset).
  cbv zeta in Hevents, Hclock, Hset. fold turn1 in Hevents, Hclock, Hset.
  destruct (Hfirst turn1) as [Hruns Hkeeps].
  change (snd (first turn1)) with after1 in Hruns, Hkeeps.
  pose proof (await_turn_with_spec 0 after1 ltac:(unfold JITTER_MAX; lia)
                ltac:(rewrite Hkeeps, Hset; exact Hruns)) as (_ & Hclock2 & Hset2).
  cbv zeta in Hclock2, Hset2. fold turn2 in Hclock2, Hset2.
  unfold MIN_INTERVAL in *.
  split; [lia|]. split; [lia|]. split; [|split].
  - rewrite Hevents. destruct (0 <? _); cbn [length]; lia.
  - intros Hidle. rewrite Hevents.
    destruct (Z.ltb_spec 0 (Z.max 0 (1000 - (clock st - lastRequestTime st)) + 0));
      [lia | reflexivity].
  - rewrite Hset2, Hclock2, Hkeeps, Hset. lia.
Qed.

Lemma quoted_enqueue_witness :
  lastRequestTime
    (await_turn_with 0 (snd (enqueue_quoted (busy 200) (fresh_state 1700000000000 FileMissing))))
  - lastRequestTime (await_turn_with 0 (fresh_state 1700000000000 FileMissing))
  = 1000.
Proof.
  destruct (quoted_enqueue_spaces_dispatches (busy 200) (fresh_state 1700000000000 FileMissing))
    as (_ & _ & _ & _ & Hgap).
  - intros st. cbn. split; [lia | reflexivity].
  - cbn. lia.
  - rewrite Hgap. reflexivity.
Defined.

Lemma fetch_times_app (h1 h2 : History) : fetch_times (h1 ++ h2) = fetch_times h1 ++ fetch_times h2.
Proof. apply omap_app. Qed.

Lemma fetch_times_resolution (evs : History) :
  Forall (fun entry => resolution_event (snd entry) = true) evs -> fetch_times evs = [].
Proof.
  induction 1 as [|[t e] evs He _ IH]; [reflexivity|].
  unfold fetch_times in *. cbn [omap list_omap fetch_time snd] in *.
  destruct e; try discriminate; exact IH.
Qed.

(** One call of the wrapper, as the queue sees it: either nothing is sent
    and the queue's stamp stays, or the first request is sent at the stamp
    the queue then holds, at least the minimum interval after the previous
    stamp. *)
Lemma qwen_fetch_times (env : Env) (input init : string) (init_headers : gmap string string)
    (st : State) :
  lastRequestTime st <= clock st ->
  let after := snd (qwen_fetch env input init init_headers st) in
  lastRequestTime after <= clock after
  /\ ((Js.truthy_str (fst (getValidAccessToken env st)) = false
       /\ fetch_times (events_since st after) = []
       /\ lastRequestTime after = lastRequestTime st)
      \/ (Js.truthy_str (fst (getValidAccessToken env st)) = true
          /\ exists t later,
               fetch_times (events_since st after) = t :: later
               /\ lastRequestTime after = t
               /\ lastRequestTime st + MIN_INTERVAL <= t
               /\ clock st <= t)).
Proof.
  intros Hlast after. subst after.
  destruct (getValidAccessToken_frame env st) as (Hl & Hc & evs & Htrace & Hall).
  cbv zeta in Hl, Hc, Htrace.
  assert (Hall' : fetch_times ((clock st, GetAuth) :: evs) = []).
  { apply fetch_times_resolution. constructor; [reflexivity | exact Hall]. }
  unfold qwen_fetch.
  destruct (getValidAccessToken env st) as [accessToken st1]. cbn [fst snd] in *.
  destruct (Js.truthy_str accessToken) eqn:Htruthy; cbn [negb snd].
  2:{ split; [lia|]. left. rewrite (events_since_app _ _ _ Htrace). auto. }
  unfold enqueue_quoted.
  pose proof (await_turn_with_spec 0 st1
                ltac:(unfold JITTER_MAX; lia) ltac:(lia)) as (Hevents & Hclock & Hset).
  cbv zeta in Hevents, Hclock, Hset.
  set (st2 := await_turn_with 0 st1) in *.
  assert (Hwaits : exists waits, trace st2 = trace st1 ++ waits /\ fetch_times waits = []).
  { subst st2. unfold await_turn_with.
    destruct (0 <? _); cbn [set_lastRequestTime trace sleep tick log].
    - eexists. split; reflexivity.
    - exists []. rewrite app_nil_r. split; reflexivity. }
  destruct Hwaits as (waits & Hwaits & Hnone).
  destruct (dispatch_requests env input init
              (buildHeaders env init_headers (default "" accessToken))
              (default "" accessToken) st2) as (Hl2 & Hc2 & evs' & Htrace' & _).
  cbv zeta in Hl2, Hc2, Htrace'.
  split; [lia|]. right. split; [reflexivity|].
  exists (clock st2), (fetch_times evs').
  rewrite (events_since_app st _
             (((clock st, GetAuth) :: evs) ++ waits
              ++ (clock st2,
                  FetchCall (request_of input init
                               (buildHeaders env init_headers (default "" accessToken))))
                 :: evs'))
    by (rewrite Htrace', Hwaits, Htrace, <- !app_assoc; reflexivity).
  rewrite !fetch_times_app, Hall', Hnone. cbn [app].
  split; [reflexivity|]. unfold MIN_INTERVAL in *. split; [lia|]. split; lia.
Qed.

(** X24. When the wrapper has a token, the queue's time stamp after the call is
    the time at which the call's first request was sent: the retries after
    401, 403 and 429 do not move it. *)
Theorem queue_stamp_is_the_first_request_time (env : Env) (input init : string)
    (init_headers : gmap string string) (st : State) :
  lastRequestTime st <= clock st ->
  Js.truthy_str (fst (getValidAccessToken env st)) = true ->
  let after := snd (qwen_fetch env input init init_headers st) in
  head (fetch_times (events_since st after)) = Some (lastRequestTime after)
  /\ clock st <= lastRequestTime after <= clock after.
Proof.
  intros Hlast Htoken after.
  destruct (qwen_fetch_times env input init init_headers st Hlast)
    as (Hsane & [(Hnone & _) | (_ & t & later & Htimes & Hstamp & _ & Hstart)]);
    [congruence|].
  fold after in Hsane, Htimes, Hstamp. rewrite Htimes, Hstamp. cbn [head].
  split; [reflexivity | lia].
Qed.

Lemma queue_stamp_witness :
  head (fetch_times
          (events_since throttled_session
             (snd (qwen_fetch (throttling_env (Some "2")) "/chat/completions" "{}" ∅
                     throttled_session))))
  = Some (lastRequestTime
            (snd (qwen_fetch (throttling_env (Some "2")) "/chat/completions" "{}" ∅
                    throttled_session)))
  /\ fetch_times
       (events_since throttled_session
          (snd (qwen_fetch (throttling_env (Some "2")) "/chat/completions" "{}" ∅
                  throttled_session)))
     = [1700000000600; 1700000002650]
  /\ lastRequestTime
       (snd (qwen_fetch (throttling_env (Some "2")) "/chat/completions" "{}" ∅
               throttled_session))
     = 1700000000600.
Proof.
  split; [|split; reflexivity].
  apply (queue_stamp_is_the_first_request_time (throttling_env (Some "2"))
           "/chat/completions" "{}" ∅ throttled_session).
  - cbn. lia.
  - reflexivity.
Defined.

(** X25. The first requests of two calls of the wrapper, the second made when the
    first has returned, are at least the minimum interval (one second)
    apart. *)
Theorem successive_calls_are_spaced (env : Env)
    (input1 init1 : string) (headers1 : gmap string string)
    (input2 init2 : string) (headers2 : gmap string string) (st : State) (t1 t2 : Z) :
  lastRequestTime st <= clock st ->
  let after1 := snd (qwen_fetch env input1 init1 headers1 st) in
  let after2 := snd (qwen_fetch env input2 init2 headers2 after1) in
  head (fetch_times (events_since st after1)) = Some t1 ->
  head (fetch_times (events_since after1 after2)) = Some t2 ->
  MIN_INTERVAL <= t2 - t1.
Proof.
  intros Hlast after1 after2 Hfirst Hsecond.
  destruct (qwen_fetch_times env input1 init1 headers1 st Hlast)
    as (Hsane1 & [(_ & Hnone & _) | (_ & t & later & Htimes & Hstamp & _)]);
    fold after1 in Hsane1.
  { fold after1 in Hnone. rewrite Hnone in Hfirst. discriminate. }
  fold after1 in Htimes, Hstamp. rewrite Htimes in Hfirst. injection Hfirst as ->.
  destruct (qwen_fetch_times env input2 init2 headers2 after1 Hsane1)
    as (_ & [(_ & Hnone & _) | (_ & t & later' & Htimes2 & _ & Hgap & _)]).
  { fold after2 in Hnone. rewrite Hnone in Hsecond. discriminate. }
  fold after2 in Htimes2. rewrite Htimes2 in Hsecond. injection Hsecond as ->.
  lia.
Qed.

Lemma successive_calls_witness :
  MIN_INTERVAL <= 1700000001000 - 1700000000000.
Proof.
  apply (successive_calls_are_spaced silent_env "/chat/completions" "{}" ∅
           "/chat/completions" "{}" ∅ warm_state).
  - cbn. lia.
  - reflexivity.
  - reflexivity.
Defined.

(** ** The [loader] *)

(** X26. [loader] sets the cost of every model of the provider to zero, whether
    or not a token can be resolved, and keeps the set of models; it returns
    null exactly when no token resolves, and otherwise an empty API key and
    the portal's base URL.  It sends no API request. *)
Theorem loader_zeroes_costs_with_or_without_token (env : Env) (provider : option Provider)
    (st : State) :
  let out := loader env provider st in
  (out.1.1 = None <-> Js.truthy_str (fst (getValidAccessToken env st)) = false)
  /\ (forall result, out.1.1 = Some result ->
        apiKey result = "" /\ baseURL result = "https://portal.qwen.ai/v1")
  /\ out.1.2 = zeroCosts provider
  /\ (forall p ms, provider = Some p -> models p = Some ms ->
        exists ms',
          out.1.2 = Some {| models := Some ms' |}
          /\ (forall id, ms' !! id = None <-> ms !! id = None)
          /\ (forall id, ms' !! id = Some None <-> ms !! id = Some None)
          /\ (forall id model, ms' !! id = Some (Some model) -> cost model = Some (0, 0)))
  /\ out.2 = snd (getValidAccessToken env st)
  /\ fetch_calls (events_since st out.2) = [].
Proof.
  intros out.
  destruct (getValidAccessToken_frame env st) as (_ & _ & evs & Htrace & Hall).
  cbv zeta in Htrace.
  assert (Hout : out = (if negb (Js.truthy_str (fst (getValidAccessToken env st)))
                        then None
                        else Some {| apiKey := ""; baseURL := QWEN_API_CONFIG_baseUrl |},
                        zeroCosts provider, snd (getValidAccessToken env st))).
  { subst out. unfold loader. destruct (getValidAccessToken env st) as [token st1].
    cbn [fst snd]. destruct (negb (Js.truthy_str token)); reflexivity. }
  rewrite Hout. cbn [fst snd].
  split; [|split; [|split; [|split; [|split]]]]; try reflexivity.
  - destruct (Js.truthy_str _); cbn [negb]; split; congruence.
  - intros result. destruct (negb _); intros [= <-]. split; reflexivity.
  - intros p ms -> Hms. cbn [zeroCosts]. rewrite Hms. eexists. split; [reflexivity|].
    split; [|split].
    + intros id. rewrite lookup_fmap. destruct (ms !! id); cbn; split; congruence.
    + intros id. rewrite lookup_fmap. destruct (ms !! id) as [[m|]|]; cbn; split; congruence.
    + intros id model. rewrite lookup_fmap.
      destruct (ms !! id) as [[m|]|]; cbn; intros [= <-]. reflexivity.
  - rewrite (events_since_app _ _ _ Htrace). apply fetch_calls_resolution.
    constructor; [reflexivity | exact Hall].
Qed.

(** ** The earlier token resolution *)

Lemma legacy_oauth (env : Env) (st : State) (a : RuntimeAuthState) :
  host_getAuth env (trace st) = Some a ->
  auth_type a = "oauth" ->
  cacheIsFresh (clock st) st = false ->
  Legacy.getValidAccessToken env st
  = let st1 := log GetAuth st in
    let '(accessToken, st2) :=
      if Js.truthy_str (access a) && Js.truthy_num (expires a)
         && match expires a with
            | Some e => e - Legacy.REFRESH_MARGIN <? clock st1
            | None => false
            end
         && Js.truthy_str (refresh a)
      then
        match refreshAccessToken env (default "" (refresh a)) st1 with
        | (Some refreshed, st') =>
            match saveCredentials env refreshed st' with
            | (true, st'') =>
                (Some (accessToken refreshed),
                 set_cache (cachedToken st'')
                           (Js.num_or (expiryDate refreshed) (clock st'' + 3600000))
                           (clock st'') st'')
            | (false, st'') => (None, st'')
            end
        | (None, st') => (None, st')
        end
      else (access a, st1) in
    if Js.truthy_str accessToken
    then (accessToken,
          set_cache accessToken (Js.num_or (expires a) (clock st2 + 3600000)) (clock st1) st2)
    else (accessToken, st2).
Proof.
  intros Hauth Htype Hstale. unfold Legacy.getValidAccessToken, getAuth.
  rewrite Hauth, Htype. cbn [String.eqb Ascii.eqb Bool.eqb andb negb].
  change (cacheIsFresh (clock (log GetAuth st)) (log GetAuth st))
    with (cacheIsFresh (clock st) st).
  rewrite Hstale. reflexivity.
Qed.

(** X27. The earlier [getValidAccessToken], when it refreshes, caches the new
    token under the expiry of the session's old token and the time the call
    began, not under the new credential's expiry: the new token is returned
    and persisted, but the cache entry is good for less than a minute. *)
Theorem legacy_refresh_caches_under_the_old_expiry (env : Env) (st : State)
    (a : RuntimeAuthState) (expiry : Z) (token : string) (refreshed : QwenCredentials) :
  host_getAuth env (trace st) = Some a ->
  auth_type a = "oauth" ->
  cacheIsFresh (clock st) st = false ->
  Js.truthy_str (access a) = true ->
  expires a = Some expiry ->
  expiry <> 0 ->
  expiry - 60000 < clock st ->
  refresh a = Some token ->
  token <> "" ->
  refresh_succeeds env (trace st) token refreshed ->
  disk_writable env (trace st) ->
  accessToken refreshed <> "" ->
  let result := Legacy.getValidAccessToken env st in
  fst result = Some (accessToken refreshed)
  /\ cachedToken (snd result) = Some (accessToken refreshed)
  /\ cachedTokenExpiry (snd result) = expiry
  /\ cachedTokenExpiry (snd result) < clock st + 60000
  /\ lastRefreshTime (snd result) = clock st
  /\ disk (snd result) = FileJson (stored_of refreshed)
  /\ refresh_calls (events_since st (snd result)) = [token].
Proof.
  intros Hauth Htype Hstale Haccess Hexpires Hnonzero Hdue Hrefresh Htoken Hgood Hwrite
         Hnew result.
  subst result. rewrite (legacy_oauth env st a Hauth Htype Hstale). cbv zeta.
  rewrite Haccess, Hexpires, Hrefresh. cbn [Js.truthy_num default from_option]. unfold id.
  apply truthy_str_Some in Htoken. rewrite Htoken.
  destruct (Z.eqb_spec expiry 0); [contradiction|]. cbn [negb andb].
  unfold Legacy.REFRESH_MARGIN. cbn [log clock].
  destruct (Z.ltb_spec (expiry - 60000) (clock st)); [|lia]. cbn [andb].
  assert (Hprefix : trace st `prefix_of` trace (log GetAuth st)).
  { cbn [log trace]. apply prefix_app_r. reflexivity. }
  unfold refreshAccessToken.
  pose proof (Hgood _ Hprefix) as Hnet.
  destruct (net_refreshAccessToken env (trace (log GetAuth st)) token) as [duration outcome].
  cbn [snd] in Hnet. subst outcome.
  unfold saveCredentials. rewrite Hwrite.
  2:{ cbn [tick log trace]. rewrite <- app_assoc. apply prefix_app_r. reflexivity. }
  apply truthy_str_Some in Hnew. rewrite Hnew.
  cbn [fst snd set_cache set_disk tick log cachedToken cachedTokenExpiry lastRefreshTime
       disk clock trace].
  unfold Js.num_or. cbn [Js.truthy_num]. destruct (Z.eqb_spec expiry 0); [contradiction|].
  cbn [negb]. repeat split; try lia.
  unfold events_since. cbn [trace set_cache set_disk tick log].
  rewrite <- !app_assoc, drop_app_length. reflexivity.
Qed.

Lemma legacy_refresh_witness :
  cachedToken (snd (Legacy.getValidAccessToken legacy_env (fresh_state 1700000000000 FileMissing)))
  = Some "new-token"
  /\ cachedTokenExpiry
       (snd (Legacy.getValidAccessToken legacy_env (fresh_state 1700000000000 FileMissing)))
     = 1699999000000.
Proof.
  destruct (legacy_refresh_caches_under_the_old_expiry legacy_env
              (fresh_state 1700000000000 FileMissing) legacy_auth 1699999000000 "good"
              renewed_credentials)
    as (_ & Hc & He & _).
  - reflexivity.
  - reflexivity.
  - reflexivity.
  - reflexivity.
  - reflexivity.
  - lia.
  - cbn. lia.
  - reflexivity.
  - discriminate.
  - intros h _. reflexivity.
  - intros h _. reflexivity.
  - cbn. discriminate.
  - split; [exact Hc | exact He].
Defined.

(** X28. When the refresh fails, the earlier [getValidAccessToken] returns null,
    although the session's access token may have up to a minute left; the
    cache and the credential file stay as they were. *)
Theorem legacy_failed_refresh_gives_null (env : Env) (st : State)
    (a : RuntimeAuthState) (expiry : Z) (token : string) :
  host_getAuth env (trace st) = Some a ->
  auth_type a = "oauth" ->
  cacheIsFresh (clock st) st = false ->
  Js.truthy_str (access a) = true ->
  expires a = Some expiry ->
  expiry <> 0 ->
  expiry - 60000 < clock st ->
  refresh a = Some token ->
  token <> "" ->
  refresh_fails env (trace st) token ->
  let result := Legacy.getValidAccessToken env st in
  fst result = None
  /\ same_cache st (snd result)
  /\ disk (snd result) = disk st
  /\ refresh_calls (events_since st (snd result)) = [token].
Proof.
  intros Hauth Htype Hstale Haccess Hexpires Hnonzero Hdue Hrefresh Htoken Hfails result.
  subst result. rewrite (legacy_oauth env st a Hauth Htype Hstale). cbv zeta.
  rewrite Haccess, Hexpires, Hrefresh. cbn [Js.truthy_num default from_option]. unfold id.
  apply truthy_str_Some in Htoken. rewrite Htoken.
  destruct (Z.eqb_spec expiry 0); [contradiction|]. cbn [negb andb].
  unfold Legacy.REFRESH_MARGIN. cbn [log clock].
  destruct (Z.ltb_spec (expiry - 60000) (clock st)); [|lia]. cbn [andb].
  assert (Hprefix : trace st `prefix_of` trace (log GetAuth st)).
  { cbn [log trace]. apply prefix_app_r. reflexivity. }
  unfold refreshAccessToken.
  pose proof (Hfails _ Hprefix) as Hnet.
  destruct (net_refreshAccessToken env (trace (log GetAuth st)) token) as [duration outcome].
  cbn [snd] in Hnet. subst outcome.
  cbn [Js.truthy_str fst snd]. unfold same_cache.
  cbn [tick log cachedToken cachedTokenExpiry lastRefreshTime disk clock trace].
  repeat split.
  unfold events_since. cbn [trace set_cache set_disk tick log].
  rewrite <- !app_assoc, drop_app_length. reflexivity.
Qed.

Lemma legacy_failed_refresh_witness :
  fst (Legacy.getValidAccessToken legacy_rejecting_env (fresh_state 1700000000000 FileMissing))
  = None.
Proof.
  destruct (legacy_failed_refresh_gives_null legacy_rejecting_env
              (fresh_state 1700000000000 FileMissing) almost_expired_auth 1700000030000 "stale")
    as (Hnull & _).
  - reflexivity.
  - reflexivity.
  - reflexivity.
  - reflexivity.
  - reflexivity.
  - lia.
  - cbn. lia.
  - reflexivity.
  - discriminate.
  - intros h _. reflexivity.
  - exact Hnull.
Defined.

(** X29. The earlier [getValidAccessToken] never looks at the credential file and
    calls the token endpoint at most once; without an OAuth session of the
    host it returns null having done nothing but ask the host. *)
Theorem legacy_resolution_knows_the_session_only (env : Env) (st : State) :
  let result := Legacy.getValidAccessToken env st in
  Forall (fun entry => snd entry <> ExistsSync /\ snd entry <> ReadFileSync)
         (events_since st (snd result))
  /\ (length (refresh_calls (events_since st (snd result))) <= 1)%nat
  /\ ((forall a, host_getAuth env (trace st) = Some a -> auth_type a <> "oauth") ->
      fst result = None
      /\ events_since st (snd result) = [(clock st, GetAuth)]
      /\ same_cache st (snd result)
      /\ disk (snd result) = disk st).
Proof.
  intros result. subst result. unfold Legacy.getValidAccessToken, getAuth.
  assert (Hbase : events_since st (log GetAuth st) = [(clock st, GetAuth)]).
  { apply events_since_app. reflexivity. }
  assert (Hsame : forall token expiry lastRefresh after evs,
    trace after = trace (log GetAuth st) ++ evs ->
    events_since st (set_cache token expiry lastRefresh after)
    = (clock st, GetAuth) :: evs).
  { intros token expiry lastRefresh after evs Htrace. apply events_since_app.
    cbn [set_cache trace]. rewrite Htrace. cbn [log trace]. rewrite <- app_assoc. reflexivity. }
  assert (Hplain : forall after evs,
    trace after = trace (log GetAuth st) ++ evs ->
    events_since st after = (clock st, GetAuth) :: evs).
  { intros after evs Htrace. apply events_since_app.
    rewrite Htrace. cbn [log trace]. rewrite <- app_assoc. reflexivity. }
  destruct (host_getAuth env (trace st)) as [a|] eqn:Hauth.
  2:{ cbn [fst snd]. rewrite Hbase. unfold same_cache.
      repeat split; try (cbn; lia); repeat constructor; discriminate. }
  destruct (String.eqb_spec (auth_type a) "oauth") as [Htype | Htype]; cbn [negb].
  2:{ cbn [fst snd]. rewrite Hbase. unfold same_cache.
      repeat split; try (cbn; lia); repeat constructor; discriminate. }
  split; [|split; [|intros Hnone; destruct (Hnone a eq_refl Htype)]].
  - destruct (cacheIsFresh _ _).
    { cbn [snd]. rewrite Hbase. repeat constructor; discriminate. }
    destruct (_ && Js.truthy_str (refresh a)).
    + unfold refreshAccessToken.
      destruct (net_refreshAccessToken env _ _) as [duration [refreshed|]].
      * unfold saveCredentials. destruct (fs_write_ok env _).
        -- destruct (Js.truthy_str _); cbn [snd];
             [rewrite (Hsame _ _ _ _ [(clock (log GetAuth st), RefreshCall (default "" (refresh a)));
                                      (clock (log GetAuth st) + Z.of_N duration,
                                       WriteFileSync (stored_of refreshed))])
             |rewrite (Hsame _ _ _ _ [(clock (log GetAuth st), RefreshCall (default "" (refresh a)));
                                      (clock (log GetAuth st) + Z.of_N duration,
                                       WriteFileSync (stored_of refreshed))])];
             try (repeat constructor; discriminate);
             cbn [set_cache set_disk tick log trace clock]; rewrite <- ?app_assoc; reflexivity.
        -- cbn [Js.truthy_str snd].
           rewrite (Hplain _ [(clock (log GetAuth st), RefreshCall (default "" (refresh a)));
                              (clock (log GetAuth st) + Z.of_N duration, WriteFailed)]);
             [repeat constructor; discriminate|].
           cbn [tick log trace clock]. rewrite <- ?app_assoc. reflexivity.
      * cbn [Js.truthy_str snd].
        rewrite (Hplain _ [(clock (log GetAuth st), RefreshCall (default "" (refresh a)))]);
          [repeat constructor; discriminate|].
        cbn [tick log trace clock]. reflexivity.
    + destruct (Js.truthy_str (access a)); cbn [snd].
      * rewrite (Hsame _ _ _ _ []); [repeat constructor; discriminate|].
        rewrite app_nil_r. reflexivity.
      * rewrite Hbase. repeat constructor; discriminate.
  - destruct (cacheIsFresh _ _).
    { cbn [snd]. rewrite Hbase. cbn. lia. }
    destruct (_ && Js.truthy_str (refresh a)).
    + unfold refreshAccessToken.
      destruct (net_refreshAccessToken env _ _) as [duration [refreshed|]].
      * unfold saveCredentials. destruct (fs_write_ok env _).
        -- destruct (Js.truthy_str _); cbn [snd];
             [rewrite (Hsame _ _ _ _ [(clock (log GetAuth st), RefreshCall (default "" (refresh a)));
                                      (clock (log GetAuth st) + Z.of_N duration,
                                       WriteFileSync (stored_of refreshed))])
             |rewrite (Hsame _ _ _ _ [(clock (log GetAuth st), RefreshCall (default "" (refresh a)));
                                      (clock (log GetAuth st) + Z.of_N duration,
                                       WriteFileSync (stored_of refreshed))])];
             try (cbn; lia);
             cbn [set_cache set_disk tick log trace clock]; rewrite <- ?app_assoc; reflexivity.
        -- cbn [Js.truthy_str snd].
           rewrite (Hplain _ [(clock (log GetAuth st), RefreshCall (default "" (refresh a)));
                              (clock (log GetAuth st) + Z.of_N duration, WriteFailed)]);
             [cbn; lia|].
           cbn [tick log trace clock]. rewrite <- ?app_assoc. reflexivity.
      * cbn [Js.truthy_str snd].
        rewrite (Hplain _ [(clock (log GetAuth st), RefreshCall (default "" (refresh a)))]);
          [cbn; lia|].
        cbn [tick log trace clock]. reflexivity.
    + destruct (Js.truthy_str (access a)); cbn [snd].
      * rewrite (Hsame _ _ _ _ []); [cbn; lia|].
        rewrite app_nil_r. reflexivity.
      * rewrite Hbase. cbn. lia.
Qed.
